(** * Graphos graphing calculator: classifier, transform, grid step,
      root bisection, analysis de-duplication and fit-to-data

    A shallow embedding of [src/src/GraphingCalculator.js].

    Also covered: the free parameters of a line, the moves of the
    viewport (zoom, wheel, drag, centring), the labels, the dispatch of
    the draw effect, the contour cells of an implicit curve, the path of
    a parametric curve, where the analysis puts its points, the edits of
    the list of lines, implicit multiplication and the canvas size.

    Numbers.  A JavaScript number is modelled by [num]: a finite value
    carried by an exact rational, the two infinities, or NaN.  Arithmetic
    on finite values is exact (no rounding, no overflow, no negative
    zero); the special values follow IEEE 754 as JavaScript exposes them.

    Strings.  A JavaScript string is the list of its UTF-16 code units.

    Closures.  A compiled curve is a total function on [num]; an
    evaluation that throws is read as NaN, which is what the sampling
    sites of the source do with [try { y = fn(x) } catch { y = NaN }].
    The calls without a handler (in [fitToData] and in the refinement
    of [bisectRoot]) are read the same way. *)

From Stdlib Require Import ZArith QArith Qround Qpower Qabs Lqa Lia.
From Stdlib Require Import List String Ascii Bool Permutation.
From stdpp Require Import base decidable countable gmap.
Import ListNotations.

#[local] Open Scope Q_scope.
Set Warnings "-register-all".

(** ** JavaScript numbers *)

Inductive num : Type :=
| Fin (q : Q)
| PInf
| NInf
| NaN.

Module Num.

(** [Number.isFinite]. *)
Definition isFinite (v : num) : bool :=
  match v with Fin _ => true | _ => false end.

(** Sign of a rational as a comparison with zero. *)
Definition sgn (q : Q) : comparison := Qcompare q 0.

Definition neg (v : num) : num :=
  match v with
  | Fin q => Fin (Qred (- q))
  | PInf => NInf
  | NInf => PInf
  | NaN => NaN
  end.

Definition add (a b : num) : num :=
  match a, b with
  | NaN, _ | _, NaN => NaN
  | Fin x, Fin y => Fin (Qred (x + y))
  | PInf, NInf | NInf, PInf => NaN
  | PInf, _ | _, PInf => PInf
  | NInf, _ | _, NInf => NInf
  end.

Definition sub (a b : num) : num := add a (neg b).

(** An infinity scaled by the sign of a finite factor. *)
Definition scale_inf (pos : bool) (q : Q) : num :=
  match sgn q with
  | Eq => NaN
  | Gt => if pos then PInf else NInf
  | Lt => if pos then NInf else PInf
  end.

Definition mul (a b : num) : num :=
  match a, b with
  | NaN, _ | _, NaN => NaN
  | Fin x, Fin y => Fin (Qred (x * y))
  | Fin x, PInf | PInf, Fin x => scale_inf true x
  | Fin x, NInf | NInf, Fin x => scale_inf false x
  | PInf, PInf | NInf, NInf => PInf
  | PInf, NInf | NInf, PInf => NInf
  end.

(** Division: a finite value over zero is an infinity of the sign of
    the numerator, zero over zero is NaN. *)
Definition div (a b : num) : num :=
  match a, b with
  | NaN, _ | _, NaN => NaN
  | Fin x, Fin y =>
      match sgn y with
      | Eq => match sgn x with Eq => NaN | Gt => PInf | Lt => NInf end
      | _ => Fin (Qred (x / y))
      end
  | Fin _, _ => Fin 0
  | PInf, Fin y => match sgn y with Lt => NInf | _ => PInf end
  | NInf, Fin y => match sgn y with Lt => PInf | _ => NInf end
  | _, _ => NaN
  end.

(** The relational operators; any comparison with NaN is false. *)
Definition ltb (a b : num) : bool :=
  match a, b with
  | NaN, _ | _, NaN => false
  | Fin x, Fin y => match Qcompare x y with Lt => true | _ => false end
  | NInf, NInf | PInf, _ => false
  | NInf, _ => true
  | Fin _, PInf => true
  | Fin _, NInf => false
  end.

Definition gtb (a b : num) : bool := ltb b a.

Definition leb (a b : num) : bool :=
  match a, b with
  | NaN, _ | _, NaN => false
  | Fin x, Fin y => match Qcompare x y with Gt => false | _ => true end
  | NInf, _ | _, PInf => true
  | _, _ => false
  end.

Definition geb (a b : num) : bool := leb b a.

(** Strict equality [===] on numbers. *)
Definition eqb (a b : num) : bool :=
  match a, b with
  | Fin x, Fin y => Qeq_bool x y
  | PInf, PInf | NInf, NInf => true
  | _, _ => false
  end.

(** [Math.min] and [Math.max] of two arguments. *)
Definition min (a b : num) : num :=
  match a, b with
  | NaN, _ | _, NaN => NaN
  | _, _ => if ltb b a then b else a
  end.

Definition max (a b : num) : num :=
  match a, b with
  | NaN, _ | _, NaN => NaN
  | _, _ => if ltb a b then b else a
  end.

(** Truthiness of a number: zero and NaN are falsy. *)
Definition truthy (v : num) : bool :=
  match v with
  | Fin q => negb (Qeq_bool q 0)
  | NaN => false
  | _ => true
  end.

(** Two numbers denote the same value. *)
Definition same (a b : num) : Prop :=
  match a, b with
  | Fin x, Fin y => x == y
  | PInf, PInf | NInf, NInf | NaN, NaN => True
  | _, _ => False
  end.

End Num.

Infix "≃" := Num.same (at level 70, no associativity).

Definition zero : num := Fin 0.
Definition ofZ (z : Z) : num := Fin (inject_Z z).

(** Exceptions: a computation returns a value or throws a message. *)
Inductive result (A : Type) : Type :=
| Ok (a : A)
| Throw (msg : list N).
Arguments Ok {A} a.
Arguments Throw {A} msg.

#[global] Instance result_ret : MRet result := fun A a => Ok a.
#[global] Instance result_bind : MBind result := fun A B k r =>
  match r with Ok a => k a | Throw m => Throw m end.

(** A thrown evaluation read as NaN ([try { y = fn(x) } catch { y = NaN }]). *)
Definition nan_on_throw (r : result num) : num :=
  match r with Ok v => v | Throw _ => NaN end.

(** ** JavaScript strings *)

Module Str.

(** A string is the list of its UTF-16 code units. *)
Definition str : Type := list N.

Definition ch (a : ascii) : N := N_of_ascii a.

(** An ASCII literal as a JavaScript string. *)
Definition js (s : string) : str := map N_of_ascii (list_ascii_of_string s).

(** The code units of the glyphs the classifier knows. *)
Definition theta_glyph : N := 952%N.   (* U+03B8 *)
Definition le_glyph : N := 8804%N.     (* U+2264 *)
Definition ge_glyph : N := 8805%N.     (* U+2265 *)

Definition between (lo hi c : N) : bool := (lo <=? c)%N && (c <=? hi)%N.

(** Line terminators: the characters [.] refuses. *)
Definition is_lt (c : N) : bool :=
  (c =? 10)%N || (c =? 13)%N || (c =? 8232)%N || (c =? 8233)%N.

(** White space and line terminators: what [\s] accepts and [trim] drops. *)
Definition is_ws (c : N) : bool :=
  between 9 13 c || (c =? 32)%N || (c =? 160)%N || (c =? 5760)%N ||
  between 8192 8202 c || (c =? 8232)%N || (c =? 8233)%N || (c =? 8239)%N ||
  (c =? 8287)%N || (c =? 12288)%N || (c =? 65279)%N.

Definition is_upper (c : N) : bool := between 65 90 c.
Definition is_lower (c : N) : bool := between 97 122 c.
Definition is_digit (c : N) : bool := between 48 57 c.
Definition is_alpha (c : N) : bool := is_upper c || is_lower c.

(** [\w]. *)
Definition is_word (c : N) : bool := is_alpha c || is_digit c || (c =? 95)%N.

(** Case folding of the [i] flag, which only identifies ASCII letters. *)
Definition fold_case (c : N) : N := if is_upper c then (c + 32)%N else c.
Definition eq_ci (a b : N) : bool := (fold_case a =? fold_case b)%N.

Fixpoint eqb (a b : str) : bool :=
  match a, b with
  | [], [] => true
  | x :: a', y :: b' => (x =? y)%N && eqb a' b'
  | _, _ => false
  end.

Definition is_empty (s : str) : bool :=
  match s with [] => true | _ => false end.

(** [s.startsWith(p)], with the comparison of code units as a parameter. *)
Fixpoint starts_with_by (eq : N -> N -> bool) (p s : str) : bool :=
  match p, s with
  | [], _ => true
  | x :: p', y :: s' => eq x y && starts_with_by eq p' s'
  | _ :: _, [] => false
  end.

Definition startsWith (s p : str) : bool := starts_with_by N.eqb p s.
Definition startsWith_ci (s p : str) : bool := starts_with_by eq_ci p s.

(** [s.indexOf(sub)], [None] standing for -1. *)
Fixpoint indexOf (s sub : str) : option nat :=
  if startsWith s sub then Some O
  else match s with
       | [] => None
       | _ :: s' => option_map S (indexOf s' sub)
       end.

Definition includes (s sub : str) : bool :=
  match indexOf s sub with Some _ => true | None => false end.

(** [s.slice(i)] and [s.slice(i, j)] for indices within the string. *)
Definition slice_from (i : nat) (s : str) : str := skipn i s.
Definition slice (i j : nat) (s : str) : str := firstn (j - i) (skipn i s).

Fixpoint take_while (p : N -> bool) (s : str) : str :=
  match s with
  | c :: s' => if p c then c :: take_while p s' else []
  | [] => []
  end.

Fixpoint drop_while (p : N -> bool) (s : str) : str :=
  match s with
  | c :: s' => if p c then drop_while p s' else s
  | [] => []
  end.

Definition trimStart (s : str) : str := drop_while is_ws s.
Definition trimEnd (s : str) : str := rev (drop_while is_ws (rev s)).
Definition trim (s : str) : str := trimEnd (trimStart s).

(** [s.split(sep)] for a separator of one code unit. *)
Fixpoint split (sep : N) (s : str) : list str :=
  match s with
  | [] => [[]]
  | c :: s' =>
      if (c =? sep)%N then [] :: split sep s'
      else match split sep s' with
           | p :: ps => (c :: p) :: ps
           | [] => [[c]]
           end
  end.

(** [s.replace(/a/g, b)] for one code unit [a]. *)
Definition replace_unit (a : N) (b : str) (s : str) : str :=
  flat_map (fun c => if (c =? a)%N then b else [c]) s.

(** [s.split(/\s*,\s*/)]: the pieces between commas, without the white
    space that touches a comma. *)
Fixpoint trim_around_commas (first : bool) (ps : list str) : list str :=
  match ps with
  | [] => []
  | [p] => [if first then p else trimStart p]
  | p :: ps' =>
      trimEnd (if first then p else trimStart p) :: trim_around_commas false ps'
  end.

Definition split_comma_ws (s : str) : list str :=
  trim_around_commas true (split (ch ",") s).

End Str.
Import Str.
Arguments ch _%_char.
Arguments js _%_string.

(** ** The regular expressions of the classifier *)

Module Regex.

(** [/\bw\b/.test(s)] for an identifier [w]: an occurrence of [w]
    with no word character on either side. *)
Fixpoint has_word_from (prev_word : bool) (w s : str) : bool :=
  match s with
  | [] => false
  | c :: s' =>
      (negb prev_word && startsWith s w &&
       match skipn (length w) s with
       | [] => true
       | d :: _ => negb (is_word d)
       end)
      || has_word_from (is_word c) w s'
  end.

Definition has_word (w s : str) : bool := has_word_from false w s.

(** [\s*(C+)] where the class [C] contains the white space that
    precedes the group: the white space is skipped, the group is the
    longest run of [C] that follows; when that run is empty the
    matcher gives back one white-space character to the group.
    Returns the group and what follows it. *)
Definition ws_then_run (cls : N -> bool) (s : str) : option (str * str) :=
  let w := take_while is_ws s in
  let r := drop_while is_ws s in
  match take_while cls r with
  | (_ :: _) as run => Some (run, drop_while cls r)
  | [] =>
      match rev w with
      | c :: _ => if cls c then Some ([c], r) else None
      | [] => None
      end
  end.

(** [s.match(/^\s*y\s*=\s*(.+)$/i)]: group 1. *)
Definition match_y (s : str) : option str :=
  match trimStart s with
  | y :: s1 =>
      if eq_ci y (ch "y") then
        match trimStart s1 with
        | e :: s2 =>
            if (e =? ch "=")%N then
              match ws_then_run (fun c => negb (is_lt c)) s2 with
              | Some (g, []) => Some g
              | _ => None
              end
            else None
        | [] => None
        end
      else None
  | [] => None
  end.

Definition not_comma_semi (c : N) : bool :=
  negb ((c =? ch ",")%N || (c =? ch ";")%N).

(** [s.match(/\br\s*=\s*([^,;]+)/i)]: group 1 of the leftmost match. *)
Fixpoint match_r_from (prev_word : bool) (s : str) : option str :=
  match s with
  | [] => None
  | c :: s' =>
      let here :=
        if negb prev_word && eq_ci c (ch "r") then
          match trimStart s' with
          | e :: s2 =>
              if (e =? ch "=")%N
              then option_map fst (ws_then_run not_comma_semi s2)
              else None
          | [] => None
          end
        else None in
      match here with
      | Some g => Some g
      | None => match_r_from (is_word c) s'
      end
  end.

Definition match_r (s : str) : option str := match_r_from false s.

(** One attempt of
    [/theta\s*(?:in|=)\s*\[\s*([^,\]]+)\s*,\s*([^\]]+)\s*\]/i]
    at the head of [s]: groups 1 and 2. *)
Definition range_here (s : str) : option (str * str) :=
  if startsWith_ci s (js "theta") then
    let s1 := trimStart (skipn 5 s) in
    let after_kw :=
      if startsWith_ci s1 (js "in") then Some (skipn 2 s1)
      else if startsWith s1 (js "=") then Some (skipn 1 s1)
      else None in
    match after_kw with
    | Some s2 =>
        match trimStart s2 with
        | b :: s3 =>
            if (b =? ch "[")%N then
              match ws_then_run
                      (fun c => negb ((c =? ch ",")%N || (c =? ch "]")%N)) s3 with
              | Some (g1, c :: s4) =>
                  if (c =? ch ",")%N then
                    match ws_then_run (fun c => negb (c =? ch "]")%N) s4 with
                    | Some (g2, d :: _) =>
                        if (d =? ch "]")%N then Some (g1, g2) else None
                    | _ => None
                    end
                  else None
              | _ => None
              end
            else None
        | [] => None
        end
    | None => None
    end
  else None.

(** The leftmost match of the range clause anywhere in [s]. *)
Fixpoint match_theta_range (s : str) : option (str * str) :=
  match range_here s with
  | Some g => Some g
  | None =>
      match s with
      | [] => None
      | _ :: s' => match_theta_range s'
      end
  end.

(** [/^t\s*=\s*\[/.test(p)]. *)
Definition test_t_range (p : str) : bool :=
  match p with
  | t :: p1 =>
      (t =? ch "t")%N &&
      match trimStart p1 with
      | e :: p2 =>
          (e =? ch "=")%N &&
          match trimStart p2 with
          | b :: _ => (b =? ch "[")%N
          | [] => false
          end
      | [] => false
      end
  | [] => false
  end.

(** The alternation [(<=|>=|<|>|≤|≥)] tried at the head of [s]: the
    operator that matches and what follows it. *)
Definition comparison_ops : list str :=
  [js "<="; js ">="; js "<"; js ">"; [le_glyph]; [ge_glyph]].

Definition op_here (s : str) : option (str * str) :=
  match filter (fun o => startsWith s o) comparison_ops with
  | o :: _ => Some (o, skipn (length o) s)
  | [] => None
  end.

(** A lazy group followed by the alternation: the text
    before the first operator, the operator, the text after it. *)
Fixpoint first_op (s : str) : option (str * str * str) :=
  match op_here s with
  | Some (o, rest) => Some ([], o, rest)
  | None =>
      match s with
      | [] => None
      | c :: s' =>
          match first_op s' with
          | Some (pre, o, rest) => Some (c :: pre, o, rest)
          | None => None
          end
      end
  end.

(** The double-inequality pattern: anchored at both ends, a lazy
    group, the alternation, a second lazy group, the alternation
    again and a greedy last group; the result is groups 1 to 5.
    Every character of the subject is matched by [.] or by an
    operator, so a line terminator anywhere refuses the match. *)
Definition match_double (s : str) : option (str * str * str * str * str) :=
  if existsb is_lt s then None
  else
    match first_op s with
    | Some (a, o1, rest) =>
        match first_op rest with
        | Some (b, o2, c) => Some (a, o1, b, o2, c)
        | None => None
        end
    | None => None
    end.

End Regex.

(** ** Expressions and their compiled form *)

(** A user-authored line. *)
Module Expr.
Record Domain : Type := { use : bool; min : num; max : num }.
Record t : Type := {
  id : Z;
  src : str;
  color : str;
  visible : bool;
  lineWidth : num;
  params : gmap str num;
  domain : option Domain;
  includeIntersect : bool;
  error : str
}.
End Expr.

(** Normalized comparison operators. *)
Module Op.
Inductive t : Type := le | ge | lt | gt.
End Op.

Inductive Kind : Type :=
| explicit | polar | parametric | double_ineq | inequality | implicit | scalar.

(** The string the source stores in the [kind] field. *)
Definition kind_tag (k : Kind) : str :=
  match k with
  | explicit => js "explicit"
  | polar => js "polar"
  | parametric => js "parametric"
  | double_ineq => js "double-ineq"
  | inequality => js "inequality"
  | implicit => js "implicit"
  | scalar => js "scalar"
  end.

(** The fields a branch of the classifier adds to the line; a function
    is [None] where the source stores [null]. *)
Inductive Payload : Type :=
| Explicit (fn : option (num -> num))
| Polar (fr : option (num -> num)) (thmin thmax : num)
| Parametric (fx fy : option (num -> num)) (tmin tmax : num)
| DoubleIneq (F1 : option (num -> num -> num)) (op1 : Op.t)
             (F2 : option (num -> num -> num)) (op2 : Op.t)
| Inequality (F : option (num -> num -> num)) (op : Op.t)
| Implicit (F : option (num -> num -> num))
| Scalar (value : num).

Module Compiled.
Record t : Type := {
  expr : Expr.t;
  payload : Payload;
  params : gmap str num;
  paramNames : list str;
  error : str
}.

Definition kind (c : t) : Kind :=
  match payload c with
  | Explicit _ => explicit
  | Polar _ _ _ => polar
  | Parametric _ _ _ _ => parametric
  | DoubleIneq _ _ _ _ => double_ineq
  | Inequality _ _ => inequality
  | Implicit _ => implicit
  | Scalar _ => scalar
  end.

(** The [fn] field: present on explicit lines only. *)
Definition fn (c : t) : option (num -> num) :=
  match payload c with Explicit f => f | _ => None end.

End Compiled.

(** ** The expression compiler

    [compileExpr] hands the text to the parser of the package expr-eval
    and returns its syntax tree, whose [evaluate] method takes the
    bindings of the free variables.  Both may throw.  The classifier is
    written against this interface. *)
Class Compiler : Type := {
  ast : Type;
  compileExpr : str -> result ast;
  evaluate : ast -> gmap str num -> result num
}.

(** ** Free parameters *)

Definition RESERVED : list str :=
  map js
    ["x"; "y"; "t"; "theta"; "ans"; "pi"; "e"; "tau"; "phi";
     "sin"; "cos"; "tan"; "asin"; "acos"; "atan"; "atan2"; "abs"; "log";
     "ln"; "exp"; "sqrt"; "random";
     "min"; "max"; "round"; "floor"; "ceil"; "trunc"; "sign"; "sgn"; "if";
     "mod"; "pow";
     "sec"; "csc"; "cot"; "sech"; "csch"; "coth";
     "sinh"; "cosh"; "tanh"; "asinh"; "acosh"; "atanh";
     "sind"; "cosd"; "tand"; "asind"; "acosd"; "atand"; "deg"; "rad";
     "log10"; "log2"; "logb";
     "piecewise"; "clamp"; "lerp"; "heaviside"; "step";
     "fact"; "factorial"; "nCr"; "nPr"]%string.

Definition mem (w : str) (l : list str) : bool := existsb (Str.eqb w) l.

(** The successive matches of [/[A-Za-z_][A-Za-z0-9_]*/g]; [cur] is the
    identifier being read, last character first. *)
Fixpoint identifiers (cur : option str) (s : str) : list str :=
  match s with
  | [] => match cur with Some w => [rev w] | None => [] end
  | c :: s' =>
      match cur with
      | Some w =>
          if is_word c then identifiers (Some (c :: w)) s'
          else rev w :: identifiers None s'
      | None =>
          if is_alpha c || (c =? ch "_")%N then identifiers (Some [c]) s'
          else identifiers None s'
      end
  end.

(** [detectParams]: the identifiers that are not reserved, each once, in
    the order of their first occurrence. *)
Definition detectParams (src : str) : list str :=
  fold_left
    (fun out name =>
       if mem name RESERVED then out
       else if mem name out then out else out ++ [name])
    (identifiers None src) [].

(** ** The classifier *)

Inductive Branch : Type :=
| BExplicitY | BPolar | BParametric | BDouble | BInequality | BImplicit
| BScalar | BFallback.

Definition branch_kind (b : Branch) : Kind :=
  match b with
  | BExplicitY | BFallback => explicit
  | BPolar => polar
  | BParametric => parametric
  | BDouble => double_ineq
  | BInequality => inequality
  | BImplicit => implicit
  | BScalar => scalar
  end.

(** [norm]: the normalized name of a comparison operator. *)
Definition norm (op : str) : Op.t :=
  if Str.eqb op [le_glyph] || Str.eqb op (js "<=") then Op.le
  else if Str.eqb op [ge_glyph] || Str.eqb op (js ">=") then Op.ge
  else if Str.eqb op (js "<") then Op.lt
  else Op.gt.

(** Stable sort by index, as [sort((a, b) => a.i - b.i)] orders: an
    element is inserted before the later elements of the same index. *)
Fixpoint insert_by_index (x : str * nat) (l : list (str * nat)) : list (str * nat) :=
  match l with
  | [] => [x]
  | y :: l' =>
      if (snd x <=? snd y)%nat then x :: l else y :: insert_by_index x l'
  end.

Definition sort_by_index (l : list (str * nat)) : list (str * nat) :=
  fold_right insert_by_index [] l.

(** The comparison operator of a single inequality: of the operators
    that occur, the one whose first occurrence is leftmost. *)
Definition find_cmp (s : str) : option (str * nat) :=
  head (sort_by_index
          (omap (fun o => option_map (fun i => (o, i)) (indexOf s o))
                Regex.comparison_ops)).

(** The parts found by the loop of the parametric branch. *)
Record ParamParts : Type := {
  xPart : option str;
  yPart : option str;
  tmin : num;
  tmax : num
}.

Definition truthy_str (o : option str) : bool :=
  match o with Some (_ :: _) => true | _ => false end.

(** The structural conditions of the branches, on the normalized source. *)
Module Guard.
Definition hasX (s : str) : bool := Regex.has_word (js "x") s.
Definition hasY (s : str) : bool := Regex.has_word (js "y") s.
Definition hasT (s : str) : bool := Regex.has_word (js "t") s.
Definition hasTh (s : str) : bool := Regex.has_word (js "theta") s.
Definition hasEq (s : str) : bool := includes s (js "=").

Definition parametric (s : str) : bool :=
  includes s (js "x=") && includes s (js "y=") && hasT s.

Definition parts (s : str) : list str :=
  map trim (split (ch ",") (replace_unit (ch ";") (js ",") s)).

Definition implicit (s : str) : bool := hasEq s && hasX s && hasY s.

Definition scalar (s : str) : bool :=
  negb (hasX s) && negb (hasY s) && negb (hasT s) && negb (hasTh s) &&
  negb (hasEq s).
End Guard.

(** The trimmed source with the glyph of theta spelled out. *)
Definition normalize (src : str) : str :=
  replace_unit theta_glyph (js "theta") (trim src).

(** [names], [params] and [src] of a turn of the loop: the free
    parameters, each bound to 1 unless the line sets it, and the
    normalized source. *)
Definition line_names (e : Expr.t) : list str := detectParams (Expr.src e).

Definition line_params (e : Expr.t) : gmap str num :=
  Expr.params e ∪ list_to_map (map (fun n => (n, ofZ 1)) (line_names e)).

Definition line_src (e : Expr.t) : str := normalize (Expr.src e).

(** A line as the editor creates it, with the given text. *)
Definition line (src : str) : Expr.t :=
  {| Expr.id := 1; Expr.src := src; Expr.color := js "#22c55e";
     Expr.visible := true; Expr.lineWidth := ofZ 2; Expr.params := ∅;
     Expr.domain :=
       Some {| Expr.use := false; Expr.min := ofZ (-10); Expr.max := ofZ 10 |};
     Expr.includeIntersect := true; Expr.error := [] |}.

Section Classifier.
Context {C : Compiler}.

(** [err?.message || "Parse error"]. *)
Definition err_message (m : str) : str :=
  if is_empty m then js "Parse error" else m.

(** [compileExpr] applied to a value that may be [undefined], on which
    the parser throws. *)
Definition compile_opt (o : option str) : result ast :=
  match o with
  | Some s => compileExpr s
  | None => Throw (js "undefined")
  end.

(** The bindings [{ ...params, ans }]. *)
Definition with_ans (params : gmap str num) (ans : num) : gmap str num :=
  <[js "ans" := ans]> params.

(** [(v) => a.evaluate({ ...params, ans, v })]. *)
Definition fn1 (v : str) (a : ast) (params : gmap str num) (ans : num)
  : num -> num :=
  fun x => nan_on_throw (evaluate a (<[v := x]> (with_ans params ans))).

(** [(x, y) => L.evaluate({ ...params, ans, x, y })
               - R.evaluate({ ...params, ans, x, y })]. *)
Definition diff2 (L R : ast) (params : gmap str num) (ans : num)
  : num -> num -> num :=
  fun x y =>
    let env := <[js "y" := y]> (<[js "x" := x]> (with_ans params ans)) in
    nan_on_throw (l ← evaluate L env; r ← evaluate R env; mret (Num.sub l r)).

(** [try { b = compileExpr(o).evaluate({ ...params, ans }) } catch { }]:
    the bound read from [o], or the current one when that throws. *)
Definition eval_bound (o : option str) (params : gmap str num) (ans : num)
           (current : num) : num :=
  match a ← compile_opt o; evaluate a (with_ans params ans) with
  | Ok v => v
  | Throw _ => current
  end.

(** One turn of the loop over the comma-separated parts. *)
Definition param_step (params : gmap str num) (ans : num)
           (st : ParamParts) (p : str) : ParamParts :=
  if startsWith p (js "x=") then
    {| xPart := Some (slice_from 2 p); yPart := yPart st;
       tmin := tmin st; tmax := tmax st |}
  else if startsWith p (js "y=") then
    {| xPart := xPart st; yPart := Some (slice_from 2 p);
       tmin := tmin st; tmax := tmax st |}
  else if Regex.test_t_range p then
    match indexOf p (js "["), indexOf p (js "]") with
    | Some lb, Some rb =>
        if (lb <? rb)%nat then
          let ab := split_comma_ws (slice (lb + 1) rb p) in
          let a := nth_error ab 0 in
          let b := nth_error ab 1 in
          let tmin' := eval_bound a params ans (tmin st) in
          let tmax' := eval_bound b params ans (tmax st) in
          {| xPart := xPart st; yPart := yPart st;
             tmin := tmin'; tmax := tmax' |}
        else st
    | _, _ => st
    end
  else st.

Definition param_parts (params : gmap str num) (ans : num) (s : str)
  : ParamParts :=
  fold_left (param_step params ans) (Guard.parts s)
    {| xPart := None; yPart := None;
       tmin := ofZ (-10); tmax := ofZ 10 |}.

Definition two_pi : num := Fin (884279719003555 # 140737488355328).

Section Line.
(** [ansF] is the register as the closures find it when they are
    called, after the whole sequence has been compiled: they capture
    the variable, not its value.  [ans] is the register when the
    line is reached. *)
Variables (ansF ans : num) (e : Expr.t).

Let names : list str := line_names e.
Let params : gmap str num := line_params e.
Let s : str := line_src e.

Definition out (p : Payload) (err : str) : Compiled.t :=
  {| Compiled.expr := e; Compiled.payload := p;
     Compiled.params := params; Compiled.paramNames := names;
     Compiled.error := err |}.

(** [y = ...]. *)
Definition explicit_y (g : str) : Compiled.t :=
  match compileExpr g with
  | Ok a => out (Explicit (Some (fn1 (js "x") a params ansF))) []
  | Throw m => out (Explicit None) (err_message m)
  end.

(** Polar [r = f(theta)], with the optional range clause. *)
Definition polar_line (g : str) : Compiled.t :=
  match compileExpr g with
  | Ok ar =>
      let '(thmin, thmax) :=
        match Regex.match_theta_range s with
        | Some (g1, g2) =>
            (eval_bound (Some g1) params ans zero,
             eval_bound (Some g2) params ans two_pi)
        | None => (zero, two_pi)
        end in
      out (Polar (Some (fn1 (js "theta") ar params ansF)) thmin thmax) []
  | Throw m => out (Polar None zero two_pi) (err_message m)
  end.

(** Parametric [x(t), y(t)]: [None] when the line leaves the branch
    without a result and goes on to the next one. *)
Definition parametric_line : option Compiled.t :=
  let st := param_parts params ans s in
  if truthy_str (xPart st) && truthy_str (yPart st) then
    match ax ← compile_opt (xPart st); ay ← compile_opt (yPart st);
          mret (ax, ay) with
    | Ok (ax, ay) =>
        Some (out (Parametric (Some (fn1 (js "t") ax params ansF))
                              (Some (fn1 (js "t") ay params ansF))
                              (tmin st) (tmax st)) [])
    | Throw m =>
        Some (out (Parametric None None (ofZ (-10)) (ofZ 10))
                  (err_message m))
    end
  else None.

(** Double inequality [A op1 B op2 C]. *)
Definition double_line (A o1 B o2 Cc : str) : Compiled.t :=
  match a ← compileExpr A; b ← compileExpr B; c ← compileExpr Cc;
        mret (a, b, c) with
  | Ok (a, b, c) =>
      out (DoubleIneq (Some (diff2 a b params ansF)) (norm o1)
                      (Some (diff2 b c params ansF)) (norm o2)) []
  | Throw m => out (DoubleIneq None Op.le None Op.le) (err_message m)
  end.

(** Single inequality. *)
Definition inequality_line (o : str) (i : nat) : Compiled.t :=
  match l ← compileExpr (slice 0 i s);
        r ← compileExpr (slice_from (i + length o) s);
        mret (l, r) with
  | Ok (l, r) => out (Inequality (Some (diff2 l r params ansF)) (norm o)) []
  | Throw m => out (Inequality None Op.le) (err_message m)
  end.

(** Implicit equality with [x] and [y] present. *)
Definition implicit_line : Compiled.t :=
  match split (ch "=") s with
  | [l; r] =>
      match l ← compileExpr l; r ← compileExpr r; mret (l, r) with
      | Ok (l, r) => out (Implicit (Some (diff2 l r params ansF))) []
      | Throw m => out (Implicit None) (err_message m)
      end
  | _ => out (Implicit None) (js "Only one '=' allowed")
  end.

(** The evaluation of a calculator line against the register. *)
Definition scalar_eval : result num :=
  a ← compileExpr s; evaluate a (with_ans params ans).

(** Calculator line: the value and the register after the line. *)
Definition scalar_line : Compiled.t * num :=
  match scalar_eval with
  | Ok value =>
      let finite := if Num.isFinite value then value else NaN in
      (out (Scalar finite) [],
       if Num.isFinite finite then finite else ans)
  | Throw m => (out (Scalar NaN) (err_message m), ans)
  end.

(** Explicit fallback. *)
Definition fallback_line : Compiled.t :=
  match compileExpr s with
  | Ok a => out (Explicit (Some (fn1 (js "x") a params ansF))) []
  | Throw m => out (Explicit None) (err_message m)
  end.

(** The branches after the parametric one. *)
Definition classify_rest : Compiled.t * num :=
  match Regex.match_double s with
  | Some (A, o1, B, o2, Cc) => (double_line A o1 B o2 Cc, ans)
  | None =>
      match find_cmp s with
      | Some (o, i) => (inequality_line o i, ans)
      | None =>
          if Guard.implicit s then (implicit_line, ans)
          else if Guard.scalar s then scalar_line
          else (fallback_line, ans)
      end
  end.

(** One turn of the loop of [compiled]: the compiled line and the
    register after it. *)
Definition classify_line : Compiled.t * num :=
  match Regex.match_y s with
  | Some g => (explicit_y g, ans)
  | None =>
      match (if Guard.hasTh s then Regex.match_r s else None) with
      | Some g => (polar_line g, ans)
      | None =>
          match (if Guard.parametric s then parametric_line else None) with
          | Some c => (c, ans)
          | None => classify_rest
          end
      end
  end.
End Line.

(** The loop over the expressions, threading the register. *)
Fixpoint compile_from (ansF ans : num) (es : list Expr.t)
  : list Compiled.t * num :=
  match es with
  | [] => ([], ans)
  | e :: es' =>
      let '(c, ans') := classify_line ansF ans e in
      let '(cs, last) := compile_from ansF ans' es' in
      (c :: cs, last)
  end.

(** The register once every line has been compiled.  No closure is
    called during the loop, so the value given for [ansF] is
    immaterial here. *)
Definition final_ans (es : list Expr.t) : num :=
  snd (compile_from zero zero es).

(** [compiled]: the register starts at 0; the closures see its last
    value. *)
Definition compiled (es : list Expr.t) : list Compiled.t :=
  fst (compile_from (final_ans es) zero es).

End Classifier.

(** The [x=] and [y=] parts of a parametric line, which do not depend
    on the compiler. *)
Definition xy_step (st : ParamParts) (p : str) : ParamParts :=
  if startsWith p (js "x=") then
    {| xPart := Some (slice_from 2 p); yPart := yPart st;
       tmin := tmin st; tmax := tmax st |}
  else if startsWith p (js "y=") then
    {| xPart := xPart st; yPart := Some (slice_from 2 p);
       tmin := tmin st; tmax := tmax st |}
  else st.

Definition xy_parts (s : str) : ParamParts :=
  fold_left xy_step (Guard.parts s)
    {| xPart := None; yPart := None; tmin := ofZ (-10); tmax := ofZ 10 |}.

(** The branch that decides the kind of a line, from its normalized
    source alone.  The parametric branch decides only when it finds
    both parts; otherwise the line goes on to the later branches. *)
Definition chosen (s : str) : Branch :=
  if bool_decide (is_Some (Regex.match_y s)) then BExplicitY
  else if Guard.hasTh s && bool_decide (is_Some (Regex.match_r s)) then BPolar
  else if Guard.parametric s && truthy_str (xPart (xy_parts s))
          && truthy_str (yPart (xy_parts s)) then BParametric
  else if bool_decide (is_Some (Regex.match_double s)) then BDouble
  else if bool_decide (is_Some (find_cmp s)) then BInequality
  else if Guard.implicit s then BImplicit
  else if Guard.scalar s then BScalar
  else BFallback.

(** ** A reference compiler

    Modelled from the spec: the parser and evaluator behind
    [compileExpr] belong to the package expr-eval, which is not part of
    the repository.  Section 4.1 of the specification describes it as a
    compiler of arithmetic expressions over a registry of constants and
    functions that fails on text that is not syntactically valid and
    never on a domain error.  The model covers the arithmetic fragment:
    decimal literals, identifiers, the operators [+ - * / % ^], unary
    sign, parentheses and function calls; text outside the fragment is
    refused.  The functions [compileExpr] itself registers are written
    out from the source; the functions of [Math] are a parameter. *)
Module ExprEval.

Inductive token : Type :=
| TNum (q : Q)
| TName (s : str)
| TOp (c : N)
| TLParen
| TRParen
| TComma.

Inductive binop : Type := Add | Sub | Mul | Div | Mod | Pow.

Inductive expr : Type :=
| Lit (v : num)
| Var (name : str)
| Neg (a : expr)
| Bin (op : binop) (l r : expr)
| Call (f : str) (args : list expr).

(** *** Tokens *)

Definition digit_val (c : N) : Z := Z.of_N (c - 48).

Definition digits_val (ds : str) : Z :=
  fold_left (fun acc c => (10 * acc + digit_val c)%Z) ds 0%Z.

(** A decimal literal at the head of [s]: its value and the rest. *)
Definition lex_number (s : str) : option (Q * str) :=
  let ip := take_while is_digit s in
  let r := drop_while is_digit s in
  match r with
  | c :: r' =>
      if (c =? ch ".")%N then
        let fp := take_while is_digit r' in
        if is_empty ip && is_empty fp then None
        else
          Some (Qred (inject_Z (digits_val (ip ++ fp)) /
                      inject_Z (10 ^ Z.of_nat (length fp))),
                drop_while is_digit r')
      else if is_empty ip then None
      else Some (inject_Z (digits_val ip), r)
  | [] => if is_empty ip then None else Some (inject_Z (digits_val ip), r)
  end.

Definition is_name_start (c : N) : bool :=
  is_alpha c || (c =? ch "_")%N || (c =? ch "$")%N.
Definition is_name_char (c : N) : bool :=
  is_word c || (c =? ch "$")%N.

Definition is_operator (c : N) : bool :=
  existsb (N.eqb c) [ch "+"; ch "-"; ch "*"; ch "/"; ch "%"; ch "^"].

Fixpoint tokenize (fuel : nat) (s : str) : result (list token) :=
  match fuel with
  | O => Throw (js "parse error")
  | S fuel' =>
      match s with
      | [] => Ok []
      | c :: s' =>
          if is_ws c then tokenize fuel' s'
          else if is_digit c || (c =? ch ".")%N then
            match lex_number s with
            | Some (q, rest) =>
                ts ← tokenize fuel' rest; mret (TNum q :: ts)
            | None => Throw (js "parse error: unknown character")
            end
          else if is_operator c then
            ts ← tokenize fuel' s'; mret (TOp c :: ts)
          else if (c =? ch "(")%N then
            ts ← tokenize fuel' s'; mret (TLParen :: ts)
          else if (c =? ch ")")%N then
            ts ← tokenize fuel' s'; mret (TRParen :: ts)
          else if (c =? ch ",")%N then
            ts ← tokenize fuel' s'; mret (TComma :: ts)
          else if is_name_start c then
            ts ← tokenize fuel' (drop_while is_name_char s');
            mret (TName (c :: take_while is_name_char s') :: ts)
          else Throw (js "parse error: unknown character")
      end
  end.

(** *** Constants

    [Math.PI], [Math.E] and the golden ratio, each the exact value of
    its double; [tau] is [2 * Math.PI]. *)
Definition PI : Q := 884279719003555 # 281474976710656.
Definition E : Q := 6121026514868073 # 2251799813685248.
Definition PHI : Q := 910872158600853 # 562949953421312.

Definition consts : list (str * Q) :=
  [(js "pi", PI); (js "e", E); (js "tau", Qred (2 * PI)); (js "phi", PHI)].

Definition lookup_const (name : str) : option Q :=
  option_map snd (find (fun kv => Str.eqb name (fst kv)) consts).

(** *** Grammar

    expression: term, then [+] or [-] and a term, repeatedly;
    term: factor, then [*], [/] or [%] and a factor, repeatedly;
    factor: a signed factor, or a power;
    power: atom, then [^] and a factor (so [^] associates to the right
    and binds tighter than a sign on its left);
    atom: literal, constant, variable, call, or parenthesised
    expression. *)
Definition parser (A : Type) : Type := list token -> result (A * list token).

Definition sum_op (c : N) : option binop :=
  if (c =? ch "+")%N then Some Add
  else if (c =? ch "-")%N then Some Sub else None.

Definition prod_op (c : N) : option binop :=
  if (c =? ch "*")%N then Some Mul
  else if (c =? ch "/")%N then Some Div
  else if (c =? ch "%")%N then Some Mod else None.

Fixpoint parse_expression (fuel : nat) : parser expr :=
  fun ts =>
    match fuel with
    | O => Throw (js "parse error")
    | S n => '(l, ts1) ← parse_term n ts; parse_sum n l ts1
    end
with parse_sum (fuel : nat) (l : expr) : parser expr :=
  fun ts =>
    match fuel with
    | O => Throw (js "parse error")
    | S n =>
        match ts with
        | TOp c :: ts' =>
            match sum_op c with
            | Some op =>
                '(r, ts2) ← parse_term n ts'; parse_sum n (Bin op l r) ts2
            | None => Ok (l, ts)
            end
        | _ => Ok (l, ts)
        end
    end
with parse_term (fuel : nat) : parser expr :=
  fun ts =>
    match fuel with
    | O => Throw (js "parse error")
    | S n => '(l, ts1) ← parse_factor n ts; parse_product n l ts1
    end
with parse_product (fuel : nat) (l : expr) : parser expr :=
  fun ts =>
    match fuel with
    | O => Throw (js "parse error")
    | S n =>
        match ts with
        | TOp c :: ts' =>
            match prod_op c with
            | Some op =>
                '(r, ts2) ← parse_factor n ts';
                parse_product n (Bin op l r) ts2
            | None => Ok (l, ts)
            end
        | _ => Ok (l, ts)
        end
    end
with parse_factor (fuel : nat) : parser expr :=
  fun ts =>
    match fuel with
    | O => Throw (js "parse error")
    | S n =>
        match ts with
        | TOp c :: ts' =>
            if (c =? ch "-")%N then
              '(a, ts1) ← parse_factor n ts'; mret (Neg a, ts1)
            else if (c =? ch "+")%N then parse_factor n ts'
            else Throw (js "unexpected operator")
        | _ =>
            '(a, ts1) ← parse_atom n ts;
            match ts1 with
            | TOp c :: ts2 =>
                if (c =? ch "^")%N then
                  '(b, ts3) ← parse_factor n ts2; mret (Bin Pow a b, ts3)
                else Ok (a, ts1)
            | _ => Ok (a, ts1)
            end
        end
    end
with parse_atom (fuel : nat) : parser expr :=
  fun ts =>
    match fuel with
    | O => Throw (js "parse error")
    | S n =>
        match ts with
        | TNum q :: ts' => Ok (Lit (Fin q), ts')
        | TName f :: TLParen :: TRParen :: ts' => Ok (Call f [], ts')
        | TName f :: TLParen :: ts' =>
            '(args, ts1) ← parse_arguments n ts'; mret (Call f args, ts1)
        | TName v :: ts' =>
            match lookup_const v with
            | Some q => Ok (Lit (Fin q), ts')
            | None => Ok (Var v, ts')
            end
        | TLParen :: ts' =>
            '(a, ts1) ← parse_expression n ts';
            match ts1 with
            | TRParen :: ts2 => Ok (a, ts2)
            | _ => Throw (js "expected )")
            end
        | [] => Throw (js "unexpected TEOF: EOF")
        | _ => Throw (js "unexpected token")
        end
    end
with parse_arguments (fuel : nat) : parser (list expr) :=
  fun ts =>
    match fuel with
    | O => Throw (js "parse error")
    | S n =>
        '(a, ts1) ← parse_expression n ts;
        match ts1 with
        | TComma :: ts2 =>
            '(rest, ts3) ← parse_arguments n ts2; mret (a :: rest, ts3)
        | TRParen :: ts2 => Ok ([a], ts2)
        | _ => Throw (js "expected )")
        end
    end.

(** [parser.parse(src)]: the whole text must be one expression. *)
Definition parse (src : str) : result expr :=
  ts ← tokenize (S (length src)) src;
  '(a, rest) ← parse_expression (8 * S (length ts)) ts;
  match rest with
  | [] => Ok a
  | _ => Throw (js "parse error: expected EOF")
  end.

(** *** Evaluation *)

(** [Math.floor], [Math.trunc] and [Math.sign]. *)
Definition floor (v : num) : num :=
  match v with Fin q => Fin (inject_Z (Qfloor q)) | _ => v end.

Definition trunc (v : num) : num :=
  match v with
  | Fin q => Fin (inject_Z (if Qle_bool 0 q then Qfloor q else Qceiling q))
  | _ => v
  end.

Definition sign (v : num) : num :=
  match v with
  | Fin q => match Num.sgn q with Eq => Fin 0 | Gt => Fin 1 | Lt => Fin (-1) end
  | PInf => Fin 1
  | NInf => Fin (-1)
  | NaN => NaN
  end.

(** The remainder operator, of the sign of the dividend. *)
Definition rem (a b : num) : num :=
  match a, b with
  | Fin x, Fin y =>
      if Qeq_bool y 0 then NaN
      else Num.sub a (Num.mul b (trunc (Num.div a b)))
  | Fin x, (PInf | NInf) => a
  | _, _ => NaN
  end.

(** The functions [compileExpr] registers, after the source. *)
Definition clamp (x a b : num) : num :=
  Num.min (Num.max x (Num.min a b)) (Num.max a b).

Definition lerp (a b t : num) : num :=
  Num.add a (Num.mul (Num.sub b a) t).

Definition heaviside (x : num) : num :=
  if Num.gtb x zero then Fin 1
  else if Num.ltb x zero then Fin 0 else Fin (1 # 2).

Definition factorial (n : num) : num :=
  match n with
  | Fin q =>
      if Qle_bool 0 q && Qeq_bool (inject_Z (Qfloor q)) q
      then Fin (inject_Z (Z.of_nat (fact (Z.to_nat (Qfloor q)))))
      else NaN
  | _ => NaN
  end.

Definition nCr (n r : num) : num :=
  Num.div (factorial n) (Num.mul (factorial r) (factorial (Num.sub n r))).

Definition nPr (n r : num) : num :=
  Num.div (factorial n) (factorial (Num.sub n r)).

Fixpoint piecewise_from (args : list num) : num :=
  match args with
  | c :: v :: rest =>
      if Num.truthy c then v
      else match rest with [] => v | _ => piecewise_from rest end
  | [d] => d
  | [] => NaN
  end.

Definition piecewise (args : list num) : num :=
  if (length args <? 3)%nat then NaN else piecewise_from args.

(** The functions of the parser and of [Math] that the model leaves
    to the parameter. *)
Definition math_names : list str :=
  map js
    ["sin"; "cos"; "tan"; "asin"; "acos"; "atan"; "atan2"; "sinh"; "cosh";
     "tanh"; "asinh"; "acosh"; "atanh"; "sqrt"; "cbrt"; "log"; "ln";
     "log10"; "log2"; "logb"; "exp"; "abs"; "ceil"; "round"; "min"; "max";
     "pow"; "random"; "sech"; "csch"; "coth"; "rad"; "deg"; "sind"; "cosd";
     "tand"; "asind"; "acosd"; "atand"]%string.

Section Eval.
(** [Math.f(args)], for the functions this file does not compute. *)
Variable math : str -> list num -> num.

Definition recip (f : str) (x : num) : num :=
  Num.div (Fin 1) (math f [x]).

Definition apply (f : str) (args : list num) : result num :=
  let arg i := nth i args NaN in
  if Str.eqb f (js "sec") then Ok (recip (js "cos") (arg 0%nat))
  else if Str.eqb f (js "csc") then Ok (recip (js "sin") (arg 0%nat))
  else if Str.eqb f (js "cot") then Ok (recip (js "tan") (arg 0%nat))
  else if Str.eqb f (js "floor") then Ok (floor (arg 0%nat))
  else if Str.eqb f (js "trunc") then Ok (trunc (arg 0%nat))
  else if Str.eqb f (js "sign") || Str.eqb f (js "sgn")
  then Ok (sign (arg 0%nat))
  else if Str.eqb f (js "clamp")
  then Ok (clamp (arg 0%nat) (arg 1%nat) (arg 2%nat))
  else if Str.eqb f (js "lerp")
  then Ok (lerp (arg 0%nat) (arg 1%nat) (arg 2%nat))
  else if Str.eqb f (js "heaviside") || Str.eqb f (js "step")
  then Ok (heaviside (arg 0%nat))
  else if Str.eqb f (js "fact") || Str.eqb f (js "factorial")
  then Ok (factorial (arg 0%nat))
  else if Str.eqb f (js "nCr") then Ok (nCr (arg 0%nat) (arg 1%nat))
  else if Str.eqb f (js "nPr") then Ok (nPr (arg 0%nat) (arg 1%nat))
  else if Str.eqb f (js "piecewise") then Ok (piecewise args)
  else if mem f math_names then Ok (math f args)
  else Throw (f ++ js " is not a function").

(** [x ^ y]: exact for a whole exponent, [Math.pow] otherwise. *)
Definition power (a b : num) : num :=
  match a, b with
  | Fin x, Fin y =>
      if Qeq_bool (inject_Z (Qfloor y)) y then
        if Qeq_bool x 0 && Qle_bool y 0 && negb (Qeq_bool y 0) then PInf
        else Fin (Qred (Qpower x (Qfloor y)))
      else math (js "pow") [a; b]
  | _, _ => math (js "pow") [a; b]
  end.

Definition binary (op : binop) (a b : num) : num :=
  match op with
  | Add => Num.add a b
  | Sub => Num.sub a b
  | Mul => Num.mul a b
  | Div => Num.div a b
  | Mod => rem a b
  | Pow => power a b
  end.

Fixpoint eval (a : expr) (env : gmap str num) : result num :=
  match a with
  | Lit v => Ok v
  | Var x =>
      match env !! x with
      | Some v => Ok v
      | None => Throw (js "undefined variable: " ++ x)
      end
  | Neg a => v ← eval a env; mret (Num.neg v)
  | Bin op l r =>
      x ← eval l env; y ← eval r env; mret (binary op x y)
  | Call f args =>
      vs ← (fix eval_args (l : list expr) : result (list num) :=
              match l with
              | [] => Ok []
              | a :: l' =>
                  v ← eval a env; vs ← eval_args l'; mret (v :: vs)
              end) args;
      apply f vs
  end.

#[local] Instance compiler : Compiler :=
  {| ast := expr; compileExpr := parse; evaluate := eval |}.
End Eval.

(** The functions of [Math] left undetermined: every call is NaN. *)
Definition no_math : str -> list num -> num := fun _ _ => NaN.

End ExprEval.

(** ** Coordinate transform *)

Record Transform : Type := {
  xScale : num;
  yScale : num;
  xToPx : num -> num;
  yToPx : num -> num;
  pxToX : num -> num;
  pxToY : num -> num
}.

Definition makeTransform (xMin xMax yMin yMax width height : num) : Transform :=
  let xScale := Num.div width (Num.sub xMax xMin) in
  let yScale := Num.div height (Num.sub yMax yMin) in
  {| xScale := xScale;
     yScale := yScale;
     xToPx := fun x => Num.mul (Num.sub x xMin) xScale;
     yToPx := fun y => Num.sub height (Num.mul (Num.sub y yMin) yScale);
     pxToX := fun px => Num.add (Num.div px xScale) xMin;
     pxToY := fun py => Num.add (Num.div (Num.sub height py) yScale) yMin |}.

(** ** Grid step *)

Module MathFn.

(** The number of times [d] can be multiplied by ten without
    exceeding [n]. *)
Fixpoint count_up (fuel : nat) (n d : Z) : Z :=
  match fuel with
  | O => 0
  | S f => if (10 * d <=? n)%Z then 1 + count_up f n (10 * d) else 0
  end.

(** The number of times [n] must be multiplied by ten to reach [d]. *)
Fixpoint count_down (fuel : nat) (n d : Z) : Z :=
  match fuel with
  | O => 1
  | S f => if (d <=? 10 * n)%Z then 1 else 1 + count_down f (10 * n) d
  end.

(** [Math.floor(Math.log10(q))] for a positive rational [q]: the
    whole number [k] with [10^k <= q < 10^(k+1)]. *)
Definition floor_log10_pos (q : Q) : Z :=
  let n := Qnum q in
  let d := Zpos (Qden q) in
  if (d <=? n)%Z then count_up (S (Z.to_nat (Z.log2 n))) n d
  else (- count_down (Z.to_nat (Z.log2 d)) n d)%Z.

(** [Math.floor(Math.log10(v))]. *)
Definition floor_log10 (v : num) : num :=
  match v with
  | Fin q =>
      match Num.sgn q with
      | Gt => ofZ (floor_log10_pos q)
      | Eq => NInf
      | Lt => NaN
      end
  | PInf => PInf
  | _ => NaN
  end.

(** [Math.pow(10, k)] for a whole or infinite exponent. *)
Definition pow10 (k : num) : num :=
  match k with
  | Fin e => Fin (Qred (Qpower 10 (Qfloor e)))
  | PInf => PInf
  | NInf => Fin 0
  | NaN => NaN
  end.

(** [Math.round]: the nearest whole number, halves upwards. *)
Definition round (v : num) : num :=
  match v with
  | Fin q => Fin (inject_Z (Qfloor (q + (1 # 2))))
  | _ => v
  end.

End MathFn.

(** The literal [1e-12]. *)
Definition tiny : Q := 1 # 1000000000000.

Definition niceStep (range : num) : num :=
  let rough := Num.div range (Fin 10) in
  let p := MathFn.pow10 (MathFn.floor_log10 (Num.max rough (Fin tiny))) in
  let r := Num.div rough p in
  if Num.geb r (Fin 5) then Num.mul (Fin 5) p
  else if Num.geb r (Fin 2) then Num.mul (Fin 2) p
  else Num.mul (Fin 1) p.

(** ** Numeric helpers of the analysis *)

Definition midpoint (lo hi : num) : num := Num.mul (Fin (1 # 2)) (Num.add lo hi).

(** The loop of [bisectRoot]; [None] is [null]. *)
Fixpoint bisect_loop (f : num -> num) (iters : nat) (lo hi flo fhi : num)
  : option num :=
  match iters with
  | O => Some (midpoint lo hi)
  | S n =>
      let mid := midpoint lo hi in
      let fm := f mid in
      if negb (Num.isFinite fm) then None
      else if Num.eqb flo zero then Some lo
      else if Num.eqb fhi zero then Some hi
      else if Num.eqb fm zero then Some mid
      else if Num.ltb (Num.mul flo fm) zero then bisect_loop f n lo mid flo fm
      else bisect_loop f n mid hi fm fhi
  end.

(** An endpoint value, evaluated when the caller did not give a finite one. *)
Definition fill (f : num -> num) (a ya : num) : num :=
  if Num.isFinite ya then ya else f a.

Definition bisectRoot_iters (f : num -> num) (a b ya yb : num) (iters : nat)
  : option num :=
  let ya := fill f a ya in
  let yb := fill f b yb in
  if negb (Num.isFinite ya) || negb (Num.isFinite yb)
     || Num.gtb (Num.mul ya yb) zero
  then None
  else bisect_loop f iters a b ya yb.

Definition bisectRoot (f : num -> num) (a b ya yb : num) : option num :=
  bisectRoot_iters f a b ya yb 32.


Inductive Mode : Type := mode_min | mode_max.

(** [(Math.sqrt(5) - 1) / 2], the exact value of the double. *)
Definition golden_phi : num := Fin (347922205179541 # 562949953421312).

Fixpoint golden_loop (g : num -> num) (iters : nat) (a b c d fc fd : num)
  : num * num :=
  match iters with
  | O => (a, b)
  | S n =>
      if Num.gtb fc fd then
        let a := c in
        let c := d in
        let fc := fd in
        let d := Num.add a (Num.mul golden_phi (Num.sub b a)) in
        golden_loop g n a b c d fc (g d)
      else
        let b := d in
        let d := c in
        let fd := fc in
        let c := Num.sub b (Num.mul golden_phi (Num.sub b a)) in
        golden_loop g n a b c d (g c) fd
  end.

Definition goldenExtremum (f : num -> num) (a b : num) (mode : Mode)
  : option (num * num) :=
  let g := match mode with mode_max => fun x => Num.neg (f x) | mode_min => f end in
  let c := Num.sub b (Num.mul golden_phi (Num.sub b a)) in
  let d := Num.add a (Num.mul golden_phi (Num.sub b a)) in
  let '(a, b) := golden_loop g 48 a b c d (g c) (g d) in
  let x := midpoint a b in
  let y := f x in
  if Num.isFinite y then Some (x, y) else None.

(** ** Viewport *)

Record View : Type := { xMin : num; xMax : num; yMin : num; yMax : num }.

(** The visible explicit lines that compiled without error, as both
    [analysis] and [fitToData] select them. *)
Definition usable (c : Compiled.t) : bool :=
  Expr.visible (Compiled.expr c)
  && match Compiled.kind c with explicit => true | _ => false end
  && bool_decide (is_Some (Compiled.fn c))
  && is_empty (Compiled.error c).

(** ** Fit to data *)









(** ** Analysis *)

Module Analysis.

(** A whole number as a template literal prints it; two keys are the
    same string exactly when their components agree. *)
Inductive printed : Type :=
| PInt (z : Z)
| PInfinity
| PNegInfinity
| PNaN.

#[global] Instance printed_eq_dec : EqDecision printed.
Proof. solve_decision. Defined.

#[global] Instance printed_countable : Countable printed.
Proof.
  refine (inj_countable'
            (fun p => match p with
                      | PInt z => inl z
                      | PInfinity => inr 0%nat
                      | PNegInfinity => inr 1%nat
                      | PNaN => inr 2%nat
                      end)
            (fun s => match s with
                      | inl z => PInt z
                      | inr 0%nat => PInfinity
                      | inr 1%nat => PNegInfinity
                      | inr _ => PNaN
                      end) _).
  intros []; reflexivity.
Defined.

Definition print_rounded (v : num) : printed :=
  match MathFn.round v with
  | Fin q => PInt (Qfloor q)
  | PInf => PInfinity
  | NInf => PNegInfinity
  | NaN => PNaN
  end.

Definition key : Type := printed * printed.

Definition million : num := Fin 1000000.

(** [mapKey]: both coordinates rounded at six decimals. *)
Definition mapKey (x y : num) : key :=
  (print_rounded (Num.mul x million), print_rounded (Num.mul y million)).

Inductive PType : Type := x_int | y_int | ext_max | ext_min | intersect.

Record Point : Type := {
  type : PType;
  x : num;
  y : num;
  color : str;
  exprId : Z;
  exprId2 : option Z
}.

Definition key_of (p : Point) : key := mapKey (x p) (y p).

Inductive Category : Type := CXInt | CYInt | CExtrema | CIntersect.

(** The result under construction, with the set of keys seen. *)
Record State : Type := {
  seen : gset key;
  xIntercepts : list Point;
  yIntercepts : list Point;
  extrema : list Point;
  intersections : list Point
}.

Definition empty : State :=
  {| seen := ∅; xIntercepts := []; yIntercepts := []; extrema := [];
     intersections := [] |}.

(** [result.<category>.push(p)]. *)
Definition push (cat : Category) (p : Point) (st : State) : State :=
  match cat with
  | CXInt =>
      {| seen := seen st; xIntercepts := xIntercepts st ++ [p];
         yIntercepts := yIntercepts st; extrema := extrema st;
         intersections := intersections st |}
  | CYInt =>
      {| seen := seen st; xIntercepts := xIntercepts st;
         yIntercepts := yIntercepts st ++ [p]; extrema := extrema st;
         intersections := intersections st |}
  | CExtrema =>
      {| seen := seen st; xIntercepts := xIntercepts st;
         yIntercepts := yIntercepts st; extrema := extrema st ++ [p];
         intersections := intersections st |}
  | CIntersect =>
      {| seen := seen st; xIntercepts := xIntercepts st;
         yIntercepts := yIntercepts st; extrema := extrema st;
         intersections := intersections st ++ [p] |}
  end.

Definition add_seen (k : key) (st : State) : State :=
  {| seen := {[k]} ∪ seen st; xIntercepts := xIntercepts st;
     yIntercepts := yIntercepts st; extrema := extrema st;
     intersections := intersections st |}.

(** [if (!seen.has(key)) { seen.add(key); result.<category>.push(p); }]. *)
Definition push_new (cat : Category) (k : key) (p : Point) (st : State)
  : State :=
  if decide (k ∈ seen st) then st else push cat p (add_seen k st).

(** The aggregate for drawing. *)
Definition allPoints (st : State) : list Point :=
  xIntercepts st ++ yIntercepts st ++ extrema st ++ intersections st.

(** The fields of a usable explicit line that the analysis reads. *)
Record Curve : Type := {
  id : Z;
  fn : num -> num;
  ccolor : str;
  domain : option Expr.Domain;
  includeIntersect : bool
}.

Definition curve_of (c : Compiled.t) : option Curve :=
  if usable c then
    match Compiled.fn c with
    | Some f =>
        Some {| id := Expr.id (Compiled.expr c); fn := f;
                ccolor := Expr.color (Compiled.expr c);
                domain := Expr.domain (Compiled.expr c);
                includeIntersect :=
                  Expr.includeIntersect (Compiled.expr c) |}
    | None => None
    end
  else None.

Definition finite_or_nan (v : num) : num :=
  if Num.isFinite v then v else NaN.

(** [e.domain?.use]. *)
Definition restricted (e : Curve) : option Expr.Domain :=
  match domain e with
  | Some d => if Expr.use d then Some d else None
  | None => None
  end.

Section Frame.
Variables (view : View) (N : nat).

(** The shared sampling grid. *)
Definition grid : list num :=
  map (fun i =>
         Num.add (xMin view)
           (Num.mul (Num.div (ofZ (Z.of_nat i)) (ofZ (Z.of_nat N)))
                    (Num.sub (xMax view) (xMin view))))
      (seq 0 (S N)).

(** The samples of one curve: NaN outside its domain. *)
Definition samples (e : Curve) : list num * list num :=
  let xmin := match restricted e with
              | Some d => Num.max (xMin view) (Expr.min d)
              | None => xMin view
              end in
  let xmax := match restricted e with
              | Some d => Num.min (xMax view) (Expr.max d)
              | None => xMax view
              end in
  (grid,
   map (fun x => if Num.ltb x xmin || Num.gtb x xmax then NaN
                 else finite_or_nan (fn e x))
       grid).

Definition samplesById (explicits : list Curve)
  : gmap Z (list num * list num) :=
  fold_left (fun m e => <[id e := samples e]> m) explicits ∅.

(** The pairs [(l[i-1], l[i])]. *)
Definition adjacent {A : Type} (l : list A) : list (A * A) :=
  zip l (tail l).

(** x-intercepts of one curve. *)
Definition x_intercept_step (e : Curve) (st : State)
           (w : (num * num) * (num * num)) : State :=
  let '((a, y0), (b, y1)) := w in
  if negb (Num.isFinite y0) || negb (Num.isFinite y1) then st
  else if Num.eqb y0 zero || Num.eqb y1 zero
          || Num.ltb (Num.mul y0 y1) zero then
    match bisectRoot (fn e) a b y0 y1 with
    | Some xr =>
        push_new CXInt (mapKey xr zero)
          {| type := x_int; x := xr; y := zero; color := ccolor e;
             exprId := id e; exprId2 := None |} st
    | None => st
    end
  else st.

(** The y-intercept of one curve. *)
Definition y_intercept (e : Curve) (st : State) : State :=
  if Num.leb (xMin view) zero && Num.geb (xMax view) zero then
    let inDomain :=
      match restricted e with
      | Some d => Num.geb zero (Expr.min d) && Num.leb zero (Expr.max d)
      | None => true
      end in
    if inDomain then
      let y := fn e zero in
      if Num.isFinite y then
        push_new CYInt (mapKey zero y)
          {| type := y_int; x := zero; y := y; color := ccolor e;
             exprId := id e; exprId2 := None |} st
      else st
    else st
  else st.

(** Extrema of one curve, from three consecutive samples. *)
Definition extremum_step (e : Curve) (st : State)
           (w : ((num * num) * (num * num)) * (num * num)) : State :=
  let '(((a, y0), (_, y1)), (b, y2)) := w in
  if negb (Num.isFinite y0) || negb (Num.isFinite y1)
     || negb (Num.isFinite y2) then st
  else if Num.gtb y1 y0 && Num.gtb y1 y2 then
    match goldenExtremum (fn e) a b mode_max with
    | Some (px, py) =>
        push_new CExtrema (mapKey px py)
          {| type := ext_max; x := px; y := py; color := ccolor e;
             exprId := id e; exprId2 := None |} st
    | None => st
    end
  else if Num.ltb y1 y0 && Num.ltb y1 y2 then
    match goldenExtremum (fn e) a b mode_min with
    | Some (px, py) =>
        push_new CExtrema (mapKey px py)
          {| type := ext_min; x := px; y := py; color := ccolor e;
             exprId := id e; exprId2 := None |} st
    | None => st
    end
  else st.

(** The three passes over one curve. *)
Definition per_curve (byId : gmap Z (list num * list num))
           (st : State) (e : Curve) : State :=
  let '(xs, ys) := default ([], []) (byId !! id e) in
  let pts := zip xs ys in
  let st := fold_left (x_intercept_step e) (adjacent pts) st in
  let st := y_intercept e st in
  fold_left (extremum_step e) (zip (adjacent pts) (tail (tail pts))) st.

(** Intersections of two curves. *)
Definition intersect_step (A B : Curve) (st : State) (w : num * num)
  : State :=
  let '(a, b) := w in
  let f := fun x => finite_or_nan (Num.sub (fn A x) (fn B x)) in
  let ya := f a in
  let yb := f b in
  if negb (Num.isFinite ya) || negb (Num.isFinite yb)
     || Num.gtb (Num.mul ya yb) zero then st
  else
    match bisectRoot f a b ya yb with
    | Some x0 =>
        let y0 := fn A x0 in
        if Num.isFinite y0 then
          push_new CIntersect (mapKey x0 y0)
            {| type := intersect; x := x0; y := y0; color := ccolor A;
               exprId := id A; exprId2 := Some (id B) |} st
        else st
    | None => st
    end.

(** The pairs [(l[i], l[j])] with [i < j], in the order of the two
    loops. *)
Fixpoint ordered_pairs {A : Type} (l : list A) : list (A * A) :=
  match l with
  | [] => []
  | a :: l' => map (fun b => (a, b)) l' ++ ordered_pairs l'
  end.

Definition run (explicits : list Curve) : State :=
  let byId := samplesById explicits in
  let st := fold_left (per_curve byId) explicits empty in
  let interCurves := filter (fun e => includeIntersect e) explicits in
  fold_left
    (fun st AB => fold_left (intersect_step (fst AB) (snd AB))
                            (adjacent grid) st)
    (ordered_pairs interCurves) st.
End Frame.

(** [Math.max(400, Math.round(width / pxStep * 1.5))], when it is a
    length an array can have. *)
Definition sample_count (width pxStep : num) : option nat :=
  match Num.max (ofZ 400)
          (MathFn.round (Num.mul (Num.div width pxStep) (Fin (3 # 2)))) with
  | Fin q => Some (Z.to_nat (Qfloor q))
  | _ => None
  end.

(** [analysis]: the result, or the exception of [new Array] for a
    length that is not finite. *)
Definition analysis (compiled : list Compiled.t) (view : View)
           (width pxStep : num) : result State :=
  match omap curve_of compiled with
  | [] => Ok empty
  | explicits =>
      match sample_count width pxStep with
      | Some N => Ok (run view N explicits)
      | None => Throw (js "Invalid array length")
      end
  end.

(** The keys seen are the keys of the points kept, each kept once. *)
Definition deduplicated (st : State) : Prop :=
  NoDup (map key_of (allPoints st)) /\
  forall k, k ∈ seen st <-> k ∈ map key_of (allPoints st).

(** Nothing kept is lost: every list of [st] begins the list of [st']. *)
Definition extends (st st' : State) : Prop :=
  (exists l, xIntercepts st' = xIntercepts st ++ l) /\
  (exists l, yIntercepts st' = yIntercepts st ++ l) /\
  (exists l, extrema st' = extrema st ++ l) /\
  (exists l, intersections st' = intersections st ++ l).

(** A step of the analysis keeps the invariant and loses nothing. *)
Definition sound (step : State -> State) : Prop :=
  forall st,
    (deduplicated st -> deduplicated (step st)) /\ extends st (step st).

End Analysis.

(** ** Vocabulary of the properties *)




(** The grid steps [m * 10^k] and, for [m] among 1, 2 and 5, the next
    larger one. *)
Definition candidate (m k : Z) : Q := inject_Z m * Qpower 10 k.

Definition next_candidate (m k : Z) : Q :=
  if (m =? 1)%Z then candidate 2 k
  else if (m =? 2)%Z then candidate 5 k
  else candidate 1 (k + 1).

(** The step chosen for the range [r] is the largest candidate that
    does not exceed a tenth of the range. *)
Definition largest_step_below_tenth (r : Q) : Prop :=
  exists m k : Z,
    (m = 1 \/ m = 2 \/ m = 5)%Z /\
    niceStep (Fin r) ≃ Fin (candidate m k) /\
    candidate m k <= r / 10 /\ r / 10 < next_candidate m k.





(** The parametric example of the specification. *)
Definition range_example : str := js "x=cos(t), y=sin(t), t=[0,2*pi]".

(** The first character of an identifier. *)
Definition ident_start (c : N) : bool := is_alpha c || (c =? ch "_")%N.

(** A payload with every function of its kind; a calculator value that
    is a finite number or NaN. *)
Definition full_payload (p : Payload) : bool :=
  match p with
  | Explicit f => bool_decide (is_Some f)
  | Polar f _ _ => bool_decide (is_Some f)
  | Parametric f g _ _ => bool_decide (is_Some f) && bool_decide (is_Some g)
  | DoubleIneq f _ g _ => bool_decide (is_Some f) && bool_decide (is_Some g)
  | Inequality f _ => bool_decide (is_Some f)
  | Implicit f => bool_decide (is_Some f)
  | Scalar v => match v with PInf | NInf => false | _ => true end
  end.

(** The payload of a line that failed: no function, the ranges and the
    operators as the [catch] clauses write them, the value NaN. *)
Definition blank_payload (p : Payload) : Prop :=
  match p with
  | Explicit f => f = None
  | Polar f a b => f = None /\ a = zero /\ b = two_pi
  | Parametric f g a b =>
      f = None /\ g = None /\ a = ofZ (-10) /\ b = ofZ 10
  | DoubleIneq f o1 g o2 => f = None /\ g = None /\ o1 = Op.le /\ o2 = Op.le
  | Inequality f o => f = None /\ o = Op.le
  | Implicit f => f = None
  | Scalar v => v = NaN
  end.

(** ** Moving the viewport *)

(** The updater [zoomAround] hands to [setView]. *)
Definition zoomAround (x y zoom : num) (v : View) : View :=
  let newW := Num.mul (Num.sub (xMax v) (xMin v)) zoom in
  let newH := Num.mul (Num.sub (yMax v) (yMin v)) zoom in
  {| xMin := Num.sub x (Num.mul (Num.sub x (xMin v))
                                (Num.div newW (Num.sub (xMax v) (xMin v))));
     xMax := Num.add x (Num.mul (Num.sub (xMax v) x)
                                (Num.div newW (Num.sub (xMax v) (xMin v))));
     yMin := Num.sub y (Num.mul (Num.sub y (yMin v))
                                (Num.div newH (Num.sub (yMax v) (yMin v))));
     yMax := Num.add y (Num.mul (Num.sub (yMax v) y)
                                (Num.div newH (Num.sub (yMax v) (yMin v)))) |}.

(** [zoomCenter]: the centre is read from the view of the render,
    the updater runs on the state. *)
Definition zoomCenter (f : num) (view v : View) : View :=
  let cx := Num.div (Num.add (xMin view) (xMax view)) (ofZ 2) in
  let cy := Num.div (Num.add (yMin view) (yMax view)) (ofZ 2) in
  zoomAround cx cy f v.

(** The updater of [centerOn]. *)
Definition centerOn (x y : num) (v : View) : View :=
  let w := Num.sub (xMax v) (xMin v) in
  let h := Num.sub (yMax v) (yMin v) in
  {| xMin := Num.sub x (Num.div w (ofZ 2));
     xMax := Num.add x (Num.div w (ofZ 2));
     yMin := Num.sub y (Num.div h (ofZ 2));
     yMax := Num.add y (Num.div h (ofZ 2)) |}.

Definition resetView : View :=
  {| xMin := ofZ (-10); xMax := ofZ 10; yMin := ofZ (-6); yMax := ofZ 6 |}.

(** The transform of a view on a canvas of the given size. *)
Definition view_transform (v : View) (width height : num) : Transform :=
  makeTransform (xMin v) (xMax v) (yMin v) (yMax v) width height.

(** The drag of [onPointerMove] by [dxPx], [dyPx] pixels: the scales
    are read from the current view [cur], the updater runs on [prev]. *)
Definition drag (dxPx dyPx width height : num) (cur prev : View) : View :=
  let t := view_transform cur width height in
  let dx := Num.div (Num.neg dxPx) (xScale t) in
  let dy := Num.div dyPx (yScale t) in
  {| xMin := Num.add (xMin prev) dx; xMax := Num.add (xMax prev) dx;
     yMin := Num.add (yMin prev) dy; yMax := Num.add (yMax prev) dy |}.


(** A view with finite bounds. *)
Definition view_of (x0 x1 y0 y1 : Q) : View :=
  {| xMin := Fin x0; xMax := Fin x1; yMin := Fin y0; yMax := Fin y1 |}.

(** The middle and the extent of a pair of bounds. *)
Definition centre (lo hi : num) : num := Num.div (Num.add lo hi) (ofZ 2).
Definition extent (lo hi : num) : num := Num.sub hi lo.

(** ** Labels *)

(** A label dropped on the canvas: [{id, x, y, text}]. *)
Record Label : Type := {
  label_id : num;
  label_x : num;
  label_y : num;
  label_text : str
}.

(** The squared pixel distance of a label to the pixel [(px, py)]. *)
Definition label_d2 (t : Transform) (px py : num) (L : Label) : num :=
  let lx := xToPx t (label_x L) in
  let ly := yToPx t (label_y L) in
  Num.add (Num.mul (Num.sub lx px) (Num.sub lx px))
          (Num.mul (Num.sub ly py) (Num.sub ly py)).

(** One turn of the loop of [findNearestLabelPx] on [best], [bestD2]. *)
Definition nearest_step (t : Transform) (px py : num)
           (acc : option Label * num) (L : Label) : option Label * num :=
  let d2 := label_d2 t px py L in
  if Num.ltb d2 (snd acc) then (Some L, d2) else acc.

Definition findNearestLabelPx (labels : list Label) (v : View)
           (width height px py : num) : option Label :=
  match labels with
  | [] => None
  | _ =>
      let t := view_transform v width height in
      let '(best, bestD2) :=
        fold_left (nearest_step t px py) labels (None, PInf) in
      if Num.leb bestD2 (ofZ (18 * 18)) then best else None
  end.

(** What the loop of [findNearestLabelPx] knows after the labels
    [seen]. *)
Definition nearest_inv (t : Transform) (px py : num)
           (seen : list Label) (acc : option Label * num) : Prop :=
  match fst acc with
  | None => snd acc = PInf
  | Some L => In L seen /\ snd acc = label_d2 t px py L
  end
  /\ snd acc <> NaN
  /\ forall L', In L' seen ->
                Num.ltb (label_d2 t px py L') (snd acc) = false.

(** ** Drawing *)

(** The renderer calls the draw effect makes for a compiled line. *)
Inductive DrawCall : Type :=
| FillDoubleIneq (F1 : num -> num -> num) (op1 : Op.t)
                 (F2 : num -> num -> num) (op2 : Op.t) (gridX : num)
| FillIneq (F : num -> num -> num) (op : Op.t) (gridX : num)
| DrawImplicit (F : num -> num -> num) (dashed : bool) (gridX : num)
| DrawParametric (fx fy : num -> num) (tmin tmax samples : num)
| DrawPolar (fr : num -> num) (thmin thmax samples : num)
| PlotFunction (fn : num -> num) (pxStep : num) (domain : option Expr.Domain).

(** [op === "lt" || op === "gt"]. *)
Definition strict (o : Op.t) : bool :=
  match o with Op.lt | Op.gt => true | _ => false end.

(** [Math.max(60, Math.round(size.width / (6 * px)))]. *)
Definition gridX_of (width px : num) : num :=
  Num.max (ofZ 60) (MathFn.round (Num.div width (Num.mul (ofZ 6) px))).

(** One turn of the loop over [compiled] in the draw effect. *)
Definition draw_calls (width px : num) (c : Compiled.t) : list DrawCall :=
  if negb (Expr.visible (Compiled.expr c)) || negb (is_empty (Compiled.error c))
  then []
  else
    match Compiled.payload c with
    | DoubleIneq (Some F1) op1 (Some F2) op2 =>
        let gridX := gridX_of width px in
        [FillDoubleIneq F1 op1 F2 op2 gridX;
         DrawImplicit F1 (strict op1) gridX;
         DrawImplicit F2 (strict op2) gridX]
    | Inequality (Some F) op =>
        let gridX := gridX_of width px in
        [FillIneq F op gridX; DrawImplicit F (strict op) gridX]
    | Implicit (Some F) => [DrawImplicit F false (gridX_of width px)]
    | Parametric (Some fx) (Some fy) tmin tmax =>
        let N := Num.max (ofZ 300)
                   (MathFn.round (Num.mul (Num.div width px) (Fin (3 # 2)))) in
        [DrawParametric fx fy tmin tmax N]
    | Polar (Some fr) thmin thmax =>
        let N := Num.max (ofZ 360)
                   (MathFn.round (Num.mul (Num.div width px) (Fin 2))) in
        [DrawPolar fr thmin thmax N]
    | Explicit (Some fn) =>
        [PlotFunction fn px (Expr.domain (Compiled.expr c))]
    | _ => []
    end.

(** ** Contour of an implicit curve *)

(** Path commands, in pixels. *)
Inductive PathCmd : Type :=
| MoveTo (px py : num)
| LineTo (px py : num).









(** ** A sampled curve *)

(** [v | 0]: the whole part of [v] wrapped to 32 bits, 0 when [v] is
    not finite. *)
Definition toInt32 (v : num) : Z :=
  match v with
  | Fin q =>
      let z := if Qle_bool 0 q then Qfloor q else Qceiling q in
      ((z + 2 ^ 31) mod 2 ^ 32 - 2 ^ 31)%Z
  | _ => 0%Z
  end.

Definition finite_pt (p : num * num) : bool :=
  Num.isFinite (fst p) && Num.isFinite (snd p).

(** One sample of a path drawn with the [move] flag: a sample that is
    not finite lifts the pen, the next finite one moves to its pixel,
    the following ones draw a line. *)
Definition pen_step (t : Transform) (st : bool * list PathCmd)
           (p : num * num) : bool * list PathCmd :=
  let '(move, path) := st in
  if negb (Num.isFinite (fst p)) || negb (Num.isFinite (snd p))
  then (true, path)
  else
    let px := xToPx t (fst p) in
    let py := yToPx t (snd p) in
    if move then (false, path ++ [MoveTo px py])
    else (false, path ++ [LineTo px py]).

(** The number of intervals [N] of [drawParametric]. *)
Definition param_count (samples : num) : Z := Z.max 100 (toInt32 samples).

(** The value [tt] of the parameter at turn [i]. *)
Definition param_at (tmin tmax : num) (N i : Z) : num :=
  Num.add tmin (Num.mul (Num.div (ofZ i) (ofZ N)) (Num.sub tmax tmin)).

(** [drawParametric]: the commands it adds to the path. *)
Definition drawParametric (t : Transform) (fx fy : num -> num)
           (tmin tmax samples : num) : list PathCmd :=
  let N := param_count samples in
  snd (fold_left
         (fun st i =>
            let tt := param_at tmin tmax N i in
            pen_step t st (fx tt, fy tt))
         (map Z.of_nat (seq 0 (S (Z.to_nat N))))
         (true, [])).

(** The command a sample gives, from the sample before it. *)
Definition pen_cmd (t : Transform) (prev : option (num * num))
           (p : num * num) : list PathCmd :=
  if finite_pt p then
    let joined := match prev with Some q => finite_pt q | None => false end in
    [(if joined then LineTo else MoveTo) (xToPx t (fst p)) (yToPx t (snd p))]
  else [].

(** The samples with the sample before each. *)
Definition with_previous {A : Type} (l : list A) : list (option A * A) :=
  combine (None :: map Some l) l.

(** ** What the searches return *)


(** A finite number between [x0] and [x1]. *)
Definition in_range (x0 x1 : Q) (x : num) : Prop :=
  exists q, x = Fin q /\ x0 <= q <= x1.

(** A point of the analysis at a finite abscissa between [x0] and
    [x1], with a finite ordinate. *)
Definition in_view (x0 x1 : Q) (p : Analysis.Point) : Prop :=
  in_range x0 x1 (Analysis.x p) /\ Num.isFinite (Analysis.y p) = true.

Definition all_in_view (x0 x1 : Q) (st : Analysis.State) : Prop :=
  forall p, In p (Analysis.allPoints st) -> in_view x0 x1 p.

(** ** Implicit multiplication *)

Definition star : N := ch "*".
Definition is_open (c : N) : bool := (c =? ch "(")%N.
Definition is_close (c : N) : bool := (c =? ch ")")%N.

(** [s.replace(re, "$1*$2")] for a global pattern of two
    one-character groups [A] then [B]: matches are taken from the
    left and do not overlap. *)
Fixpoint insert_star (A B : N -> bool) (s : str) : str :=
  match s with
  | c1 :: ((c2 :: rest') as rest) =>
      if A c1 && B c2 then c1 :: star :: c2 :: insert_star A B rest'
      else c1 :: insert_star A B rest
  | _ => s
  end.

Definition addStarsForImplicitMul (s : str) : str :=
  insert_star is_close (fun c => is_alpha c || is_digit c)
    (insert_star (fun c => is_alpha c || is_close c) is_open
       (insert_star is_digit (fun c => is_alpha c || is_open c) s)).

(** Some character in [A] is directly followed by one in [B]. *)
Fixpoint adjacent_pair (A B : N -> bool) (s : str) : bool :=
  match s with
  | c1 :: ((c2 :: _) as rest) => (A c1 && B c2) || adjacent_pair A B rest
  | _ => false
  end.

(** The string without its stars. *)
Definition without_stars (s : str) : str :=
  List.filter (fun c => negb (c =? star)%N) s.

(** ** Editing the list of lines *)

Definition COLORS : list str :=
  map js ["#22c55e"; "#3b82f6"; "#ef4444"; "#a855f7"; "#f59e0b";
          "#10b981"; "#06b6d4"; "#f43f5e"; "#8b5cf6"; "#14b8a6"]%string.

(** [{ ...e, params: { ...e.params, [name]: value } }]. *)
Definition set_param (name : str) (value : num) (e : Expr.t) : Expr.t :=
  {| Expr.id := Expr.id e; Expr.src := Expr.src e; Expr.color := Expr.color e;
     Expr.visible := Expr.visible e; Expr.lineWidth := Expr.lineWidth e;
     Expr.params := <[name := value]> (Expr.params e);
     Expr.domain := Expr.domain e;
     Expr.includeIntersect := Expr.includeIntersect e;
     Expr.error := Expr.error e |}.

(** The updater of [updateParam]. *)
Definition updateParam (id : Z) (name : str) (value : num)
           (arr : list Expr.t) : list Expr.t :=
  map (fun e => if (Expr.id e =? id)%Z then set_param name value e else e) arr.

(** The updater of [removeExpr]. *)
Definition removeExpr (id : Z) (arr : list Expr.t) : list Expr.t :=
  List.filter (fun e => negb (Expr.id e =? id)%Z) arr.

(** [addExpression(src)] at the time [now]: the new list. *)
Definition addExpression (now : Z) (src : str) (arr : list Expr.t)
  : list Expr.t :=
  let text := trim src in
  if is_empty text then arr
  else
    arr ++
    [{| Expr.id := now; Expr.src := text;
        Expr.color := nth (length arr mod length COLORS) COLORS [];
        Expr.visible := true; Expr.lineWidth := ofZ 2; Expr.params := ∅;
        Expr.domain :=
          Some {| Expr.use := false; Expr.min := ofZ (-10);
                  Expr.max := ofZ 10 |};
        Expr.includeIntersect := true; Expr.error := [] |}].

(** A payload with its functions forgotten: what is left is which of
    them are there, the ranges, the operators and the value. *)
Definition erase (p : Payload) : Payload :=
  let f1 := option_map (fun _ : num -> num => fun _ : num => NaN) in
  let f2 := option_map (fun _ : num -> num -> num => fun _ _ : num => NaN) in
  match p with
  | Explicit f => Explicit (f1 f)
  | Polar f a b => Polar (f1 f) a b
  | Parametric f g a b => Parametric (f1 f) (f1 g) a b
  | DoubleIneq f o1 g o2 => DoubleIneq (f2 f) o1 (f2 g) o2
  | Inequality f o => Inequality (f2 f) o
  | Implicit f => Implicit (f2 f)
  | Scalar v => Scalar v
  end.

(** A compiled line with its functions forgotten. *)
Definition static (c : Compiled.t) : Compiled.t :=
  {| Compiled.expr := Compiled.expr c;
     Compiled.payload := erase (Compiled.payload c);
     Compiled.params := Compiled.params c;
     Compiled.paramNames := Compiled.paramNames c;
     Compiled.error := Compiled.error c |}.

(** ** Canvas size *)

(** [update(w)] of the layout effect: the size of the canvas for a
    container [w] pixels wide. *)
Definition canvas_size (w : num) : num * num :=
  let width := Num.max (ofZ 280) (MathFn.round w) in
  let height :=
    Num.max (ofZ 260) (MathFn.round (Num.mul width (Fin (62 # 100)))) in
  (width, height).


(** ** White space around a line *)

(** [{ ...e, src }]. *)
Definition with_src (src : str) (e : Expr.t) : Expr.t :=
  {| Expr.id := Expr.id e; Expr.src := src; Expr.color := Expr.color e;
     Expr.visible := Expr.visible e; Expr.lineWidth := Expr.lineWidth e;
     Expr.params := Expr.params e; Expr.domain := Expr.domain e;
     Expr.includeIntersect := Expr.includeIntersect e;
     Expr.error := Expr.error e |}.

(** The compiled line [c] as the output for the line [e]. *)
Definition retag (e : Expr.t) (c : Compiled.t) : Compiled.t :=
  {| Compiled.expr := e; Compiled.payload := Compiled.payload c;
     Compiled.params := Compiled.params c;
     Compiled.paramNames := Compiled.paramNames c;
     Compiled.error := Compiled.error c |}.


(** * Properties *)

(** ** The model on small inputs *)

Example match_y_group : Regex.match_y (js "y = x^2") = Some (js "x^2").
Proof. reflexivity. Qed.

Example match_r_group :
  Regex.match_r (js "r = 1 + 0.5*cos(theta), theta=[0, 2*pi]")
  = Some (js "1 + 0.5*cos(theta)").
Proof. reflexivity. Qed.

Example match_theta_range_groups :
  Regex.match_theta_range (js "r = 1 + 0.5*cos(theta), theta=[0, 2*pi]")
  = Some (js "0", js "2*pi").
Proof. reflexivity. Qed.

Example match_double_groups :
  Regex.match_double (js "1<=x^2+y^2<=4")
  = Some (js "1", js "<=", js "x^2+y^2", js "<=", js "4").
Proof. reflexivity. Qed.

Example find_cmp_prefers_longer_operator :
  find_cmp (js "x^2+y^2<=4") = Some (js "<=", 7%nat).
Proof. reflexivity. Qed.

Example normalize_theta_glyph :
  normalize ([32; 114; 61; theta_glyph; 32]%N) = js "r=theta".
Proof. reflexivity. Qed.

Example chosen_with_glyphs :
  chosen (normalize (js "x^2+y^2" ++ [le_glyph] ++ js "4")) = BInequality /\
  chosen (normalize (js "r=2*" ++ [theta_glyph])) = BPolar.
Proof. split; reflexivity. Qed.

Example parts_of_range_example :
  Guard.parts range_example
  = [js "x=cos(t)"; js "y=sin(t)"; js "t=[0"; js "2*pi]"].
Proof. reflexivity. Qed.

Example detectParams_sliders :
  detectParams (js "a*sin(b*x) + a") = [js "a"; js "b"].
Proof. reflexivity. Qed.

Example parse_precedence :
  ExprEval.parse (js "2+3*4")
  = Ok (ExprEval.Bin ExprEval.Add (ExprEval.Lit (Fin 2))
          (ExprEval.Bin ExprEval.Mul (ExprEval.Lit (Fin 3))
             (ExprEval.Lit (Fin 4)))).
Proof. reflexivity. Qed.

Example piecewise_first_true :
  ExprEval.piecewise [Fin 0; Fin 1; Fin 1; Fin 2; Fin 99] = Fin 2 /\
  ExprEval.piecewise [Fin 0; Fin 1; Fin 0; Fin 2; Fin 99] = Fin 99.
Proof. split; reflexivity. Qed.

Example niceStep_values :
  niceStep (Fin 20) = Fin 2 /\ niceStep (Fin 7) = Fin (1 # 2) /\
  niceStep (Fin 1000) = Fin 100 /\ niceStep (Fin (1 # 4)) = Fin (1 # 50).
Proof. repeat split; vm_compute; reflexivity. Qed.

Example division_by_zero :
  Num.div (Fin 1) (Fin 0) = PInf /\ Num.div (Fin 0) (Fin 0) = NaN /\
  Num.div (Fin (-1)) (Fin 0) = NInf.
Proof. repeat split; reflexivity. Qed.

Example bisect_square :
  bisectRoot (fun x => Num.sub (Num.mul x x) (Fin 4)) (Fin 0) (Fin 4) NaN NaN
  = Some (Fin 2).
Proof. vm_compute. reflexivity. Qed.

Example bisect_same_sign :
  bisectRoot (fun x => Num.add (Num.mul x x) (Fin 1)) (Fin 0) (Fin 4) NaN NaN
  = None.
Proof. vm_compute. reflexivity. Qed.

(** ** Coordinate transform *)

Lemma sgn_pos (q : Q) : 0 < q -> Num.sgn q = Gt.
Proof. intros H. unfold Num.sgn. apply Qgt_alt. exact H. Qed.

Lemma sgn_Eq (q : Q) : Num.sgn q = Eq -> q == 0.
Proof. unfold Num.sgn. intros H. apply Qeq_alt. exact H. Qed.

Lemma sgn_nonzero (q : Q) : ~ q == 0 -> Num.sgn q <> Eq.
Proof. intros H E. apply H, sgn_Eq, E. Qed.

Lemma div_fin (x y : Q) :
  ~ y == 0 -> Num.div (Fin x) (Fin y) = Fin (Qred (x / y)).
Proof.
  intros H. unfold Num.div. pose proof (sgn_nonzero y H) as Hs.
  destruct (Num.sgn y); congruence.
Qed.

(** C3: for a viewport with [xMin < xMax], [yMin < yMax] and positive
    pixel sizes, the inverse maps undo the forward maps exactly:
    [pxToX (xToPx x)] is [x] and [pxToY (yToPx y)] is [y]. *)
Theorem transform_round_trip (xMin xMax yMin yMax width height : Q) :
  xMin < xMax -> yMin < yMax -> 0 < width -> 0 < height ->
  let t := makeTransform (Fin xMin) (Fin xMax) (Fin yMin) (Fin yMax)
                         (Fin width) (Fin height) in
  (forall x : Q, pxToX t (xToPx t (Fin x)) ≃ Fin x) /\
  (forall y : Q, pxToY t (yToPx t (Fin y)) ≃ Fin y).
Proof.
  intros Hx Hy Hw Hh t.
  assert (Hdx : ~ Qred (xMax + Qred (- xMin)) == 0).
  { rewrite !Qred_correct. lra. }
  assert (Hdy : ~ Qred (yMax + Qred (- yMin)) == 0).
  { rewrite !Qred_correct. lra. }
  assert (Hsx : ~ Qred (width / Qred (xMax + Qred (- xMin))) == 0).
  { rewrite !Qred_correct. intros E.
    assert (0 < width / (xMax + - xMin)).
    { apply Qlt_shift_div_l; lra. }
    lra. }
  assert (Hsy : ~ Qred (height / Qred (yMax + Qred (- yMin))) == 0).
  { rewrite !Qred_correct. intros E.
    assert (0 < height / (yMax + - yMin)).
    { apply Qlt_shift_div_l; lra. }
    lra. }
  split; intros v; subst t; cbn [pxToX xToPx pxToY yToPx makeTransform].
  - unfold Num.sub, Num.neg. cbn [Num.add Num.mul].
    rewrite (div_fin width _ Hdx). cbn [Num.mul].
    rewrite (div_fin _ _ Hsx). cbn [Num.add Num.same].
    rewrite !Qred_correct in *. field. lra.
  - unfold Num.sub, Num.neg. cbn [Num.add Num.mul].
    rewrite (div_fin height _ Hdy). cbn [Num.mul Num.add Num.neg].
    rewrite (div_fin _ _ Hsy). cbn [Num.add Num.same].
    rewrite !Qred_correct in *. field. lra.
Qed.

(** ** Root bisection *)

Section Bisection.
Variable f : num -> num.

Lemma midpoint_between (l h : Q) :
  l <= h -> exists m, midpoint (Fin l) (Fin h) = Fin m /\ l <= m <= h.
Proof.
  intros H. eexists. split; [reflexivity|].
  rewrite !Qred_correct. lra.
Qed.

(** The loop never leaves the bracket it was given. *)
Lemma bisect_loop_in_bracket (a b : Q) (n : nat) :
  forall (l h : Q) (flo fhi v : num),
    a <= l -> l <= h -> h <= b ->
    bisect_loop f n (Fin l) (Fin h) flo fhi = Some v ->
    exists q, v = Fin q /\ a <= q <= b.
Proof.
  induction n as [|n IH]; intros l h flo fhi v Hal Hlh Hhb; cbn [bisect_loop].
  - destruct (midpoint_between l h Hlh) as (m & -> & Hm).
    intros [= <-]. exists m. split; [reflexivity | lra].
  - destruct (midpoint_between l h Hlh) as (m & -> & Hm).
    destruct (negb (Num.isFinite (f (Fin m)))); [discriminate|].
    destruct (Num.eqb flo zero).
    { intros [= <-]. exists l. split; [reflexivity | lra]. }
    destruct (Num.eqb fhi zero).
    { intros [= <-]. exists h. split; [reflexivity | lra]. }
    destruct (Num.eqb (f (Fin m)) zero).
    { intros [= <-]. exists m. split; [reflexivity | lra]. }
    destruct (Num.ltb (Num.mul flo (f (Fin m))) zero).
    + apply IH; lra.
    + apply IH; lra.
Qed.





End Bisection.



(** C10: for real end points [a <= b], a result of [bisectRoot] that
    is not [null] lies in the closed interval from [a] to [b]. *)
Theorem bisectRoot_in_bracket (f : num -> num) (a b : Q) (ya yb v : num) :
  a <= b ->
  bisectRoot f (Fin a) (Fin b) ya yb = Some v ->
  exists q, v = Fin q /\ a <= q <= b.
Proof.
  intros Hab. unfold bisectRoot, bisectRoot_iters.
  destruct (negb _ || negb _ || _); [discriminate|].
  apply bisect_loop_in_bracket; lra.
Qed.

Lemma bisectRoot_in_bracket_witness :
  let f := fun x => Num.sub x (Fin 1) in
  0 <= 2 /\
  bisectRoot f (Fin 0) (Fin 2) NaN NaN = Some (Fin 1) /\
  exists q, Fin 1 = Fin q /\ 0 <= q <= 2.
Proof.
  intros f.
  assert (H02 : 0 <= 2) by (unfold Qle; simpl; lia).
  assert (Hrun : bisectRoot f (Fin 0) (Fin 2) NaN NaN = Some (Fin 1))
    by (vm_compute; reflexivity).
  split; [exact H02|]. split; [exact Hrun|].
  exact (bisectRoot_in_bracket f 0 2 NaN NaN (Fin 1) H02 Hrun).
Defined.




Lemma transform_round_trip_witness :
  let t := makeTransform (Fin (-10)) (Fin 10) (Fin (-10)) (Fin 10)
                         (Fin 800) (Fin 600) in
  pxToX t (xToPx t (Fin 3)) ≃ Fin 3 /\ pxToY t (yToPx t (Fin 7)) ≃ Fin 7.
Proof.
  intros t.
  assert (H : (forall x : Q, pxToX t (xToPx t (Fin x)) ≃ Fin x) /\
              (forall y : Q, pxToY t (yToPx t (Fin y)) ≃ Fin y)).
  { apply (transform_round_trip (-10) 10 (-10) 10 800 600); reflexivity. }
  split; [apply (proj1 H) | apply (proj2 H)].
Defined.

(** ** Grid step *)

Lemma count_up_spec (fuel : nat) :
  forall n d : Z,
    (0 < d <= n)%Z -> (n < d * 10 ^ Z.of_nat fuel)%Z ->
    let k := MathFn.count_up fuel n d in
    (0 <= k /\ d * 10 ^ k <= n < d * 10 ^ (k + 1))%Z.
Proof.
  induction fuel as [|fuel IH]; intros n d Hd Hn; cbn [MathFn.count_up].
  - cbn in Hn. lia.
  - destruct (Z.leb_spec (10 * d) n) as [Hle|Hgt].
    + specialize (IH n (10 * d)%Z).
      rewrite Nat2Z.inj_succ, Z.pow_succ_r in Hn by lia.
      destruct IH as (Hk & Hlo & Hhi); [lia | lia |].
      set (k := MathFn.count_up fuel n (10 * d)) in *.
      split; [lia|].
      replace (1 + k + 1)%Z with (Z.succ (k + 1)) by lia.
      replace (1 + k)%Z with (Z.succ k) by lia.
      rewrite !Z.pow_succ_r by lia. lia.
    + cbn. lia.
Qed.

Lemma count_down_spec (fuel : nat) :
  forall n d : Z,
    (0 < n < d)%Z -> (d <= n * 10 ^ (Z.of_nat fuel + 1))%Z ->
    let j := MathFn.count_down fuel n d in
    (1 <= j /\ n * 10 ^ (j - 1) < d <= n * 10 ^ j)%Z.
Proof.
  induction fuel as [|fuel IH]; intros n d Hd Hn; cbn [MathFn.count_down].
  - cbn in *. lia.
  - destruct (Z.leb_spec d (10 * n)) as [Hle|Hgt].
    + cbn. lia.
    + specialize (IH (10 * n)%Z d).
      rewrite Nat2Z.inj_succ in Hn.
      replace (Z.succ (Z.of_nat fuel) + 1)%Z with (Z.succ (Z.of_nat fuel + 1)) in Hn by lia.
      rewrite Z.pow_succ_r in Hn by lia.
      destruct IH as (Hj & Hlo & Hhi); [lia | lia |].
      set (j := MathFn.count_down fuel (10 * n) d) in *.
      split; [lia|].
      replace (1 + j - 1)%Z with (Z.succ (j - 1)) by lia.
      replace (1 + j)%Z with (Z.succ j) by lia.
      rewrite !Z.pow_succ_r by lia. lia.
Qed.

Lemma pow10_ge_pow2 (m : Z) : (0 <= m)%Z -> (2 ^ m <= 10 ^ m)%Z.
Proof. intros H. apply Z.pow_le_mono_l. lia. Qed.

Lemma below_pow10_log2 (n : Z) :
  (0 < n)%Z -> (n < 10 ^ (Z.log2 n + 1))%Z.
Proof.
  intros H. pose proof (Z.log2_spec n H) as [_ Hhi].
  pose proof (Z.log2_nonneg n).
  pose proof (pow10_ge_pow2 (Z.succ (Z.log2 n))).
  replace (Z.log2 n + 1)%Z with (Z.succ (Z.log2 n)) by lia. lia.
Qed.

Lemma Qpower10_nonneg (k : Z) :
  (0 <= k)%Z -> Qpower 10 k == inject_Z (10 ^ k).
Proof. intros H. symmetry. apply (Zpower_Qpower 10 k H). Qed.

Lemma Qpower10_neg (j : Z) :
  (0 <= j)%Z -> Qpower 10 (- j) == / inject_Z (10 ^ j).
Proof.
  intros H. rewrite Qpower_opp, Qpower10_nonneg by exact H. reflexivity.
Qed.

Lemma pow10_pos (k : Z) : (0 <= k)%Z -> (0 < 10 ^ k)%Z.
Proof. intros. apply Z.pow_pos_nonneg; lia. Qed.

Lemma Qpower10_pos (k : Z) : 0 < Qpower 10 k.
Proof. apply Qpower_0_lt. reflexivity. Qed.

Lemma floor_log10_pos_spec (q : Q) :
  0 < q ->
  let k := MathFn.floor_log10_pos q in
  Qpower 10 k <= q /\ q < Qpower 10 (k + 1).
Proof.
  intros Hq. destruct q as [n d]. unfold MathFn.floor_log10_pos.
  cbn [Qnum Qden].
  assert (Hn : (0 < n)%Z).
  { unfold Qlt in Hq. cbn in Hq. lia. }
  destruct (Z.leb_spec (Zpos d) n) as [Hle|Hgt].
  - pose proof (count_up_spec (S (Z.to_nat (Z.log2 n))) n (Zpos d)) as H.
    cbv zeta in H.
    destruct H as (Hk & Hlo & Hhi); [lia | |].
    { pose proof (below_pow10_log2 n Hn). pose proof (Z.log2_nonneg n).
      rewrite Nat2Z.inj_succ, Z2Nat.id by lia.
      replace (Z.succ (Z.log2 n)) with (Z.log2 n + 1)%Z by lia. nia. }
    set (k := MathFn.count_up _ n (Zpos d)) in *.
    rewrite !Qpower10_nonneg by lia.
    unfold Qle, Qlt. cbn [Qnum Qden inject_Z]. split; lia.
  - pose proof (count_down_spec (Z.to_nat (Z.log2 (Zpos d))) n (Zpos d)) as H.
    cbv zeta in H.
    destruct H as (Hj & Hlo & Hhi); [lia | |].
    { pose proof (below_pow10_log2 (Zpos d) eq_refl).
      pose proof (Z.log2_nonneg (Zpos d)).
      rewrite Z2Nat.id by lia. nia. }
    set (j := MathFn.count_down _ n (Zpos d)) in *.
    replace (- j + 1)%Z with (- (j - 1))%Z by lia.
    rewrite !Qpower10_neg by lia.
    pose proof (pow10_pos j). pose proof (pow10_pos (j - 1)).
    split.
    + apply Qle_shift_inv_r.
      * unfold Qlt. cbn. lia.
      * unfold Qle. cbn [Qnum Qden inject_Z Qmult]. lia.
    + apply Qlt_shift_inv_l.
      * unfold Qlt. cbn. lia.
      * unfold Qlt. cbn [Qnum Qden inject_Z Qmult]. lia.
Qed.

Lemma geb_fin (x y : Q) : Num.geb (Fin x) (Fin y) = true <-> y <= x.
Proof.
  unfold Num.geb, Num.leb.
  destruct (Qcompare_spec y x) as [H|H|H]; split; intros; try discriminate; try reflexivity; lra.
Qed.

Lemma geb_fin_false (x y : Q) : Num.geb (Fin x) (Fin y) = false <-> x < y.
Proof.
  unfold Num.geb, Num.leb.
  destruct (Qcompare_spec y x) as [H|H|H]; split; intros; try discriminate; try reflexivity; lra.
Qed.

Lemma max_fin_left (x y : Q) : y <= x -> Num.max (Fin x) (Fin y) = Fin x.
Proof.
  intros H. unfold Num.max, Num.ltb.
  destruct (Qcompare_spec x y) as [E|E|E]; try reflexivity. lra.
Qed.

Lemma max_fin_right (x y : Q) : x < y -> Num.max (Fin x) (Fin y) = Fin y.
Proof.
  intros H. unfold Num.max, Num.ltb.
  destruct (Qcompare_spec x y) as [E|E|E]; try reflexivity; lra.
Qed.

Lemma niceStep_unfold (r : Q) (k : Z) :
  MathFn.floor_log10 (Num.max (Fin (Qred (r / 10))) (Fin tiny)) = ofZ k ->
  let rough := Qred (r / 10) in
  let p := Qred (Qpower 10 k) in
  let ratio := Qred (rough / p) in
  niceStep (Fin r) =
    if Num.geb (Fin ratio) (Fin 5) then Fin (Qred (5 * p))
    else if Num.geb (Fin ratio) (Fin 2) then Fin (Qred (2 * p))
    else Fin (Qred (1 * p)).
Proof.
  intros Hk rough p ratio. unfold niceStep.
  assert (H10 : Num.div (Fin r) (Fin 10) = Fin rough).
  { apply div_fin. discriminate. }
  rewrite H10. subst rough. rewrite Hk.
  unfold MathFn.pow10, ofZ. rewrite Qfloor_Z. fold p.
  assert (Hp : ~ p == 0).
  { subst p. rewrite Qred_correct. pose proof (Qpower10_pos k). lra. }
  rewrite (div_fin _ p Hp). reflexivity.
Qed.

(** C6, amended: when a tenth of the range is at least the floor
    [1e-12] to which the source clamps it, [niceStep] returns a step
    [m * 10^k] with [m] among 1, 2 and 5 that does not exceed a tenth
    of the range, and the next larger candidate does; for a smaller
    positive range it returns [1e-12]. *)
Theorem niceStep_spec (r : Q) :
  (tiny <= r / 10 -> largest_step_below_tenth r)
  /\ (0 < r -> r / 10 < tiny -> niceStep (Fin r) ≃ Fin tiny).
Proof.
  split.
  - intros Hr. unfold largest_step_below_tenth.
    assert (Hpos : 0 < Qred (r / 10)).
    { rewrite Qred_correct. unfold tiny in Hr. lra. }
    pose proof (floor_log10_pos_spec _ Hpos) as Hk. cbv zeta in Hk.
    set (k := MathFn.floor_log10_pos (Qred (r / 10))) in *.
    rewrite Qred_correct in Hk. destruct Hk as [Hlo Hhi].
    assert (E : MathFn.floor_log10 (Num.max (Fin (Qred (r / 10))) (Fin tiny)) = ofZ k).
    { rewrite max_fin_left by (rewrite Qred_correct; exact Hr).
      unfold MathFn.floor_log10. rewrite (sgn_pos _ Hpos). reflexivity. }
    rewrite (niceStep_unfold r k E). cbv zeta.
    pose proof (Qpower10_pos k) as Hp.
    assert (Hnext : candidate 1 (k + 1) == 10 * Qpower 10 k).
    { unfold candidate. rewrite Qpower_plus by discriminate.
      change (Qpower 10 1) with 10. change (inject_Z 1) with 1. ring. }
    assert (Hc : forall m : Z, candidate m k == inject_Z m * Qpower 10 k)
      by reflexivity.
    assert (Hhi' : r / 10 < 10 * Qpower 10 k).
    { rewrite <- Hnext. unfold candidate. change (inject_Z 1) with 1. lra. }
    clear Hhi.
    set (p := Qpower 10 k) in *. clearbody p.
    assert (Hratio : forall c : Q,
               (c <= Qred (Qred (r / 10) / Qred p) <-> c * p <= r / 10)).
    { intros c. rewrite !Qred_correct. split; intros H.
      - apply (Qmult_le_r _ _ (/ p)); [apply Qinv_lt_0_compat; exact Hp|].
        rewrite <- Qmult_assoc, Qmult_inv_r by lra. rewrite Qmult_1_r. exact H.
      - apply Qle_shift_div_l; assumption. }
    assert (Hratio' : forall c : Q,
               (Qred (Qred (r / 10) / Qred p) < c <-> r / 10 < c * p)).
    { intros c. rewrite !Qred_correct. split; intros H.
      - apply (Qmult_lt_r _ _ (/ p)); [apply Qinv_lt_0_compat; exact Hp|].
        rewrite <- (Qmult_assoc c), Qmult_inv_r by lra. rewrite Qmult_1_r. exact H.
      - apply Qlt_shift_div_r; assumption. }
    destruct (Num.geb (Fin (Qred (Qred (r / 10) / Qred p))) (Fin 5)) eqn:G5.
    + apply geb_fin, Hratio in G5.
      exists 5%Z, k. split; [auto|].
      change (next_candidate 5 k) with (candidate 1 (k + 1)).
      split; [|split]; [cbn [Num.same]|..];
        rewrite ?Hnext, ?Hc, ?Qred_correct; change (inject_Z 5) with 5; lra.
    + apply geb_fin_false, Hratio' in G5.
      destruct (Num.geb (Fin (Qred (Qred (r / 10) / Qred p))) (Fin 2)) eqn:G2.
      * apply geb_fin, Hratio in G2.
        exists 2%Z, k. split; [auto|].
        change (next_candidate 2 k) with (candidate 5 k).
        split; [|split]; [cbn [Num.same]|..];
          rewrite ?Hc, ?Qred_correct;
          change (inject_Z 5) with 5; change (inject_Z 2) with 2; lra.
      * apply geb_fin_false, Hratio' in G2.
        exists 1%Z, k. split; [auto|].
        change (next_candidate 1 k) with (candidate 2 k).
        split; [|split]; [cbn [Num.same]|..];
          rewrite ?Hc, ?Qred_correct;
          change (inject_Z 1) with 1; change (inject_Z 2) with 2; lra.
  - intros Hr Hsmall.
    assert (E : MathFn.floor_log10 (Num.max (Fin (Qred (r / 10))) (Fin tiny)) = ofZ (-12)).
    { rewrite max_fin_right by (rewrite Qred_correct; exact Hsmall).
      vm_compute. reflexivity. }
    rewrite (niceStep_unfold r (-12) E). cbv zeta.
    change (Qred (Qpower 10 (-12))) with tiny.
    assert (Hratio : Qred (Qred (r / 10) / tiny) < 1).
    { rewrite !Qred_correct. apply Qlt_shift_div_r; [reflexivity|]. lra. }
    assert (G5 : Num.geb (Fin (Qred (Qred (r / 10) / tiny))) (Fin 5) = false).
    { apply geb_fin_false. lra. }
    assert (G2 : Num.geb (Fin (Qred (Qred (r / 10) / tiny))) (Fin 2) = false).
    { apply geb_fin_false. lra. }
    rewrite G5, G2. cbn [Num.same]. rewrite Qred_correct. ring.
Qed.

Lemma niceStep_spec_witness :
  tiny <= 20 / 10 /\ largest_step_below_tenth 20.
Proof.
  assert (H : tiny <= 20 / 10) by (unfold Qle; simpl; lia).
  split; [exact H|]. exact (proj1 (niceStep_spec 20) H).
Defined.

(** C6 as stated fails below the floor: for the positive range
    [1e-12] the step returned exceeds a tenth of the range. *)
Lemma niceStep_exceeds_tenth_of_tiny_range :
  0 < tiny /\ ~ largest_step_below_tenth tiny.
Proof.
  split; [reflexivity|].
  intros (m & k & _ & Hs & Hle & _).
  assert (E : niceStep (Fin tiny) = Fin tiny) by (vm_compute; reflexivity).
  rewrite E in Hs. cbn [Num.same] in Hs. rewrite <- Hs in Hle.
  revert Hle. unfold Qle. simpl. lia.
Qed.

(** ** Fit to data *)










(** ** Analysis: de-duplication *)

Module AnalysisFacts.
Import Analysis.

Lemma extends_refl st : extends st st.
Proof. repeat split; exists []; rewrite app_nil_r; reflexivity. Qed.

Lemma extends_trans a b c : extends a b -> extends b c -> extends a c.
Proof.
intros (x1 & y1 & e1 & i1) (x2 & y2 & e2 & i2).
destruct x1 as [? x1], y1 as [? y1], e1 as [? e1], i1 as [? i1].
destruct x2 as [? x2], y2 as [? y2], e2 as [? e2], i2 as [? i2].
repeat split; eexists.
- rewrite x2, x1, <- app_assoc. reflexivity.
- rewrite y2, y1, <- app_assoc. reflexivity.
- rewrite e2, e1, <- app_assoc. reflexivity.
- rewrite i2, i1, <- app_assoc. reflexivity.
Qed.

Lemma insert_permutation {A : Type} (p : A) (l1 l2 : list A) :
Permutation (l1 ++ p :: l2) (p :: l1 ++ l2).
Proof. symmetry. apply Permutation_middle. Qed.

Lemma push_permutation (cat : Category) (p : Point) (st : State) :
Permutation (allPoints (push cat p st)) (p :: allPoints st).
Proof.
destruct st as [s xs ys es ins].
destruct cat; unfold allPoints, push;
  cbn [xIntercepts yIntercepts extrema intersections].
- replace ((xs ++ [p]) ++ ys ++ es ++ ins) with (xs ++ p :: ys ++ es ++ ins)
    by (rewrite <- app_assoc; reflexivity).
  apply insert_permutation.
- replace (xs ++ (ys ++ [p]) ++ es ++ ins)
    with ((xs ++ ys) ++ p :: es ++ ins)
    by (rewrite <- !app_assoc; reflexivity).
  rewrite insert_permutation, <- app_assoc. reflexivity.
- replace (xs ++ ys ++ (es ++ [p]) ++ ins)
    with ((xs ++ ys ++ es) ++ p :: ins)
    by (rewrite <- !app_assoc; reflexivity).
  rewrite insert_permutation, <- !app_assoc. reflexivity.
- replace (xs ++ ys ++ es ++ ins ++ [p])
    with ((xs ++ ys ++ es ++ ins) ++ [p])
    by (rewrite <- !app_assoc; reflexivity).
  symmetry. apply Permutation_cons_append.
Qed.

Lemma push_extends cat p st : extends st (push cat p st).
Proof.
destruct cat; unfold push; repeat split;
  cbn [xIntercepts yIntercepts extrema intersections];
  first [exists [p]; reflexivity | exists []; rewrite app_nil_r; reflexivity].
Qed.

Lemma push_new_seen cat k p st : k ∈ seen st -> push_new cat k p st = st.
Proof. intros H. unfold push_new. destruct (decide _); [reflexivity | contradiction]. Qed.

Lemma push_new_fresh cat k p st :
k ∉ seen st -> push_new cat k p st = push cat p (add_seen k st).
Proof. intros H. unfold push_new. destruct (decide _); [contradiction | reflexivity]. Qed.

Lemma push_new_deduplicated cat p st :
deduplicated st -> deduplicated (push_new cat (key_of p) p st).
Proof.
intros [Hnd Hseen]. unfold push_new.
destruct (decide (key_of p ∈ seen st)) as [Hin|Hout]; [split; assumption|].
pose proof (push_permutation cat p (add_seen (key_of p) st)) as Hperm.
assert (Hall : allPoints (add_seen (key_of p) st) = allPoints st) by reflexivity.
rewrite Hall in Hperm.
apply (Permutation_map key_of) in Hperm. cbn [map] in Hperm.
split.
- rewrite Hperm. apply NoDup_cons_2; [|exact Hnd].
  intros Hk. apply Hout, Hseen, Hk.
- intros k.
  assert (Hs : seen (push cat p (add_seen (key_of p) st)) = {[key_of p]} ∪ seen st)
    by (destruct cat; reflexivity).
  rewrite Hs, Hperm, elem_of_union, elem_of_singleton, elem_of_cons, Hseen.
  reflexivity.
Qed.

Lemma push_new_extends cat k p st : extends st (push_new cat k p st).
Proof.
unfold push_new. destruct (decide _); [apply extends_refl|].
apply (push_extends cat p (add_seen k st)).
Qed.

Lemma sound_id : sound (fun st => st).
Proof. intros st. split; [auto | apply extends_refl]. Qed.

Lemma sound_push_new cat p : sound (push_new cat (key_of p) p).
Proof.
intros st. split; [apply push_new_deduplicated | apply push_new_extends].
Qed.

Lemma sound_fold {A : Type} (step : State -> A -> State) (l : list A) :
(forall a, sound (fun st => step st a)) ->
sound (fun st => fold_left step l st).
Proof.
intros Hstep. induction l as [|a l IH]; intros st; cbn [fold_left].
- apply sound_id.
- destruct (Hstep a st) as [H1 H2]. destruct (IH (step st a)) as [H3 H4].
  split; [auto | eapply extends_trans; eassumption].
Qed.

Lemma sound_compose (f g : State -> State) :
sound f -> sound g -> sound (fun st => g (f st)).
Proof.
intros Hf Hg st. destruct (Hf st) as [H1 H2]. destruct (Hg (f st)) as [H3 H4].
split; [auto | eapply extends_trans; eassumption].
Qed.

Section Steps.
Variables (view : View) (N : nat).

Lemma sound_x_intercept e w : sound (fun st => x_intercept_step e st w).
Proof.
destruct w as [[a y0] [b y1]]. unfold x_intercept_step.
destruct (negb _ || negb _); [apply sound_id|].
destruct (_ || _ || _); [|apply sound_id].
destruct (bisectRoot _ _ _ _ _) as [xr|]; [|apply sound_id].
apply (sound_push_new CXInt
       {| type := x_int; x := xr; y := zero; color := ccolor e;
          exprId := id e; exprId2 := None |}).
Qed.

Lemma sound_y_intercept e : sound (y_intercept view e).
Proof.
unfold y_intercept.
destruct (_ && _); [|apply sound_id].
destruct (match restricted e with Some _ => _ | None => _ end); [|apply sound_id].
destruct (Num.isFinite _); [|apply sound_id].
apply (sound_push_new CYInt
       {| type := y_int; x := zero; y := fn e zero; color := ccolor e;
          exprId := id e; exprId2 := None |}).
Qed.

Lemma sound_extremum e w : sound (fun st => extremum_step e st w).
Proof.
destruct w as [[[a y0] [m y1]] [b y2]]. unfold extremum_step.
destruct (negb _ || negb _ || negb _); [apply sound_id|].
destruct (Num.gtb y1 y0 && Num.gtb y1 y2).
{ destruct (goldenExtremum _ _ _ _) as [[px py]|]; [|apply sound_id].
apply (sound_push_new CExtrema
         {| type := ext_max; x := px; y := py; color := ccolor e;
            exprId := id e; exprId2 := None |}). }
destruct (Num.ltb y1 y0 && Num.ltb y1 y2); [|apply sound_id].
destruct (goldenExtremum _ _ _ _) as [[px py]|]; [|apply sound_id].
apply (sound_push_new CExtrema
       {| type := ext_min; x := px; y := py; color := ccolor e;
          exprId := id e; exprId2 := None |}).
Qed.

Lemma sound_per_curve byId e : sound (fun st => per_curve view byId st e).
Proof.
unfold per_curve. destruct (default _ _) as [xs ys].
apply (sound_compose
       (fun st => y_intercept view e
                    (fold_left (x_intercept_step e) (adjacent (zip xs ys)) st))).
- apply (sound_compose (fun st => fold_left (x_intercept_step e) _ st)).
+ apply sound_fold. intros w. apply sound_x_intercept.
+ apply sound_y_intercept.
- apply sound_fold. intros w. apply sound_extremum.
Qed.

Lemma sound_intersect A B w : sound (fun st => intersect_step A B st w).
Proof.
destruct w as [a b]. unfold intersect_step.
destruct (negb _ || negb _ || _); [apply sound_id|].
destruct (bisectRoot _ _ _ _ _) as [x0|]; [|apply sound_id].
destruct (Num.isFinite _); [|apply sound_id].
apply (sound_push_new CIntersect
       {| type := intersect; x := x0; y := fn A x0; color := ccolor A;
          exprId := id A; exprId2 := Some (id B) |}).
Qed.

Lemma sound_run explicits :
deduplicated (run view N explicits) /\ extends empty (run view N explicits).
Proof.
unfold run.
pose proof (sound_compose
            (fun st => fold_left (per_curve view (samplesById view N explicits)) explicits st)
            (fun st => fold_left
               (fun st AB => fold_left (intersect_step (fst AB) (snd AB))
                                       (adjacent (grid view N)) st)
               (ordered_pairs (filter (fun e => includeIntersect e) explicits)) st)) as H.
destruct (H (sound_fold _ _ (sound_per_curve _))
          (sound_fold _ _ (fun AB => sound_fold _ _ (sound_intersect _ _))) empty) as [H1 H2].
split; [apply H1 | exact H2].
split; [constructor | intros k; cbn; set_solver].
Qed.
End Steps.

End AnalysisFacts.

(** C8: in the result of [analysis] no two points of the aggregate
    (x-intercepts, then y-intercepts, extrema and intersections) have
    the same key of coordinates rounded at six decimals.  The keys seen
    are exactly the keys of the points kept; a candidate of any
    category whose key has been seen is dropped, and a candidate with a
    new key is added without disturbing the points already kept. *)
Theorem analysis_deduplicated (compiled : list Compiled.t) (view : View)
        (width pxStep : num) (r : Analysis.State) :
  Analysis.analysis compiled view width pxStep = Ok r ->
  NoDup (map Analysis.key_of (Analysis.allPoints r))
  /\ (forall k, k ∈ Analysis.seen r <->
                k ∈ map Analysis.key_of (Analysis.allPoints r))
  /\ (forall cat p st,
        Analysis.key_of p ∈ Analysis.seen st ->
        Analysis.push_new cat (Analysis.key_of p) p st = st)
  /\ (forall cat p st,
        Analysis.key_of p ∉ Analysis.seen st ->
        Analysis.extends st (Analysis.push_new cat (Analysis.key_of p) p st) /\
        Permutation
          (Analysis.allPoints (Analysis.push_new cat (Analysis.key_of p) p st))
          (p :: Analysis.allPoints st)).
Proof.
  intros Hrun.
  assert (Hd : Analysis.deduplicated r).
  { unfold Analysis.analysis in Hrun.
    destruct (omap Analysis.curve_of compiled) as [|e es].
    - injection Hrun as <-. split; [constructor | intros k; cbn; set_solver].
    - destruct (Analysis.sample_count width pxStep) as [N|]; [|discriminate].
      injection Hrun as <-. apply AnalysisFacts.sound_run. }
  destruct Hd as [Hnd Hseen].
  split; [exact Hnd|]. split; [exact Hseen|]. split.
  - intros cat p st. apply AnalysisFacts.push_new_seen.
  - intros cat p st Hfresh. split; [apply AnalysisFacts.push_new_extends|].
    rewrite (AnalysisFacts.push_new_fresh _ _ _ _ Hfresh).
    apply (AnalysisFacts.push_permutation cat p
             (Analysis.add_seen (Analysis.key_of p) st)).
Qed.

Lemma analysis_deduplicated_witness :
  let curve := fun (i : Z) (f : num -> num) =>
    {| Compiled.expr :=
         {| Expr.id := i; Expr.src := js "x"; Expr.color := [];
            Expr.visible := true; Expr.lineWidth := Fin 2; Expr.params := ∅;
            Expr.domain := None; Expr.includeIntersect := true;
            Expr.error := [] |};
       Compiled.payload := Explicit (Some f);
       Compiled.params := ∅; Compiled.paramNames := [];
       Compiled.error := [] |} in
  let view := {| xMin := Fin (-10); xMax := Fin 10;
                 yMin := Fin (-10); yMax := Fin 10 |} in
  exists r,
    Analysis.analysis [curve 1%Z (fun x => x); curve 2%Z (fun x => Num.neg x)]
                      view (Fin 800) (Fin 2) = Ok r
    /\ NoDup (map Analysis.key_of (Analysis.allPoints r)).
Proof.
  intros curve view.
  destruct (Analysis.analysis
              [curve 1%Z (fun x => x); curve 2%Z (fun x => Num.neg x)]
              view (Fin 800) (Fin 2)) as [r|m] eqn:E.
  - exists r. split; [reflexivity|].
    exact (proj1 (analysis_deduplicated _ _ _ _ r E)).
  - vm_compute in E. discriminate E.
Defined.

(** ** Classifier *)

Lemma is_some_true {A : Type} (x : A) : bool_decide (is_Some (Some x)) = true.
Proof. reflexivity. Qed.

Lemma is_some_false {A : Type} : bool_decide (is_Some (@None A)) = false.
Proof. reflexivity. Qed.

Section ClassifierFacts.
Context {C : Compiler}.

Lemma param_step_xy params ans st st' p :
  xPart st = xPart st' -> yPart st = yPart st' ->
  xPart (param_step params ans st p) = xPart (xy_step st' p) /\
  yPart (param_step params ans st p) = yPart (xy_step st' p).
Proof.
  intros Hx Hy. unfold param_step, xy_step.
  destruct (startsWith p (js "x=")); [split; [reflexivity | exact Hy]|].
  destruct (startsWith p (js "y=")); [split; [exact Hx | reflexivity]|].
  destruct (Regex.test_t_range p); [|split; assumption].
  destruct (indexOf p (js "[")) as [lb|]; [|split; assumption].
  destruct (indexOf p (js "]")) as [rb|]; [|split; assumption].
  destruct (lb <? rb)%nat; split; assumption.
Qed.

Lemma fold_param_xy params ans (l : list str) :
  forall st st',
    xPart st = xPart st' -> yPart st = yPart st' ->
    xPart (fold_left (param_step params ans) l st)
    = xPart (fold_left xy_step l st') /\
    yPart (fold_left (param_step params ans) l st)
    = yPart (fold_left xy_step l st').
Proof.
  induction l as [|p l IH]; intros st st' Hx Hy; cbn [fold_left].
  - split; assumption.
  - destruct (param_step_xy params ans st st' p Hx Hy). apply IH; assumption.
Qed.

Lemma param_parts_xy params ans s :
  xPart (param_parts params ans s) = xPart (xy_parts s) /\
  yPart (param_parts params ans s) = yPart (xy_parts s).
Proof. apply fold_param_xy; reflexivity. Qed.

(** The line is handled by the branch [chosen] names, and by no other. *)
Lemma classify_dispatch (ansF ans : num) (e : Expr.t) :
  let s := line_src e in
  match chosen s with
  | BExplicitY =>
      exists g, Regex.match_y s = Some g /\
                classify_line ansF ans e = (explicit_y ansF e g, ans)
  | BPolar =>
      exists g, Regex.match_r s = Some g /\
                classify_line ansF ans e = (polar_line ansF ans e g, ans)
  | BParametric =>
      exists c, parametric_line ansF ans e = Some c /\
                classify_line ansF ans e = (c, ans)
  | BDouble =>
      exists A o1 B o2 Cc,
        Regex.match_double s = Some (A, o1, B, o2, Cc) /\
        classify_line ansF ans e = (double_line ansF e A o1 B o2 Cc, ans)
  | BInequality =>
      exists o i, find_cmp s = Some (o, i) /\
                  classify_line ansF ans e = (inequality_line ansF e o i, ans)
  | BImplicit => classify_line ansF ans e = (implicit_line ansF e, ans)
  | BScalar => classify_line ansF ans e = scalar_line ans e
  | BFallback => classify_line ansF ans e = (fallback_line ansF e, ans)
  end.
Proof.
  intros s. unfold chosen, classify_line. fold s.
  destruct (Regex.match_y s) as [g|]; rewrite ?is_some_true, ?is_some_false;
    [eauto|].
  assert (Hrest :
    match
      (if bool_decide (is_Some (Regex.match_double s)) then BDouble
       else if bool_decide (is_Some (find_cmp s)) then BInequality
       else if Guard.implicit s then BImplicit
       else if Guard.scalar s then BScalar else BFallback)
    with
    | BDouble =>
        exists A o1 B o2 Cc,
          Regex.match_double s = Some (A, o1, B, o2, Cc) /\
          classify_rest ansF ans e = (double_line ansF e A o1 B o2 Cc, ans)
    | BInequality =>
        exists o i, find_cmp s = Some (o, i) /\
                    classify_rest ansF ans e = (inequality_line ansF e o i, ans)
    | BImplicit => classify_rest ansF ans e = (implicit_line ansF e, ans)
    | BScalar => classify_rest ansF ans e = scalar_line ans e
    | BFallback => classify_rest ansF ans e = (fallback_line ansF e, ans)
    | _ => False
    end).
  { unfold classify_rest. fold s.
    destruct (Regex.match_double s) as [[[[[A o1] B] o2] Cc]|];
      rewrite ?is_some_true, ?is_some_false; [eauto 10|].
    destruct (find_cmp s) as [[o i]|];
      rewrite ?is_some_true, ?is_some_false; [eauto|].
    destruct (Guard.implicit s); [reflexivity|].
    destruct (Guard.scalar s); reflexivity. }
  assert (Hparam :
    match
      (if Guard.parametric s && truthy_str (xPart (xy_parts s))
          && truthy_str (yPart (xy_parts s)) then BParametric
       else if bool_decide (is_Some (Regex.match_double s)) then BDouble
       else if bool_decide (is_Some (find_cmp s)) then BInequality
       else if Guard.implicit s then BImplicit
       else if Guard.scalar s then BScalar else BFallback)
    with
    | BParametric =>
        exists c, parametric_line ansF ans e = Some c /\
                  match (if Guard.parametric s then parametric_line ansF ans e
                         else None) with
                  | Some c => (c, ans)
                  | None => classify_rest ansF ans e
                  end = (c, ans)
    | BDouble =>
        exists A o1 B o2 Cc,
          Regex.match_double s = Some (A, o1, B, o2, Cc) /\
          match (if Guard.parametric s then parametric_line ansF ans e
                 else None) with
          | Some c => (c, ans)
          | None => classify_rest ansF ans e
          end = (double_line ansF e A o1 B o2 Cc, ans)
    | BInequality =>
        exists o i, find_cmp s = Some (o, i) /\
          match (if Guard.parametric s then parametric_line ansF ans e
                 else None) with
          | Some c => (c, ans)
          | None => classify_rest ansF ans e
          end = (inequality_line ansF e o i, ans)
    | BImplicit =>
          match (if Guard.parametric s then parametric_line ansF ans e
                 else None) with
          | Some c => (c, ans)
          | None => classify_rest ansF ans e
          end = (implicit_line ansF e, ans)
    | BScalar =>
          match (if Guard.parametric s then parametric_line ansF ans e
                 else None) with
          | Some c => (c, ans)
          | None => classify_rest ansF ans e
          end = scalar_line ans e
    | BFallback =>
          match (if Guard.parametric s then parametric_line ansF ans e
                 else None) with
          | Some c => (c, ans)
          | None => classify_rest ansF ans e
          end = (fallback_line ansF e, ans)
    | _ => False
    end).
  { destruct (Guard.parametric s); cbn [andb].
    - unfold parametric_line. fold s.
      destruct (param_parts_xy (line_params e) ans s) as [-> ->].
      destruct (truthy_str (xPart (xy_parts s))
                && truthy_str (yPart (xy_parts s))).
      + destruct (_ ← compile_opt _; _) as [[ax ay]|m]; eauto.
      + revert Hrest. destruct (if bool_decide _ then _ else _); tauto.
    - revert Hrest. destruct (if bool_decide _ then _ else _); tauto. }
  destruct (Guard.hasTh s); cbn [andb].
  - destruct (Regex.match_r s) as [g|];
      rewrite ?is_some_true, ?is_some_false; [eauto|].
    revert Hparam.
    destruct (if Guard.parametric s && _ && _ then _ else _);
      intros H; first [exact H | contradiction].
  - revert Hparam.
    destruct (if Guard.parametric s && _ && _ then _ else _);
      intros H; first [exact H | contradiction].
Qed.

(** *** The kind each branch gives *)

Lemma kind_explicit_y ansF e g : Compiled.kind (explicit_y ansF e g) = explicit.
Proof. unfold explicit_y. destruct (compileExpr g); reflexivity. Qed.

Lemma kind_polar ansF ans e g : Compiled.kind (polar_line ansF ans e g) = polar.
Proof.
  unfold polar_line. destruct (compileExpr g); [|reflexivity].
  destruct (Regex.match_theta_range _) as [[g1 g2]|]; reflexivity.
Qed.

Lemma kind_parametric ansF ans e c :
  parametric_line ansF ans e = Some c -> Compiled.kind c = parametric.
Proof.
  unfold parametric_line. destruct (_ && _); [|discriminate].
  destruct (_ ← compile_opt _; _) as [[ax ay]|m]; intros [= <-]; reflexivity.
Qed.

Lemma kind_double ansF e A o1 B o2 Cc :
  Compiled.kind (double_line ansF e A o1 B o2 Cc) = double_ineq.
Proof.
  unfold double_line.
  destruct (_ ← compileExpr A; _) as [[[a b] c]|m]; reflexivity.
Qed.

Lemma kind_inequality ansF e o i :
  Compiled.kind (inequality_line ansF e o i) = inequality.
Proof.
  unfold inequality_line.
  destruct (_ ← compileExpr _; _) as [[l r]|m]; reflexivity.
Qed.

Lemma op_inequality ansF e o i :
  norm o = Op.le ->
  exists F, Compiled.payload (inequality_line ansF e o i) = Inequality F Op.le.
Proof.
  intros Ho. unfold inequality_line.
  destruct (_ ← compileExpr _; _) as [[l r]|m]; cbn; rewrite ?Ho; eauto.
Qed.

Lemma kind_implicit ansF e : Compiled.kind (implicit_line ansF e) = implicit.
Proof.
  unfold implicit_line.
  destruct (split _ _) as [|l [|r [|x rest]]]; try reflexivity.
  destruct (_ ← compileExpr _; _) as [[a b]|m]; reflexivity.
Qed.

Lemma kind_scalar ans e : Compiled.kind (fst (scalar_line ans e)) = scalar.
Proof. unfold scalar_line. destruct (scalar_eval ans e); reflexivity. Qed.

Lemma kind_fallback ansF e : Compiled.kind (fallback_line ansF e) = explicit.
Proof. unfold fallback_line. destruct (compileExpr _); reflexivity. Qed.

(** The kind of a line is the kind of the branch chosen for it,
    whatever the compiler answers. *)
Lemma classify_kind (ansF ans : num) (e : Expr.t) :
  Compiled.kind (fst (classify_line ansF ans e))
  = branch_kind (chosen (line_src e)).
Proof.
  pose proof (classify_dispatch ansF ans e) as H. cbv zeta in H.
  destruct (chosen (line_src e)); cbn [branch_kind].
  - destruct H as (g & _ & ->). apply kind_explicit_y.
  - destruct H as (g & _ & ->). apply kind_polar.
  - destruct H as (c & Hc & ->). apply (kind_parametric _ _ _ _ Hc).
  - destruct H as (A & o1 & B & o2 & Cc & _ & ->). apply kind_double.
  - destruct H as (o & i & _ & ->). apply kind_inequality.
  - rewrite H. apply kind_implicit.
  - rewrite H. apply kind_scalar.
  - rewrite H. apply kind_fallback.
Qed.

(** *** The register *)

Lemma scalar_line_value ans e :
  scalar_line ans e =
    match scalar_eval ans e with
    | Ok v =>
        (out e (Scalar (if Num.isFinite v then v else NaN)) [],
         if Num.isFinite v then v else ans)
    | Throw m => (out e (Scalar NaN) (err_message m), ans)
    end.
Proof.
  unfold scalar_line. destruct (scalar_eval ans e) as [v|m]; [|reflexivity].
  destruct v; reflexivity.
Qed.

(** Only a calculator line with a finite value changes the register. *)
Lemma classify_register (ansF ans : num) (e : Expr.t) :
  snd (classify_line ansF ans e) =
    match chosen (line_src e), scalar_eval ans e with
    | BScalar, Ok v => if Num.isFinite v then v else ans
    | _, _ => ans
    end.
Proof.
  pose proof (classify_dispatch ansF ans e) as H. cbv zeta in H.
  destruct (chosen (line_src e)).
  - destruct H as (g & _ & ->). reflexivity.
  - destruct H as (g & _ & ->). reflexivity.
  - destruct H as (c & _ & ->). reflexivity.
  - destruct H as (A & o1 & B & o2 & Cc & _ & ->). reflexivity.
  - destruct H as (o & i & _ & ->). reflexivity.
  - rewrite H. reflexivity.
  - rewrite H, scalar_line_value. destruct (scalar_eval ans e); reflexivity.
  - rewrite H. reflexivity.
Qed.

Lemma compile_from_app (ansF : num) (es es' : list Expr.t) :
  forall ans,
    compile_from ansF ans (es ++ es') =
      (fst (compile_from ansF ans es)
       ++ fst (compile_from ansF (snd (compile_from ansF ans es)) es'),
       snd (compile_from ansF (snd (compile_from ansF ans es)) es')).
Proof.
  induction es as [|e es IH]; intros ans; cbn [app compile_from fst snd].
  - destruct (compile_from ansF ans es'); reflexivity.
  - destruct (classify_line ansF ans e) as [c a] eqn:Ec.
    rewrite IH. destruct (compile_from ansF a es) as [cs last].
    reflexivity.
Qed.

Lemma compile_from_length (ansF : num) (es : list Expr.t) :
  forall ans, length (fst (compile_from ansF ans es)) = length es.
Proof.
  induction es as [|e es IH]; intros ans; cbn [compile_from]; [reflexivity|].
  destruct (classify_line ansF ans e) as [c a].
  specialize (IH a). destruct (compile_from ansF a es). cbn in *. congruence.
Qed.

(** The closures capture the register but never run while the lines
    are compiled: the register does not depend on what they see. *)
Lemma register_independent (a1 a2 : num) (es : list Expr.t) :
  forall ans, snd (compile_from a1 ans es) = snd (compile_from a2 ans es).
Proof.
  induction es as [|e es IH]; intros ans; cbn [compile_from]; [reflexivity|].
  pose proof (classify_register a1 ans e) as H1.
  pose proof (classify_register a2 ans e) as H2.
  destruct (classify_line a1 ans e) as [c1 r1].
  destruct (classify_line a2 ans e) as [c2 r2].
  cbn [snd] in H1, H2. rewrite <- H2 in H1. subst r2.
  specialize (IH r1).
  destruct (compile_from a1 r1 es), (compile_from a2 r1 es). exact IH.
Qed.

(** *** Failures of the compiler *)





End ClassifierFacts.

(** ** The range clause of a parametric line *)

Lemma split_free (sep : N) (s : str) :
  Forall (fun p => ~ In sep p) (split sep s).
Proof.
  induction s as [|c s IH]; cbn [split].
  - constructor; [intros [] | constructor].
  - destruct (N.eqb_spec c sep) as [->|Hne].
    + constructor; [intros [] | exact IH].
    + destruct (split sep s) as [|p ps].
      * constructor; [|constructor]. intros [E | []]. congruence.
      * inversion IH as [|? ? Hp Hps]; subst.
        constructor; [|exact Hps]. intros [E | Hin]; [congruence | auto].
Qed.

Lemma split_absent (sep : N) (s : str) : ~ In sep s -> split sep s = [s].
Proof.
  induction s as [|c s IH]; intros H; cbn [split]; [reflexivity|].
  destruct (N.eqb_spec c sep) as [->|Hne].
  - exfalso. apply H. left. reflexivity.
  - rewrite IH; [reflexivity|]. intros Hin. apply H. right. exact Hin.
Qed.

Lemma drop_while_incl (f : N -> bool) (s : str) (c : N) :
  In c (drop_while f s) -> In c s.
Proof.
  induction s as [|d s IH]; cbn [drop_while]; [auto|].
  destruct (f d); [intros H; right; auto | auto].
Qed.

Lemma trim_incl (s : str) (c : N) : In c (trim s) -> In c s.
Proof.
  unfold trim, trimEnd, trimStart. intros H.
  apply in_rev, drop_while_incl, in_rev in H.
  apply drop_while_incl in H. exact H.
Qed.

Lemma slice_incl (i j : nat) (s : str) (c : N) : In c (slice i j s) -> In c s.
Proof.
  unfold slice. intros H.
  rewrite <- (firstn_skipn i s). apply in_or_app. right.
  rewrite <- (firstn_skipn (j - i) (skipn i s)). apply in_or_app. left. exact H.
Qed.

Lemma split_comma_ws_single (p : str) :
  ~ In (ch ",") p -> split_comma_ws p = [p].
Proof. intros H. unfold split_comma_ws. rewrite (split_absent _ _ H). reflexivity. Qed.

Lemma parts_free (s : str) : Forall (fun p => ~ In (ch ",") p) (Guard.parts s).
Proof.
  unfold Guard.parts.
  pose proof (split_free (ch ",") (replace_unit (ch ";") (js ",") s)) as H.
  induction H as [|p l Hp Hl IH]; cbn [map]; constructor; [|exact IH].
  intros Hin. apply Hp, trim_incl, Hin.
Qed.

Section RangeClause.
Context {C : Compiler}.

(** A part holds no comma, so the pattern that splits the two bounds
    finds one piece only and the upper bound is [undefined]. *)
Lemma param_step_tmax params ans st p :
  ~ In (ch ",") p -> tmax (param_step params ans st p) = tmax st.
Proof.
  intros Hp. unfold param_step.
  destruct (startsWith p (js "x=")); [reflexivity|].
  destruct (startsWith p (js "y=")); [reflexivity|].
  destruct (Regex.test_t_range p); [|reflexivity].
  destruct (indexOf p (js "[")) as [lb|]; [|reflexivity].
  destruct (indexOf p (js "]")) as [rb|]; [|reflexivity].
  destruct (lb <? rb)%nat; [|reflexivity].
  rewrite split_comma_ws_single.
  - reflexivity.
  - intros Hin. apply Hp. eapply slice_incl, Hin.
Qed.

Lemma param_parts_tmax params ans s :
  tmax (param_parts params ans s) = ofZ 10.
Proof.
  unfold param_parts.
  assert (H : forall l st,
             Forall (fun p => ~ In (ch ",") p) l ->
             tmax (fold_left (param_step params ans) l st) = tmax st).
  { induction l as [|p l IH]; intros st Hl; cbn [fold_left]; [reflexivity|].
    inversion Hl as [|? ? Hp Hl']; subst.
    rewrite IH by exact Hl'. apply param_step_tmax, Hp. }
  rewrite H by apply parts_free. reflexivity.
Qed.

Lemma parametric_line_tmax ansF ans e c :
  parametric_line ansF ans e = Some c ->
  exists fx fy lo, Compiled.payload c = Parametric fx fy lo (ofZ 10).
Proof.
  unfold parametric_line. destruct (_ && _); [|discriminate].
  destruct (_ ← compile_opt _; _) as [[ax ay]|m]; intros [= <-];
    cbn [Compiled.payload out]; rewrite ?param_parts_tmax; eauto.
Qed.

Lemma classify_tmax ansF ans e :
  match Compiled.payload (fst (classify_line ansF ans e)) with
  | Parametric _ _ _ hi => hi = ofZ 10
  | _ => True
  end.
Proof.
  pose proof (classify_kind ansF ans e) as Hk.
  pose proof (classify_dispatch ansF ans e) as H. cbv zeta in H.
  destruct (chosen (line_src e)); cbn [branch_kind] in Hk;
    unfold Compiled.kind in Hk;
    try (destruct (Compiled.payload _); (discriminate || exact I)).
  destruct H as (c & Hc & ->). cbn [fst].
  destruct (parametric_line_tmax _ _ _ _ Hc) as (fx & fy & lo & ->).
  reflexivity.
Qed.
End RangeClause.

(** C4, as the code has it: the classifier splits a parametric line at
    its commas before it looks for the range clause, so the clause
    [t=[0,2*pi]] reaches it as the part [t=[0], without its closing
    bracket, and is ignored: the example keeps the default range from
    -10 to 10 whatever the compiler answers.  Moreover no part holds a
    comma, so the upper bound of a range is never read: [tmax] is 10 on
    every parametric line. *)
Theorem parametric_range_ignored :
  (forall (C : Compiler) (ansF ans : num),
     exists fx fy,
       Compiled.payload (fst (classify_line ansF ans (line range_example)))
       = Parametric fx fy (ofZ (-10)) (ofZ 10))
  /\ (forall (C : Compiler) (ansF ans : num) (e : Expr.t),
        match Compiled.payload (fst (classify_line ansF ans e)) with
        | Parametric _ _ _ hi => hi = ofZ 10
        | _ => True
        end).
Proof.
  split; [|intros C ansF ans e; apply classify_tmax].
  intros C ansF ans.
  pose proof (classify_dispatch ansF ans (line range_example)) as H.
  cbv zeta in H.
  assert (Hb : chosen (line_src (line range_example)) = BParametric)
    by (vm_compute; reflexivity).
  rewrite Hb in H. destruct H as (c & Hc & ->). cbn [fst].
  revert Hc. unfold parametric_line.
  assert (Hp : param_parts (line_params (line range_example)) ans
                           (line_src (line range_example))
               = {| xPart := Some (js "cos(t)"); yPart := Some (js "sin(t)");
                    tmin := ofZ (-10); tmax := ofZ 10 |})
    by (vm_compute; reflexivity).
  rewrite Hp. cbn [xPart yPart tmin tmax truthy_str andb].
  change (truthy_str (Some (js "cos(t)")) && truthy_str (Some (js "sin(t)")))
    with true.
  cbv iota.
  destruct (_ ← compile_opt _; _) as [[ax ay]|m]; intros [= <-];
    cbn [Compiled.payload out]; eauto.
Qed.

Lemma inequality_le_example (C : Compiler) (ansF ans : num) :
  exists F,
    Compiled.payload (fst (classify_line ansF ans (line (js "x^2+y^2<=4"))))
    = Inequality F Op.le.
Proof.
  pose proof (classify_dispatch ansF ans (line (js "x^2+y^2<=4"))) as H.
  cbv zeta in H.
  assert (Hb : chosen (line_src (line (js "x^2+y^2<=4"))) = BInequality)
    by (vm_compute; reflexivity).
  rewrite Hb in H. destruct H as (o & i & Hcmp & ->). cbn [fst].
  assert (Ho : find_cmp (line_src (line (js "x^2+y^2<=4"))) = Some (js "<=", 7%nat))
    by (vm_compute; reflexivity).
  rewrite Ho in Hcmp. injection Hcmp as <- <-.
  apply op_inequality. reflexivity.
Qed.

(** C1: the eight example lines receive the kinds the specification
    lists, whatever the compiler answers on their texts: [y = x^2]
    explicit, [x^2+y^2=4] implicit, [x^2+y^2<=4] inequality with
    operator [le], [1<=x^2+y^2<=4] double inequality (the tag
    [double-ineq] of the source), the parametric and polar examples,
    [2+3*4] scalar, and [sin(x)] explicit through the fallback branch;
    with the reference compiler the value of [2+3*4] is 14. *)
Theorem classifier_examples :
  (forall (C : Compiler) (ansF ans : num),
     let kind_of := fun s : string =>
       Compiled.kind (fst (classify_line ansF ans (line (js s)))) in
     kind_of "y = x^2"%string = explicit
     /\ kind_of "x^2+y^2=4"%string = implicit
     /\ kind_of "x^2+y^2<=4"%string = inequality
     /\ (exists F,
           Compiled.payload
             (fst (classify_line ansF ans (line (js "x^2+y^2<=4"))))
           = Inequality F Op.le)
     /\ kind_of "1<=x^2+y^2<=4"%string = double_ineq
     /\ kind_of "x=cos(t), y=sin(t), t=[0,2*pi]"%string = parametric
     /\ kind_of "r=1+0.5*cos(theta)"%string = polar
     /\ kind_of "2+3*4"%string = scalar
     /\ kind_of "sin(x)"%string = explicit
     /\ chosen (line_src (line (js "sin(x)"))) = BFallback)
  /\ (forall (math : str -> list num -> num) (ansF ans : num),
        Compiled.payload
          (fst (classify_line (C := ExprEval.compiler math) ansF ans
                              (line (js "2+3*4"))))
        = Scalar (Fin 14)).
Proof.
  split.
  - intros C ansF ans kind_of. subst kind_of. cbv beta.
    rewrite !classify_kind.
    repeat split; try (vm_compute; reflexivity).
    apply inequality_le_example.
  - intros math ansF ans. vm_compute. reflexivity.
Qed.

(** C2: the register starts at 0 and is threaded through the lines in
    order.  It does not depend on what the closures capture; the line
    at a position is compiled against the register left by the lines
    before it; a calculator line has the value of its evaluation
    against that register (NaN when the evaluation throws or is not
    finite); the register after a line is the finite value of a
    calculator line and is unchanged in every other case.  With the
    reference compiler the lines [2+3*4] and [ans+1] have the values
    14 and 15. *)
Theorem running_result_register :
  (forall (C : Compiler) (ansF : num) (es rest : list Expr.t) (e : Expr.t),
     let register := fun l : list Expr.t => snd (compile_from ansF zero l) in
     register [] = zero
     /\ register es = final_ans es
     /\ nth_error (fst (compile_from ansF zero (es ++ e :: rest))) (length es)
        = Some (fst (classify_line ansF (register es) e))
     /\ (chosen (line_src e) = BScalar ->
         Compiled.payload (fst (classify_line ansF (register es) e))
         = Scalar match scalar_eval (register es) e with
                  | Ok v => if Num.isFinite v then v else NaN
                  | Throw _ => NaN
                  end)
     /\ register (es ++ [e])
        = match chosen (line_src e), scalar_eval (register es) e with
          | BScalar, Ok v => if Num.isFinite v then v else register es
          | _, _ => register es
          end)
  /\ (forall math : str -> list num -> num,
        map Compiled.payload
            (compiled (C := ExprEval.compiler math)
                      [line (js "2+3*4"); line (js "ans+1")])
        = [Scalar (Fin 14); Scalar (Fin 15)]).
Proof.
  split.
  - intros C ansF es rest e register. subst register. cbv beta.
    split; [reflexivity|].
    split; [apply register_independent|].
    split; [|split].
    + rewrite compile_from_app. cbn [fst].
      rewrite nth_error_app2 by (rewrite compile_from_length; lia).
      rewrite compile_from_length, Nat.sub_diag.
      cbn [compile_from].
      destruct (classify_line ansF _ e) as [c a].
      destruct (compile_from ansF a rest). reflexivity.
    + intros Hb.
      pose proof (classify_dispatch ansF (snd (compile_from ansF zero es)) e) as H.
      cbv zeta in H. rewrite Hb in H. rewrite H, scalar_line_value.
      destruct (scalar_eval _ e); reflexivity.
    + rewrite compile_from_app. cbn [snd compile_from].
      pose proof (classify_register ansF (snd (compile_from ansF zero es)) e) as H.
      destruct (classify_line ansF _ e) as [c a]. cbn [snd] in *. exact H.
  - intros math. vm_compute. reflexivity.
Qed.

Lemma running_result_register_witness :
  let C := ExprEval.compiler ExprEval.no_math in
  let e := line (js "ans+1") in
  let es := [line (js "2+3*4")] in
  chosen (line_src e) = BScalar /\
  Compiled.payload
    (fst (classify_line zero (snd (compile_from zero zero es)) e))
  = Scalar (Fin 15).
Proof.
  intros C e es.
  assert (Hb : chosen (line_src e) = BScalar) by (vm_compute; reflexivity).
  split; [exact Hb|].
  rewrite (proj1 (proj2 (proj2 (proj2
             (proj1 running_result_register C zero es [] e)))) Hb).
  vm_compute. reflexivity.
Defined.




(** ** Free parameters and the frame of a compiled line *)

Lemma str_eqb_eq (a b : str) : Str.eqb a b = true <-> a = b.
Proof.
  revert b. induction a as [|x a IH]; intros [|y b]; cbn [Str.eqb];
    try (split; (discriminate || reflexivity)).
  rewrite andb_true_iff, N.eqb_eq, IH. split.
  - intros [-> ->]. reflexivity.
  - intros [= -> ->]. split; reflexivity.
Qed.

Lemma mem_In (w : str) (l : list str) : mem w l = true <-> In w l.
Proof.
  unfold mem. rewrite existsb_exists. split.
  - intros (x & Hx & E). apply str_eqb_eq in E. subst. exact Hx.
  - intros H. exists w. split; [exact H | apply str_eqb_eq; reflexivity].
Qed.

Lemma mem_false (w : str) (l : list str) : mem w l = false <-> ~ In w l.
Proof.
  rewrite <- mem_In. destruct (mem w l); split; intros; congruence.
Qed.

(** The loop of [detectParams] from any set built so far. *)
Lemma detect_fold (ids : list str) :
  forall out : list str,
    NoDup out ->
    let res := fold_left
                 (fun out name =>
                    if mem name RESERVED then out
                    else if mem name out then out else out ++ [name])
                 ids out in
    NoDup res /\
    forall n, In n res <-> In n out \/ (In n ids /\ mem n RESERVED = false).
Proof.
  induction ids as [|i ids IH]; intros out Hnd; cbn [fold_left].
  - split; [exact Hnd|]. intros n. cbn. tauto.
  - destruct (mem i RESERVED) eqn:Hr.
    + destruct (IH out Hnd) as [H1 H2]. split; [exact H1|].
      intros n. rewrite H2. cbn [In]. split; [tauto|].
      intros [H | [[<- | H] Hn]]; [tauto | congruence | tauto].
    + destruct (mem i out) eqn:Ho.
      * destruct (IH out Hnd) as [H1 H2]. split; [exact H1|].
        intros n. rewrite H2. cbn [In]. apply mem_In in Ho. split; [tauto|].
        intros [H | [[<- | H] Hn]]; tauto.
      * apply mem_false in Ho.
        assert (Hnd' : NoDup (out ++ [i])).
        { apply NoDup_app. split; [exact Hnd|]. split; [|apply NoDup_singleton].
          intros x Hx%list_elem_of_In Hi%list_elem_of_singleton. congruence. }
        destruct (IH (out ++ [i]) Hnd') as [H1 H2]. split; [exact H1|].
        intros n. rewrite H2, in_app_iff. cbn [In]. split.
        -- intros [[H | [<- | []]] | [H Hn]]; tauto.
        -- intros [H | [[<- | H] Hn]]; tauto.
Qed.

(** What [identifiers] reads is made of word characters and does not
    begin with a digit. *)
Lemma ident_start_word (c : N) : ident_start c = true -> is_word c = true.
Proof.
  unfold ident_start, is_word. change (ch "_") with 95%N.
  intros [H | H]%orb_true_iff; rewrite H; [reflexivity | apply orb_true_r].
Qed.

Lemma identifiers_shape (s : str) :
  forall (cur : option str),
    (forall w, cur = Some w ->
               exists c w', rev w = c :: w' /\ ident_start c = true /\
                            forallb is_word (rev w) = true) ->
    forall n, In n (identifiers cur s) ->
              exists c n', n = c :: n' /\ ident_start c = true /\
                           forallb is_word n = true.
Proof.
  induction s as [|c s IH]; intros cur Hcur n; cbn [identifiers].
  - destruct cur as [w|]; [|intros []].
    intros [<- | []]. apply Hcur. reflexivity.
  - destruct cur as [w|].
    + destruct (is_word c) eqn:Hw.
      * apply IH. intros w' [= <-].
        destruct (Hcur w eq_refl) as (c0 & w0 & E & Hs & Hall).
        cbn [rev]. rewrite E. exists c0, (w0 ++ [c]). split; [reflexivity|].
        split; [exact Hs|]. rewrite <- E, forallb_app, Hall. cbn. rewrite Hw.
        reflexivity.
      * intros [<- | H]; [apply Hcur; reflexivity|].
        revert H. apply IH. intros w' [=].
    + fold (ident_start c). destruct (ident_start c) eqn:Hs.
      * apply IH. intros w' [= <-]. exists c, []. split; [reflexivity|].
        split; [exact Hs|]. cbn [rev app forallb].
        rewrite (ident_start_word c Hs). reflexivity.
      * apply IH. intros w' [=].
Qed.

Lemma detectParams_nodup (src : str) : NoDup (detectParams src).
Proof.
  unfold detectParams.
  apply (detect_fold (identifiers None src) [] (NoDup_nil_2)).
Qed.

Lemma detectParams_in (src n : str) :
  In n (detectParams src) <->
  In n (identifiers None src) /\ ~ In n RESERVED.
Proof.
  unfold detectParams.
  destruct (detect_fold (identifiers None src) [] (NoDup_nil_2)) as [_ H2].
  cbv zeta in H2. rewrite H2, mem_false. cbn [In]. tauto.
Qed.

(** X1: [detectParams] lists each identifier of the text that is not a
    reserved name, once: the list has no duplicate, a name is in it
    exactly when the scan of the text reads it and it is not reserved,
    and every name begins with a letter or an underscore and is made
    of letters, digits and underscores. *)
Theorem detectParams_spec (src : str) :
  NoDup (detectParams src)
  /\ (forall n, In n (detectParams src) <->
                In n (identifiers None src) /\ ~ In n RESERVED)
  /\ (forall n, In n (detectParams src) ->
                exists c n', n = c :: n' /\ ident_start c = true /\
                             forallb is_word n = true).
Proof.
  split; [apply detectParams_nodup|]. split; [apply detectParams_in|].
  intros n Hn. apply detectParams_in in Hn as [Hn _].
  apply (identifiers_shape src None); [intros w [=] | exact Hn].
Qed.

Section CompiledFacts.
Context {C : Compiler}.

Lemma err_message_nonempty (m : str) : err_message m <> [].
Proof. unfold err_message. destruct m; cbn; discriminate. Qed.

(** Every branch builds its output with [out]: the line itself, its
    parameters and their names are carried over. *)
Lemma classify_fields (ansF ans : num) (e : Expr.t) :
  let c := fst (classify_line ansF ans e) in
  Compiled.expr c = e /\ Compiled.params c = line_params e /\
  Compiled.paramNames c = line_names e.
Proof.
  pose proof (classify_dispatch ansF ans e) as H. cbv zeta in H |- *.
  destruct (chosen (line_src e)).
  - destruct H as (g & _ & ->). cbn [fst]. unfold explicit_y.
    destruct (compileExpr g); repeat split.
  - destruct H as (g & _ & ->). cbn [fst]. unfold polar_line.
    destruct (compileExpr g); [|repeat split].
    destruct (Regex.match_theta_range _) as [[g1 g2]|]; repeat split.
  - destruct H as (c & Hc & ->). cbn [fst]. revert Hc.
    unfold parametric_line. destruct (_ && _); [|discriminate].
    destruct (_ ← compile_opt _; _) as [[ax ay]|m]; intros [= <-];
      repeat split.
  - destruct H as (A & o1 & B & o2 & Cc & _ & ->). cbn [fst].
    unfold double_line.
    destruct (_ ← compileExpr A; _) as [[[a b] c]|m]; repeat split.
  - destruct H as (o & i & _ & ->). cbn [fst]. unfold inequality_line.
    destruct (_ ← compileExpr _; _) as [[l r]|m]; repeat split.
  - rewrite H. cbn [fst]. unfold implicit_line.
    destruct (split _ _) as [|l [|r [|x rest]]];
      try (split; [|split]; reflexivity).
    destruct (_ ← compileExpr _; _) as [[a b]|m]; repeat split.
  - rewrite H, scalar_line_value. destruct (scalar_eval ans e); repeat split.
  - rewrite H. cbn [fst]. unfold fallback_line.
    destruct (compileExpr _); repeat split.
Qed.

Lemma compile_from_exprs (ansF : num) (es : list Expr.t) :
  forall ans, map Compiled.expr (fst (compile_from ansF ans es)) = es.
Proof.
  induction es as [|e es IH]; intros ans; cbn [compile_from]; [reflexivity|].
  pose proof (classify_fields ansF ans e) as (He & _).
  destruct (classify_line ansF ans e) as [c a]. cbn [fst] in He.
  specialize (IH a). destruct (compile_from ansF a es) as [cs last].
  cbn [fst map] in *. congruence.
Qed.

Lemma compile_from_member (ansF : num) (es : list Expr.t) :
  forall ans c,
    In c (fst (compile_from ansF ans es)) ->
    exists ans', c = fst (classify_line ansF ans' (Compiled.expr c)).
Proof.
  induction es as [|e es IH]; intros ans c; cbn [compile_from]; [intros []|].
  pose proof (classify_fields ansF ans e) as (He & _).
  destruct (classify_line ansF ans e) as [c0 a] eqn:Ec. cbn [fst] in He.
  specialize (IH a c). destruct (compile_from ansF a es) as [cs last].
  cbn [fst] in *. intros [<- | Hin]; [|auto].
  exists ans. rewrite He, Ec. reflexivity.
Qed.

(** X2: [compiled] gives one output per line, in the order of the
    lines; each output carries its line unchanged, the names
    [detectParams] finds in its text, and its parameter bindings. *)
Theorem compiled_frame (es : list Expr.t) :
  map Compiled.expr (compiled es) = es
  /\ length (compiled es) = length es
  /\ forall c, In c (compiled es) ->
               Compiled.paramNames c = detectParams (Expr.src (Compiled.expr c))
               /\ Compiled.params c = line_params (Compiled.expr c).
Proof.
  unfold compiled. split; [apply compile_from_exprs|].
  split; [apply compile_from_length|].
  intros c Hc. apply compile_from_member in Hc as (ans' & E).
  pose proof (classify_fields (final_ans es) ans' (Compiled.expr c)) as (_ & Hp & Hn).
  cbv zeta in Hp, Hn. rewrite <- E in Hp, Hn. split; assumption.
Qed.

(** X3: every free parameter of a line is bound when the line is
    compiled: a name the line sets keeps the value the line gives it,
    a detected name the line does not set is bound to 1, and no other
    name is bound. *)
Theorem compiled_params_binding (ansF ans : num) (e : Expr.t) (n : str) :
  let c := fst (classify_line ansF ans e) in
  Compiled.params c !! n =
    match Expr.params e !! n with
    | Some v => Some v
    | None => if mem n (Compiled.paramNames c) then Some (ofZ 1) else None
    end.
Proof.
  pose proof (classify_fields ansF ans e) as (_ & Hp & Hn).
  cbv zeta in *. rewrite Hp, Hn. unfold line_params.
  rewrite lookup_union. destruct (Expr.params e !! n) as [v|]; cbn.
  { destruct (list_to_map _ !! n); reflexivity. }
  destruct (mem n (line_names e)) eqn:Hm.
  - apply mem_In in Hm.
    rewrite (elem_of_list_to_map_1 _ n (ofZ 1)); [reflexivity | |].
    + rewrite <- list_fmap_compose. cbn.
      rewrite list_fmap_id. apply detectParams_nodup.
    + apply list_elem_of_fmap. exists n. split; [reflexivity|].
      apply list_elem_of_In. exact Hm.
  - apply mem_false in Hm.
    rewrite (not_elem_of_list_to_map_1 _ n); [reflexivity|].
    rewrite <- list_fmap_compose. cbn. rewrite list_fmap_id.
    intros Hin%list_elem_of_In. contradiction.
Qed.

Lemma classify_all_or_nothing (ansF ans : num) (e : Expr.t) :
  let c := fst (classify_line ansF ans e) in
  (Compiled.error c = [] /\ full_payload (Compiled.payload c) = true)
  \/ (Compiled.error c <> [] /\ blank_payload (Compiled.payload c)).
Proof.
  pose proof (classify_dispatch ansF ans e) as H. cbv zeta in H |- *.
  assert (Hne : forall m, err_message m <> []) by apply err_message_nonempty.
  destruct (chosen (line_src e)).
  - destruct H as (g & _ & ->). cbn [fst]. unfold explicit_y.
    destruct (compileExpr g); [left | right]; cbn; auto.
  - destruct H as (g & _ & ->). cbn [fst]. unfold polar_line.
    destruct (compileExpr g); [left | right; cbn; auto].
    destruct (Regex.match_theta_range _) as [[g1 g2]|]; cbn; auto.
  - destruct H as (c & Hc & ->). cbn [fst]. revert Hc.
    unfold parametric_line. destruct (_ && _); [|discriminate].
    destruct (_ ← compile_opt _; _) as [[ax ay]|m]; intros [= <-];
      [left | right]; cbn; auto.
  - destruct H as (A & o1 & B & o2 & Cc & _ & ->). cbn [fst].
    unfold double_line.
    destruct (_ ← compileExpr A; _) as [[[a b] c]|m]; [left | right];
      cbn; auto.
  - destruct H as (o & i & _ & ->). cbn [fst]. unfold inequality_line.
    destruct (_ ← compileExpr _; _) as [[l r]|m]; [left | right]; cbn; auto.
  - rewrite H. cbn [fst]. unfold implicit_line.
    destruct (split _ _) as [|l [|r [|x rest]]];
      try (right; cbn; split; [discriminate | reflexivity]).
    destruct (_ ← compileExpr _; _) as [[a b]|m]; [left | right]; cbn; auto.
  - rewrite H, scalar_line_value.
    destruct (scalar_eval ans e) as [v|m]; [left | right]; cbn; auto.
    destruct v; cbn; auto.
  - rewrite H. cbn [fst]. unfold fallback_line.
    destruct (compileExpr _); [left | right]; cbn; auto.
Qed.

(** X4: a compiled line is never half built.  Either it has no message
    and every function of its kind (for a calculator line: a value that
    is finite or NaN, never an infinity), or it has a message, no
    function at all, the default ranges and operators of its kind, and
    the value NaN. *)
Theorem compiled_all_or_nothing (es : list Expr.t) (c : Compiled.t) :
  In c (compiled es) ->
  (Compiled.error c = [] /\ full_payload (Compiled.payload c) = true)
  \/ (Compiled.error c <> [] /\ blank_payload (Compiled.payload c)).
Proof.
  intros Hc. apply compile_from_member in Hc as (ans' & E).
  rewrite E. apply classify_all_or_nothing.
Qed.

Lemma classify_explicit_fn (ansF ans : num) (e : Expr.t) (g : str) (a : ast) :
  Regex.match_y (line_src e) = Some g -> compileExpr g = Ok a ->
  Compiled.fn (fst (classify_line ansF ans e))
  = Some (fn1 (js "x") a (line_params e) ansF).
Proof.
  intros Hg Ha. unfold classify_line. rewrite Hg. cbn [fst].
  unfold explicit_y. rewrite Ha. reflexivity.
Qed.

(** X5: the function of a line [y = g] reads the register as it stands
    after the last line, wherever the line is in the list: a calculator
    line below it changes what it plots. *)
Theorem explicit_reads_final_register
  (es : list Expr.t) (c : Compiled.t) (g : str) (a : ast) :
  In c (compiled es) ->
  Regex.match_y (line_src (Compiled.expr c)) = Some g ->
  compileExpr g = Ok a ->
  exists f, Compiled.fn c = Some f /\
    forall x, f x = nan_on_throw
                      (evaluate a (<[js "x" := x]>
                                     (<[js "ans" := final_ans es]>
                                        (Compiled.params c)))).
Proof.
  intros Hc Hg Ha.
  apply compile_from_member in Hc as (ans' & E).
  pose proof (classify_fields (final_ans es) ans' (Compiled.expr c))
    as (_ & Hp & _).
  cbv zeta in Hp. rewrite <- E in Hp.
  exists (fn1 (js "x") a (line_params (Compiled.expr c)) (final_ans es)).
  split.
  - remember (Compiled.expr c) as e eqn:He. rewrite E.
    apply (classify_explicit_fn _ _ _ g a); assumption.
  - intros x. rewrite Hp. reflexivity.
Qed.
End CompiledFacts.

(** ** Moving the viewport *)

Lemma add_fin (x y : Q) : Num.add (Fin x) (Fin y) = Fin (Qred (x + y)).
Proof. reflexivity. Qed.

Lemma sub_fin (x y : Q) : Num.sub (Fin x) (Fin y) = Fin (Qred (x + Qred (- y))).
Proof. reflexivity. Qed.

Lemma mul_fin (x y : Q) : Num.mul (Fin x) (Fin y) = Fin (Qred (x * y)).
Proof. reflexivity. Qed.

Lemma ltb_fin (x y : Q) : x < y -> Num.ltb (Fin x) (Fin y) = true.
Proof.
  intros H. unfold Num.ltb. apply Qlt_alt in H.
  change (Qcompare x y = Lt) in H. rewrite H. reflexivity.
Qed.

Ltac fin_ops :=
  repeat first [rewrite add_fin | rewrite sub_fin | rewrite mul_fin].

Lemma zoomAround_fin (x0 x1 y0 y1 x y z : Q) :
  x0 < x1 -> y0 < y1 ->
  exists x0' x1' y0' y1',
    zoomAround (Fin x) (Fin y) (Fin z) (view_of x0 x1 y0 y1)
    = view_of x0' x1' y0' y1' /\
    x0' == x - (x - x0) * z /\ x1' == x + (x1 - x) * z /\
    y0' == y - (y - y0) * z /\ y1' == y + (y1 - y) * z.
Proof.
  intros Hx Hy. unfold zoomAround, view_of. cbn [xMin xMax yMin yMax].
  assert (Hdx : ~ Qred (x1 + Qred (- x0)) == 0).
  { rewrite !Qred_correct. lra. }
  assert (Hdy : ~ Qred (y1 + Qred (- y0)) == 0).
  { rewrite !Qred_correct. lra. }
  fin_ops. rewrite (div_fin _ _ Hdx), (div_fin _ _ Hdy). fin_ops.
  do 4 eexists. split; [reflexivity|].
  rewrite !Qred_correct in *.
  repeat split; field; lra.
Qed.

Lemma xToPx_fin (x0 x1 y0 y1 W H x : Q) :
  x0 < x1 ->
  exists p, xToPx (view_transform (view_of x0 x1 y0 y1) (Fin W) (Fin H)) (Fin x)
            = Fin p /\ p == (x - x0) * (W / (x1 - x0)).
Proof.
  intros Hx. unfold view_transform, view_of, makeTransform.
  cbn [xMin xMax yMin yMax xToPx].
  assert (Hdx : ~ Qred (x1 + Qred (- x0)) == 0).
  { rewrite !Qred_correct. lra. }
  fin_ops. rewrite (div_fin _ _ Hdx). fin_ops.
  eexists. split; [reflexivity|]. rewrite !Qred_correct. field. lra.
Qed.

Lemma yToPx_fin (x0 x1 y0 y1 W H y : Q) :
  y0 < y1 ->
  exists p, yToPx (view_transform (view_of x0 x1 y0 y1) (Fin W) (Fin H)) (Fin y)
            = Fin p /\ p == H - (y - y0) * (H / (y1 - y0)).
Proof.
  intros Hy. unfold view_transform, view_of, makeTransform.
  cbn [xMin xMax yMin yMax yToPx].
  assert (Hdy : ~ Qred (y1 + Qred (- y0)) == 0).
  { rewrite !Qred_correct. lra. }
  fin_ops. rewrite (div_fin _ _ Hdy). fin_ops.
  eexists. split; [reflexivity|]. rewrite !Qred_correct. field. lra.
Qed.

Lemma pxToX_fin (x0 x1 y0 y1 W H px : Q) :
  x0 < x1 -> 0 < W ->
  exists x, pxToX (view_transform (view_of x0 x1 y0 y1) (Fin W) (Fin H)) (Fin px)
            = Fin x /\ x == x0 + px * (x1 - x0) / W.
Proof.
  intros Hx HW. unfold view_transform, view_of, makeTransform.
  cbn [xMin xMax yMin yMax pxToX].
  assert (Hdx : ~ Qred (x1 + Qred (- x0)) == 0).
  { rewrite !Qred_correct. lra. }
  assert (Hsx : ~ Qred (W / Qred (x1 + Qred (- x0))) == 0).
  { rewrite !Qred_correct. intros E.
    assert (0 < W / (x1 + - x0)) by (apply Qlt_shift_div_l; lra). lra. }
  fin_ops. rewrite (div_fin _ _ Hdx), (div_fin _ _ Hsx). fin_ops.
  eexists. split; [reflexivity|]. rewrite !Qred_correct. field. lra.
Qed.

Lemma pxToY_fin (x0 x1 y0 y1 W H py : Q) :
  y0 < y1 -> 0 < H ->
  exists y, pxToY (view_transform (view_of x0 x1 y0 y1) (Fin W) (Fin H)) (Fin py)
            = Fin y /\ y == y0 + (H - py) * (y1 - y0) / H.
Proof.
  intros Hy HH. unfold view_transform, view_of, makeTransform.
  cbn [xMin xMax yMin yMax pxToY].
  assert (Hdy : ~ Qred (y1 + Qred (- y0)) == 0).
  { rewrite !Qred_correct. lra. }
  assert (Hsy : ~ Qred (H / Qred (y1 + Qred (- y0))) == 0).
  { rewrite !Qred_correct. intros E.
    assert (0 < H / (y1 + - y0)) by (apply Qlt_shift_div_l; lra). lra. }
  fin_ops. rewrite (div_fin _ _ Hdy), (div_fin _ _ Hsy). fin_ops.
  eexists. split; [reflexivity|]. rewrite !Qred_correct. field. lra.
Qed.

Lemma scaled_lt (a b z : Q) : a < b -> 0 < z -> 0 < (b - a) * z.
Proof. intros H Hz. apply Qmult_lt_0_compat; lra. Qed.

(** X6: [zoomAround(x, y, zoom)] with a positive factor on a view with
    [xMin < xMax] and [yMin < yMax] keeps the bounds in order, scales
    the width and the height of the view by the factor, and leaves the
    point [(x, y)] at the pixel where it was, on a canvas of any
    positive size. *)
Theorem zoomAround_anchor (x0 x1 y0 y1 x y z W H : Q) :
  x0 < x1 -> y0 < y1 -> 0 < z -> 0 < W -> 0 < H ->
  let v := view_of x0 x1 y0 y1 in
  let v' := zoomAround (Fin x) (Fin y) (Fin z) v in
  let t := view_transform v (Fin W) (Fin H) in
  let t' := view_transform v' (Fin W) (Fin H) in
  Num.ltb (xMin v') (xMax v') = true /\ Num.ltb (yMin v') (yMax v') = true
  /\ Num.sub (xMax v') (xMin v') ≃ Fin ((x1 - x0) * z)
  /\ Num.sub (yMax v') (yMin v') ≃ Fin ((y1 - y0) * z)
  /\ xToPx t' (Fin x) ≃ xToPx t (Fin x)
  /\ yToPx t' (Fin y) ≃ yToPx t (Fin y).
Proof.
  intros Hx Hy Hz HW HH v v' t t'.
  destruct (zoomAround_fin x0 x1 y0 y1 x y z Hx Hy)
    as (a0 & a1 & b0 & b1 & E & Ea0 & Ea1 & Eb0 & Eb1).
  pose proof (scaled_lt x0 x1 z Hx Hz) as Hsx.
  pose proof (scaled_lt y0 y1 z Hy Hz) as Hsy.
  assert (Ha : a0 < a1) by (rewrite Ea0, Ea1; lra).
  assert (Hb : b0 < b1) by (rewrite Eb0, Eb1; lra).
  subst t t' v'. unfold v. rewrite E. clear E.
  destruct (xToPx_fin a0 a1 b0 b1 W H x Ha) as (p' & -> & Ep').
  destruct (xToPx_fin x0 x1 y0 y1 W H x Hx) as (p & -> & Ep).
  destruct (yToPx_fin a0 a1 b0 b1 W H y Hb) as (q' & -> & Eq').
  destruct (yToPx_fin x0 x1 y0 y1 W H y Hy) as (q & -> & Eq).
  cbn [view_of xMin xMax yMin yMax]. fin_ops. cbn [Num.same].
  rewrite !Qred_correct.
  split; [apply ltb_fin, Ha|]. split; [apply ltb_fin, Hb|].
  split; [rewrite Ea0, Ea1; ring|]. split; [rewrite Eb0, Eb1; ring|].
  split.
  - rewrite Ep', Ep, Ea0, Ea1. field. split; [lra|].
    intros E0. assert ((x1 - x0) * z == 0) by (rewrite <- E0; ring). lra.
  - rewrite Eq', Eq, Eb0, Eb1. field. split; [lra|].
    intros E0. assert ((y1 - y0) * z == 0) by (rewrite <- E0; ring). lra.
Qed.


Lemma scale_fin (W a b : Q) :
  a < b -> 0 < W ->
  exists s, Num.div (Fin W) (Num.sub (Fin b) (Fin a)) = Fin s /\
            s == W / (b - a) /\ 0 < s.
Proof.
  intros Hab HW.
  assert (Hd : ~ Qred (b + Qred (- a)) == 0).
  { rewrite !Qred_correct. lra. }
  fin_ops. rewrite (div_fin _ _ Hd). eexists. split; [reflexivity|].
  rewrite !Qred_correct. split; [field; lra|].
  apply Qlt_shift_div_l; lra.
Qed.

(** X8: a drag by [dxPx], [dyPx] pixels moves the view with the
    pointer: the data point that was under the pixel [(px, py)] is
    under [(px + dxPx, py + dyPx)] afterwards, and the width and the
    height of the view do not change. *)
Theorem drag_follows_pointer (x0 x1 y0 y1 px py dxPx dyPx W H : Q) :
  x0 < x1 -> y0 < y1 -> 0 < W -> 0 < H ->
  let v := view_of x0 x1 y0 y1 in
  let v' := drag (Fin dxPx) (Fin dyPx) (Fin W) (Fin H) v v in
  let t := view_transform v (Fin W) (Fin H) in
  let t' := view_transform v' (Fin W) (Fin H) in
  xToPx t' (pxToX t (Fin px)) ≃ Fin (px + dxPx)
  /\ yToPx t' (pxToY t (Fin py)) ≃ Fin (py + dyPx)
  /\ extent (xMin v') (xMax v') ≃ extent (xMin v) (xMax v)
  /\ extent (yMin v') (yMax v') ≃ extent (yMin v) (yMax v).
Proof.
  intros Hx Hy HW HH v v' t t'.
  destruct (scale_fin W x0 x1 Hx HW) as (sx & Esx & Hsx & Hsx0).
  destruct (scale_fin H y0 y1 Hy HH) as (sy & Esy & Hsy & Hsy0).
  assert (Nsx : ~ sx == 0) by lra. assert (Nsy : ~ sy == 0) by lra.
  assert (Ev' : exists a0 a1 b0 b1,
             v' = view_of a0 a1 b0 b1 /\
             a0 == x0 - dxPx * (x1 - x0) / W /\
             a1 == x1 - dxPx * (x1 - x0) / W /\
             b0 == y0 + dyPx * (y1 - y0) / H /\
             b1 == y1 + dyPx * (y1 - y0) / H).
  { subst v'. unfold drag, view_transform, v, view_of, makeTransform.
    cbn [xMin xMax yMin yMax xScale yScale]. rewrite Esx, Esy.
    unfold Num.neg. rewrite (div_fin _ _ Nsx), (div_fin _ _ Nsy). fin_ops.
    do 4 eexists. split; [reflexivity|]. rewrite !Qred_correct.
    rewrite Hsx, Hsy. repeat split; field; repeat split; lra. }
  destruct Ev' as (a0 & a1 & b0 & b1 & Ev' & Ea0 & Ea1 & Eb0 & Eb1).
  assert (Ha : a0 < a1) by (rewrite Ea0, Ea1; lra).
  assert (Hb : b0 < b1) by (rewrite Eb0, Eb1; lra).
  subst t t'. rewrite Ev'. unfold v.
  destruct (pxToX_fin x0 x1 y0 y1 W H px Hx HW) as (x & -> & Ex).
  destruct (pxToY_fin x0 x1 y0 y1 W H py Hy HH) as (y & -> & Ey).
  destruct (xToPx_fin a0 a1 b0 b1 W H x Ha) as (p & -> & Ep).
  destruct (yToPx_fin a0 a1 b0 b1 W H y Hb) as (q & -> & Eq).
  unfold extent. cbn [view_of xMin xMax yMin yMax]. fin_ops. cbn [Num.same].
  rewrite !Qred_correct.
  assert (Eda : a1 - a0 == x1 - x0) by (rewrite Ea0, Ea1; ring).
  assert (Edb : b1 - b0 == y1 - y0) by (rewrite Eb0, Eb1; ring).
  split; [rewrite Ep, Eda, Ea0, Ex; field; lra|].
  split; [rewrite Eq, Edb, Eb0, Ey; field; lra|].
  split; [rewrite Ea0, Ea1; ring | rewrite Eb0, Eb1; ring].
Qed.

Lemma two_nonzero : ~ inject_Z 2 == 0.
Proof. discriminate. Qed.

Lemma centre_fin (a b : Q) :
  exists c, centre (Fin a) (Fin b) = Fin c /\ c == (a + b) / 2.
Proof.
  unfold centre, ofZ. fin_ops. rewrite (div_fin _ _ two_nonzero).
  eexists. split; [reflexivity|]. rewrite !Qred_correct. reflexivity.
Qed.

(** X9: [centerOn(x, y)] puts the middle of the view, with finite
    bounds, at [(x, y)] and keeps its width and its height. *)
Theorem centerOn_spec (x0 x1 y0 y1 x y : Q) :
  let v := view_of x0 x1 y0 y1 in
  let v' := centerOn (Fin x) (Fin y) v in
  centre (xMin v') (xMax v') ≃ Fin x
  /\ centre (yMin v') (yMax v') ≃ Fin y
  /\ extent (xMin v') (xMax v') ≃ extent (xMin v) (xMax v)
  /\ extent (yMin v') (yMax v') ≃ extent (yMin v) (yMax v).
Proof.
  intros v v'.
  assert (Ev' : exists a0 a1 b0 b1,
             v' = view_of a0 a1 b0 b1 /\
             a0 == x - (x1 - x0) / 2 /\ a1 == x + (x1 - x0) / 2 /\
             b0 == y - (y1 - y0) / 2 /\ b1 == y + (y1 - y0) / 2).
  { subst v'. unfold centerOn, v, view_of, ofZ. cbn [xMin xMax yMin yMax].
    fin_ops. rewrite !(div_fin _ _ two_nonzero). fin_ops.
    do 4 eexists. split; [reflexivity|]. rewrite !Qred_correct.
    repeat split; reflexivity. }
  destruct Ev' as (a0 & a1 & b0 & b1 & -> & Ea0 & Ea1 & Eb0 & Eb1).
  unfold v. cbn [view_of xMin xMax yMin yMax].
  destruct (centre_fin a0 a1) as (cx & -> & Ecx).
  destruct (centre_fin b0 b1) as (cy & -> & Ecy).
  unfold extent. fin_ops. cbn [Num.same]. rewrite !Qred_correct.
  split; [rewrite Ecx, Ea0, Ea1; field|].
  split; [rewrite Ecy, Eb0, Eb1; field|].
  split; [rewrite Ea0, Ea1; field | rewrite Eb0, Eb1; field].
Qed.

Lemma zoomCenter_fin (x0 x1 y0 y1 f : Q) :
  x0 < x1 -> y0 < y1 ->
  let v := view_of x0 x1 y0 y1 in
  exists a0 a1 b0 b1,
    zoomCenter (Fin f) v v = view_of a0 a1 b0 b1 /\
    a0 + a1 == x0 + x1 /\ b0 + b1 == y0 + y1 /\
    a1 - a0 == (x1 - x0) * f /\ b1 - b0 == (y1 - y0) * f.
Proof.
  intros Hx Hy v. unfold zoomCenter, v.
  change (Num.div (Num.add (xMin (view_of x0 x1 y0 y1))
                           (xMax (view_of x0 x1 y0 y1))) (ofZ 2))
    with (centre (Fin x0) (Fin x1)).
  change (Num.div (Num.add (yMin (view_of x0 x1 y0 y1))
                           (yMax (view_of x0 x1 y0 y1))) (ofZ 2))
    with (centre (Fin y0) (Fin y1)).
  cbv zeta.
  destruct (centre_fin x0 x1) as (cx & -> & Ecx).
  destruct (centre_fin y0 y1) as (cy & -> & Ecy).
  destruct (zoomAround_fin x0 x1 y0 y1 cx cy f Hx Hy)
    as (a0 & a1 & b0 & b1 & -> & Ea0 & Ea1 & Eb0 & Eb1).
  exists a0, a1, b0, b1. split; [reflexivity|].
  rewrite Ea0, Ea1, Eb0, Eb1, Ecx, Ecy. repeat split; field.
Qed.

(** X10: [zoomCenter] keeps the middle of the view and scales its
    extents by the factor, so two zooms in a row scale them by the
    product of the factors: the toolbar's zoom in (0.9) followed by its
    zoom out (1.1) leaves a view 0.99 times the original, not the
    original. *)
Theorem zoomCenter_compose (x0 x1 y0 y1 f g : Q) :
  x0 < x1 -> y0 < y1 -> 0 < f ->
  let v := view_of x0 x1 y0 y1 in
  let v1 := zoomCenter (Fin f) v v in
  let v2 := zoomCenter (Fin g) v1 v1 in
  centre (xMin v2) (xMax v2) ≃ centre (xMin v) (xMax v)
  /\ centre (yMin v2) (yMax v2) ≃ centre (yMin v) (yMax v)
  /\ extent (xMin v2) (xMax v2) ≃ Fin ((x1 - x0) * (f * g))
  /\ extent (yMin v2) (yMax v2) ≃ Fin ((y1 - y0) * (f * g)).
Proof.
  intros Hx Hy Hf v v1 v2.
  destruct (zoomCenter_fin x0 x1 y0 y1 f Hx Hy)
    as (a0 & a1 & b0 & b1 & E1 & Sa & Sb & Da & Db).
  pose proof (scaled_lt x0 x1 f Hx Hf) as Hsx.
  pose proof (scaled_lt y0 y1 f Hy Hf) as Hsy.
  assert (Ha : a0 < a1) by lra. assert (Hb : b0 < b1) by lra.
  destruct (zoomCenter_fin a0 a1 b0 b1 g Ha Hb)
    as (c0 & c1 & d0 & d1 & E2 & Sc & Sd & Dc & Dd).
  subst v2 v1. fold v in E1. rewrite E1. cbv zeta in E2. rewrite E2.
  unfold v. cbn [view_of xMin xMax yMin yMax].
  destruct (centre_fin c0 c1) as (m & -> & Em).
  destruct (centre_fin d0 d1) as (n & -> & En).
  destruct (centre_fin x0 x1) as (m' & -> & Em').
  destruct (centre_fin y0 y1) as (n' & -> & En').
  unfold extent. fin_ops. cbn [Num.same]. rewrite !Qred_correct.
  split; [rewrite Em, Em', Sc, Sa; reflexivity|].
  split; [rewrite En, En', Sd, Sb; reflexivity|].
  split.
  - change (c1 + - c0) with (c1 - c0). rewrite Dc, Da. ring.
  - change (d1 + - d0) with (d1 - d0). rewrite Dd, Db. ring.
Qed.

(** ** Labels *)

Lemma ltb_fin_iff (x y : Q) : Num.ltb (Fin x) (Fin y) = true <-> x < y.
Proof.
  unfold Num.ltb. destruct (Qcompare_spec x y) as [E|E|E]; split;
    try discriminate; try reflexivity; intros; lra.
Qed.

Lemma leb_fin_iff (x y : Q) : Num.leb (Fin x) (Fin y) = true <-> x <= y.
Proof.
  unfold Num.leb. destruct (Qcompare_spec x y) as [E|E|E]; split;
    try discriminate; try reflexivity; intros; lra.
Qed.

Lemma ltb_fin_false (x y : Q) : Num.ltb (Fin x) (Fin y) = false <-> y <= x.
Proof.
  unfold Num.ltb. destruct (Qcompare_spec x y) as [E|E|E]; split;
    try discriminate; try reflexivity; intros; lra.
Qed.

Lemma ltb_trans (a b c : num) :
  Num.ltb a b = true -> Num.ltb b c = true -> Num.ltb a c = true.
Proof.
  destruct a as [x| | |], b as [y| | |], c as [z| | |];
    try (cbn; discriminate); try (cbn; reflexivity).
  rewrite !ltb_fin_iff. lra.
Qed.

(** A bound that is not beaten by [b] holds against whatever [b]
    holds against, as long as [b] is a number. *)
Lemma leb_from_not_ltb (a b c : num) :
  Num.ltb a b = false -> b <> NaN -> Num.leb a c = true -> Num.leb b c = true.
Proof.
  destruct a as [x| | |], b as [y| | |], c as [z| | |];
    try (cbn; discriminate); try (cbn; reflexivity); try (cbn; congruence).
  rewrite ltb_fin_false, !leb_fin_iff. lra.
Qed.

Section Nearest.
Variables (t : Transform) (px py : num).

Lemma ltb_not_nan (a b : num) : Num.ltb a b = true -> a <> NaN.
Proof. destruct a; [discriminate.. |]. cbn. discriminate. Qed.

Lemma ltb_false_trans (a b c : num) :
  Num.ltb a b = false -> Num.ltb c b = true -> Num.ltb a c = false.
Proof.
  intros Hab Hcb. destruct (Num.ltb a c) eqn:E; [|reflexivity].
  rewrite (ltb_trans a c b E Hcb) in Hab. discriminate.
Qed.

Lemma ltb_irrefl (a : num) : Num.ltb a a = false.
Proof.
  destruct a as [x| | |]; try reflexivity. apply ltb_fin_false. lra.
Qed.

Lemma nearest_step_inv (seen : list Label) acc (L : Label) :
  nearest_inv t px py seen acc -> nearest_inv t px py (seen ++ [L]) (nearest_step t px py acc L).
Proof.
  intros (Hb & Hn & Hall). unfold nearest_step.
  destruct (Num.ltb (label_d2 t px py L) (snd acc)) eqn:E.
  - unfold nearest_inv. cbn [fst snd]. split; [|split].
    + split; [apply in_or_app; right; left; reflexivity | reflexivity].
    + exact (ltb_not_nan _ _ E).
    + intros L' [H | [<- | []]]%in_app_or.
      * exact (ltb_false_trans _ _ _ (Hall L' H) E).
      * apply ltb_irrefl.
  - unfold nearest_inv. split; [|split; [exact Hn|]].
    + destruct (fst acc); [|exact Hb].
      destruct Hb as [Hin Hd]. split; [apply in_or_app; left; exact Hin | exact Hd].
    + intros L' [H | [<- | []]]%in_app_or; [exact (Hall L' H) | exact E].
Qed.

Lemma nearest_fold_inv (labels : list Label) :
  forall seen acc,
    nearest_inv t px py seen acc ->
    nearest_inv t px py (seen ++ labels) (fold_left (nearest_step t px py) labels acc).
Proof.
  induction labels as [|L labels IH]; intros seen acc H; cbn [fold_left].
  - rewrite app_nil_r. exact H.
  - replace (seen ++ L :: labels) with ((seen ++ [L]) ++ labels)
      by (rewrite <- app_assoc; reflexivity).
    apply IH, nearest_step_inv, H.
Qed.
End Nearest.

(** X11: [findNearestLabelPx] returns a label of the list that is
    within 18 pixels of the given pixel and such that no label of the
    list is strictly nearer; it returns [null] exactly when no label of
    the list is within 18 pixels, in particular on an empty list. *)
Theorem findNearestLabelPx_spec
  (labels : list Label) (v : View) (width height px py : num) :
  let d2 := label_d2 (view_transform v width height) px py in
  match findNearestLabelPx labels v width height px py with
  | Some L =>
      In L labels /\ Num.leb (d2 L) (ofZ 324) = true /\
      forall L', In L' labels -> Num.ltb (d2 L') (d2 L) = false
  | None => forall L, In L labels -> Num.leb (d2 L) (ofZ 324) = false
  end.
Proof.
  intros d2. unfold findNearestLabelPx.
  destruct labels as [|L0 rest]; [intros L []|].
  set (labels := L0 :: rest). cbv zeta.
  pose proof (nearest_fold_inv (view_transform v width height) px py labels
                [] (None, PInf)) as H.
  cbn [app] in H.
  destruct (fold_left _ labels (None, PInf)) as [best bestD2].
  destruct H as (Hb & Hn & Hall).
  { split; [reflexivity|]. split; [discriminate|]. intros L' []. }
  cbn [fst snd] in *. fold d2 in Hall.
  change (ofZ (18 * 18)) with (ofZ 324).
  destruct (Num.leb bestD2 (ofZ 324)) eqn:Hle.
  - destruct best as [L|].
    + destruct Hb as [Hin ->]. fold d2 in Hle. auto.
    + subst bestD2. discriminate.
  - intros L HL. destruct (Num.leb (d2 L) (ofZ 324)) eqn:E; [|reflexivity].
    rewrite (leb_from_not_ltb _ _ _ (Hall L HL) Hn E) in Hle. discriminate.
Qed.

(** ** Drawing *)

Section DrawFacts.
Context {C : Compiler}.

Lemma is_empty_nil (s : str) : is_empty s = true <-> s = [].
Proof. destruct s; cbn; split; congruence. Qed.

Lemma draw_calls_full (width px : num) (c : Compiled.t) :
  Expr.visible (Compiled.expr c) = true -> Compiled.error c = [] ->
  full_payload (Compiled.payload c) = true ->
  draw_calls width px c = [] <-> Compiled.kind c = scalar.
Proof.
  intros Hv He Hf. unfold draw_calls, Compiled.kind. rewrite Hv, He. cbn.
  destruct (Compiled.payload c) as [f|f a b|f g a b|f o1 g o2|f o|f|v];
    cbn in Hf.
  all: repeat match goal with
         | f : option _ |- _ => destruct f; cbn in Hf; try discriminate
         end.
  all: split; intros H; try discriminate; reflexivity.
Qed.

(** X12: the draw effect makes no renderer call for a compiled line
    exactly when the line is hidden, carries an error message, or is a
    calculator line: every visible line of another kind that compiled
    without error is drawn. *)
Theorem drawn_iff_visible_and_valid
  (es : list Expr.t) (width px : num) (c : Compiled.t) :
  In c (compiled es) ->
  draw_calls width px c = [] <->
  Expr.visible (Compiled.expr c) = false \/ Compiled.error c <> []
  \/ Compiled.kind c = scalar.
Proof.
  intros Hc. apply compile_from_member in Hc as (ans' & E).
  pose proof (classify_all_or_nothing (final_ans es) ans' (Compiled.expr c)) as H.
  cbv zeta in H. rewrite <- E in H.
  destruct (Expr.visible (Compiled.expr c)) eqn:Hv.
  - destruct H as [[He Hf] | [He _]].
    + rewrite (draw_calls_full width px c Hv He Hf). split; [auto|].
      intros [H | [H | H]]; [discriminate | contradiction | exact H].
    + split; [auto|]. intros _. unfold draw_calls.
      destruct (Compiled.error c); [contradiction|].
      rewrite orb_true_r. reflexivity.
  - split; [auto|]. intros _. unfold draw_calls. rewrite Hv. reflexivity.
Qed.
End DrawFacts.

(** ** Contour of an implicit curve *)



Lemma ratio_unit_pos (n d : Q) : 0 < d -> 0 <= n <= d -> 0 <= n / d <= 1.
Proof.
  intros Hd [H0 H1]. split.
  - apply Qle_shift_div_l; [exact Hd | lra].
  - apply Qle_shift_div_r; [exact Hd | lra].
Qed.







(** ** A sampled curve *)

Lemma pen_fold (t : Transform) (pts : list (num * num)) :
  forall (prev : option (num * num)) (path : list PathCmd),
    snd (fold_left (pen_step t) pts
           (negb match prev with Some q => finite_pt q | None => false end,
            path))
    = path ++ flat_map (fun pp => pen_cmd t (fst pp) (snd pp))
                       (combine (prev :: map Some pts) pts).
Proof.
  induction pts as [|p pts IH]; intros prev path.
  - cbn. rewrite app_nil_r. reflexivity.
  - cbn [fold_left map].
    change (combine (prev :: Some p :: map Some pts) (p :: pts))
      with ((prev, p) :: combine (Some p :: map Some pts) pts).
    cbn [flat_map fst snd].
    specialize (IH (Some p)). cbn beta iota in IH.
    unfold pen_step at 2. unfold pen_cmd at 1.
    destruct (finite_pt p) eqn:Hf.
    + unfold finite_pt in Hf. apply andb_prop in Hf as [-> ->].
      cbn [negb orb]. cbv zeta.
      destruct (match prev with Some q => finite_pt q | None => false end);
        cbn [negb] in *; rewrite IH, <- app_assoc; reflexivity.
    + assert (Hn : negb (Num.isFinite (fst p)) || negb (Num.isFinite (snd p))
                   = true).
      { unfold finite_pt in Hf.
        destruct (Num.isFinite (fst p)), (Num.isFinite (snd p));
          try reflexivity; discriminate. }
      rewrite Hn. cbn [app]. apply IH.
Qed.

Lemma fold_left_map {A B S : Type} (f : S -> B -> S) (g : A -> B)
      (l : list A) :
  forall s, fold_left (fun s a => f s (g a)) l s = fold_left f (map g l) s.
Proof. induction l as [|a l IH]; intros s; cbn; [reflexivity | apply IH]. Qed.

Lemma param_count_ge (samples : num) : (100 <= param_count samples)%Z.
Proof. unfold param_count. lia. Qed.

(** X15: [drawParametric] samples the curve at [N + 1] parameters with
    [N >= 100], the first at [tmin] and the last at [tmax] when these
    are finite.  Each sample with finite coordinates gives one command:
    a line from the sample before it when that one was finite too, a
    move otherwise; a sample that is not finite gives none.  So the
    curve is never joined across a gap. *)
Theorem drawParametric_path
  (t : Transform) (fx fy : num -> num) (tmin tmax samples : num) :
  let N := param_count samples in
  let pts := map (fun i => let tt := param_at tmin tmax N (Z.of_nat i) in
                           (fx tt, fy tt))
                 (seq 0 (S (Z.to_nat N))) in
  drawParametric t fx fy tmin tmax samples
  = flat_map (fun pp => pen_cmd t (fst pp) (snd pp)) (with_previous pts)
  /\ (100 <= N)%Z
  /\ (forall a b : Q, tmin = Fin a -> tmax = Fin b ->
        param_at tmin tmax N 0 ≃ tmin /\ param_at tmin tmax N N ≃ tmax).
Proof.
  intros N pts. split; [|split; [apply param_count_ge|]].
  - unfold drawParametric. fold N.
    rewrite (fold_left_map (pen_step t)
               (fun i => (fx (param_at tmin tmax N i),
                          fy (param_at tmin tmax N i)))).
    rewrite map_map. fold pts.
    exact (pen_fold t pts None []).
  - intros a b -> ->. pose proof (param_count_ge samples) as HN. fold N in HN.
    assert (HNq : ~ inject_Z N == 0).
    { intros E. assert (inject_Z 0 < inject_Z N).
      { rewrite <- Zlt_Qlt. lia. }
      change (inject_Z 0) with 0 in *. lra. }
    unfold param_at, ofZ. rewrite !(div_fin _ _ HNq). fin_ops.
    cbv beta iota delta [Num.same]. rewrite !Qred_correct.
    change (inject_Z 0) with 0. split; field; exact HNq.
Qed.

(** ** What the searches return *)










Lemma midpoint_hull (L U l h : Q) :
  L <= l <= U -> L <= h <= U ->
  exists m, midpoint (Fin l) (Fin h) = Fin m /\ L <= m <= U.
Proof.
  intros Hl Hh. eexists. split; [reflexivity|].
  rewrite !Qred_correct. lra.
Qed.

Lemma golden_phi_unit :
  exists p, golden_phi = Fin p /\ 0 <= p <= 1.
Proof.
  eexists. split; [reflexivity|]. split; [discriminate | discriminate].
Qed.

(** A step from [u] towards [w] by the golden fraction stays between
    them. *)
Lemma golden_towards (L U u w : Q) :
  L <= u <= U -> L <= w <= U ->
  (exists q, Num.add (Fin u) (Num.mul golden_phi (Num.sub (Fin w) (Fin u)))
             = Fin q /\ L <= q <= U) /\
  (exists q, Num.sub (Fin w) (Num.mul golden_phi (Num.sub (Fin w) (Fin u)))
             = Fin q /\ L <= q <= U).
Proof.
  intros Hu Hw. destruct golden_phi_unit as (p & -> & Hp). fin_ops.
  split; eexists; (split; [reflexivity|]); rewrite !Qred_correct.
  - assert (E : u + p * (w + - u) == (1 - p) * u + p * w) by ring.
    rewrite E. nra.
  - assert (E : w + - (p * (w + - u)) == (1 - p) * w + p * u) by ring.
    rewrite E. nra.
Qed.

Lemma golden_loop_hull (g : num -> num) (L U : Q) (n : nat) :
  forall (a b c d : Q) (fc fd : num),
    L <= a <= U -> L <= b <= U -> L <= c <= U -> L <= d <= U ->
    exists a' b',
      golden_loop g n (Fin a) (Fin b) (Fin c) (Fin d) fc fd = (Fin a', Fin b')
      /\ L <= a' <= U /\ L <= b' <= U.
Proof.
  induction n as [|n IH]; intros a b c d fc fd Ha Hb Hc Hd;
    cbn [golden_loop].
  - exists a, b. auto.
  - destruct (Num.gtb fc fd).
    + destruct (golden_towards L U c b Hc Hb) as [(q & -> & Hq) _].
      apply IH; assumption.
    + destruct (golden_towards L U a d Ha Hd) as [_ (q & -> & Hq)].
      apply IH; assumption.
Qed.

Lemma goldenExtremum_hull
  (f : num -> num) (L U a b : Q) (mode : Mode) (x y : num) :
  L <= a <= U -> L <= b <= U ->
  goldenExtremum f (Fin a) (Fin b) mode = Some (x, y) ->
  in_range L U x /\ y = f x /\ Num.isFinite y = true.
Proof.
  intros Ha Hb. unfold goldenExtremum.
  set (g := match mode with
            | mode_max => fun x => Num.neg (f x) | mode_min => f end).
  destruct (golden_towards L U a b Ha Hb) as [(d & Ed & Hd) (c & Ec & Hc)].
  rewrite Ed, Ec.
  destruct (golden_loop_hull g L U 48 a b c d (g (Fin c)) (g (Fin d)))
    as (a' & b' & -> & Ha' & Hb'); try assumption.
  destruct (midpoint_hull L U a' b' Ha' Hb') as (m & -> & Hm).
  destruct (Num.isFinite (f (Fin m))) eqn:Hfin; [|discriminate].
  intros [= <- <-]. split; [exists m; auto|]. split; [reflexivity | exact Hfin].
Qed.

(** X17: a result [{x, y}] of [goldenExtremum] on [a <= b] has [x] in
    the closed interval from [a] to [b], and [y] is the finite value
    of [f] at [x], in both modes. *)
Theorem goldenExtremum_in_bracket
  (f : num -> num) (a b : Q) (mode : Mode) (x y : num) :
  a <= b ->
  goldenExtremum f (Fin a) (Fin b) mode = Some (x, y) ->
  (exists q, x = Fin q /\ a <= q <= b) /\ y = f x /\ Num.isFinite y = true.
Proof.
  intros Hab. apply goldenExtremum_hull; lra.
Qed.

(** ** Analysis: where the points are *)

Lemma bisect_loop_hull (f : num -> num) (L U : Q) (n : nat) :
  forall (l h : Q) (flo fhi v : num),
    L <= l <= U -> L <= h <= U ->
    bisect_loop f n (Fin l) (Fin h) flo fhi = Some v ->
    exists q, v = Fin q /\ L <= q <= U.
Proof.
  induction n as [|n IH]; intros l h flo fhi v Hl Hh; cbn [bisect_loop].
  - destruct (midpoint_hull L U l h Hl Hh) as (m & -> & Hm).
    intros [= <-]. exists m. auto.
  - destruct (midpoint_hull L U l h Hl Hh) as (m & -> & Hm).
    destruct (negb (Num.isFinite (f (Fin m)))); [discriminate|].
    destruct (Num.eqb flo zero).
    { intros [= <-]. exists l. auto. }
    destruct (Num.eqb fhi zero).
    { intros [= <-]. exists h. auto. }
    destruct (Num.eqb (f (Fin m)) zero).
    { intros [= <-]. exists m. auto. }
    destruct (Num.ltb (Num.mul flo (f (Fin m))) zero); apply IH; assumption.
Qed.

Lemma bisectRoot_hull (f : num -> num) (L U a b : Q) (ya yb v : num) :
  L <= a <= U -> L <= b <= U ->
  bisectRoot f (Fin a) (Fin b) ya yb = Some v ->
  exists q, v = Fin q /\ L <= q <= U.
Proof.
  intros Ha Hb. unfold bisectRoot, bisectRoot_iters.
  destruct (negb _ || negb _ || _); [discriminate|].
  apply bisect_loop_hull; assumption.
Qed.

Module AnalysisRange.
Import Analysis.

Section Range.
Variables (x0 x1 : Q) (view : View) (N : nat).
Hypothesis Hmin : xMin view = Fin x0.
Hypothesis Hmax : xMax view = Fin x1.
Hypothesis Hord : x0 <= x1.
Hypothesis HN : (0 < N)%nat.

Lemma grid_range (x : num) : In x (grid view N) -> in_range x0 x1 x.
Proof.
  unfold grid. rewrite Hmin, Hmax. intros (i & <- & Hi)%in_map_iff.
  apply in_seq in Hi.
  assert (HNq : 0 < inject_Z (Z.of_nat N)).
  { change 0 with (inject_Z 0). rewrite <- Zlt_Qlt. lia. }
  assert (HNn : ~ inject_Z (Z.of_nat N) == 0) by lra.
  unfold ofZ. rewrite (div_fin _ _ HNn). fin_ops.
  eexists. split; [reflexivity|]. rewrite !Qred_correct.
  assert (Hi0 : 0 <= inject_Z (Z.of_nat i)).
  { change 0 with (inject_Z 0). rewrite <- Zle_Qle. lia. }
  assert (HiN : inject_Z (Z.of_nat i) <= inject_Z (Z.of_nat N)).
  { rewrite <- Zle_Qle. lia. }
  set (r := inject_Z (Z.of_nat i) / inject_Z (Z.of_nat N)).
  assert (Hr : 0 <= r <= 1) by (apply ratio_unit_pos; [exact HNq | lra]).
  nra.
Qed.

Lemma push_in (cat : Category) (p p' : Point) (st : State) :
  In p' (allPoints (push cat p st)) <-> p' = p \/ In p' (allPoints st).
Proof.
  pose proof (AnalysisFacts.push_permutation cat p st) as H. split.
  - intros Hin. apply (Permutation_in _ H) in Hin as [<- | Hin]; auto.
  - intros Hin. apply (Permutation_in _ (Permutation_sym H)).
    destruct Hin as [-> | Hin]; [left; reflexivity | right; exact Hin].
Qed.

Lemma all_push_new (cat : Category) (k : key) (p : Point) (st : State) :
  in_view x0 x1 p -> all_in_view x0 x1 st ->
  all_in_view x0 x1 (push_new cat k p st).
Proof.
  intros Hp Hst. unfold push_new. destruct (decide _); [exact Hst|].
  intros p' [-> | Hin]%push_in; [exact Hp | apply Hst, Hin].
Qed.

Lemma all_fold {A : Type} (step : State -> A -> State) (l : list A) :
  (forall a st, In a l -> all_in_view x0 x1 st ->
                all_in_view x0 x1 (step st a)) ->
  forall st, all_in_view x0 x1 st -> all_in_view x0 x1 (fold_left step l st).
Proof.
  induction l as [|a l IH]; intros Hstep st Hst; cbn [fold_left].
  - exact Hst.
  - apply IH.
    + intros b st' Hb. apply Hstep. right. exact Hb.
    + apply Hstep; [left; reflexivity | exact Hst].
Qed.

Lemma all_x_intercept (e : Curve) (st : State) (a b y0 y1 : num) :
  in_range x0 x1 a -> in_range x0 x1 b -> all_in_view x0 x1 st ->
  all_in_view x0 x1 (x_intercept_step e st ((a, y0), (b, y1))).
Proof.
  intros (qa & -> & Ha) (qb & -> & Hb) Hst. unfold x_intercept_step.
  destruct (negb _ || negb _); [exact Hst|].
  destruct (_ || _ || _); [|exact Hst].
  destruct (bisectRoot _ _ _ _ _) as [xr|] eqn:E; [|exact Hst].
  apply all_push_new; [|exact Hst]. split; [|reflexivity].
  exact (bisectRoot_hull _ x0 x1 qa qb _ _ _ Ha Hb E).
Qed.

Lemma leb_fin_zero (q : Q) : Num.leb (Fin q) zero = true -> q <= 0.
Proof. unfold zero. apply leb_fin_iff. Qed.

Lemma geb_fin_zero (q : Q) : Num.geb (Fin q) zero = true -> 0 <= q.
Proof. unfold Num.geb, zero. apply leb_fin_iff. Qed.

Lemma all_y_intercept (e : Curve) (st : State) :
  all_in_view x0 x1 st -> all_in_view x0 x1 (y_intercept view e st).
Proof.
  intros Hst. unfold y_intercept. rewrite Hmin, Hmax.
  destruct (Num.leb (Fin x0) zero) eqn:Hlo; [|exact Hst].
  destruct (Num.geb (Fin x1) zero) eqn:Hhi; [|exact Hst].
  cbn [andb].
  destruct (match restricted e with Some _ => _ | None => _ end);
    [|exact Hst].
  destruct (Num.isFinite (fn e zero)) eqn:Hfin; [|exact Hst].
  apply all_push_new; [|exact Hst]. split; [|exact Hfin].
  exists 0. split; [reflexivity|].
  apply leb_fin_zero in Hlo. apply geb_fin_zero in Hhi. lra.
Qed.

Lemma all_extremum (e : Curve) (st : State) (a m b y0 y1 y2 : num) :
  in_range x0 x1 a -> in_range x0 x1 b -> all_in_view x0 x1 st ->
  all_in_view x0 x1 (extremum_step e st (((a, y0), (m, y1)), (b, y2))).
Proof.
  intros (qa & -> & Ha) (qb & -> & Hb) Hst. unfold extremum_step.
  destruct (negb _ || negb _ || negb _); [exact Hst|].
  destruct (Num.gtb y1 y0 && Num.gtb y1 y2).
  { destruct (goldenExtremum _ _ _ _) as [[px py]|] eqn:E; [|exact Hst].
    apply all_push_new; [|exact Hst].
    destruct (goldenExtremum_hull _ x0 x1 qa qb _ _ _ Ha Hb E) as (H1 & _ & H2).
    split; assumption. }
  destruct (Num.ltb y1 y0 && Num.ltb y1 y2); [|exact Hst].
  destruct (goldenExtremum _ _ _ _) as [[px py]|] eqn:E; [|exact Hst].
  apply all_push_new; [|exact Hst].
  destruct (goldenExtremum_hull _ x0 x1 qa qb _ _ _ Ha Hb E) as (H1 & _ & H2).
  split; assumption.
Qed.

Lemma all_intersect (A B : Curve) (st : State) (a b : num) :
  in_range x0 x1 a -> in_range x0 x1 b -> all_in_view x0 x1 st ->
  all_in_view x0 x1 (intersect_step A B st (a, b)).
Proof.
  intros (qa & -> & Ha) (qb & -> & Hb) Hst. unfold intersect_step.
  destruct (negb _ || negb _ || _); [exact Hst|].
  destruct (bisectRoot _ _ _ _ _) as [xr|] eqn:E; [|exact Hst].
  destruct (Num.isFinite (fn A xr)) eqn:Hfin; [|exact Hst].
  apply all_push_new; [|exact Hst]. split; [|exact Hfin].
  exact (bisectRoot_hull _ x0 x1 qa qb _ _ _ Ha Hb E).
Qed.

Lemma in_tail {A : Type} (x : A) (l : list A) : x ∈ tail l -> x ∈ l.
Proof. destruct l as [|a l]; [auto|]. cbn. apply list_elem_of_further. Qed.

Lemma samplesById_grid (explicits : list Curve) (k : Z) (xs ys : list num) :
  samplesById view N explicits !! k = Some (xs, ys) -> xs = grid view N.
Proof.
  unfold samplesById.
  assert (H : forall (m : gmap Z (list num * list num)),
             (forall k v, m !! k = Some v -> fst v = grid view N) ->
             forall k v,
               fold_left (fun m e => <[id e := samples view N e]> m)
                         explicits m !! k = Some v ->
               fst v = grid view N).
  { induction explicits as [|e es IH]; intros m Hm k' v; cbn [fold_left].
    - apply Hm.
    - apply IH. intros k2 v2.
      destruct (decide (k2 = id e)) as [->|Hne].
      + rewrite lookup_insert_eq. intros [= <-]. reflexivity.
      + rewrite lookup_insert_ne by congruence. apply Hm. }
  intros E. apply (H ∅ (fun k v E => ltac:(rewrite lookup_empty in E; discriminate)) k (xs, ys) E).
Qed.

Lemma all_per_curve (explicits : list Curve) (e : Curve) (st : State) :
  all_in_view x0 x1 st ->
  all_in_view x0 x1 (per_curve view (samplesById view N explicits) st e).
Proof.
  intros Hst. unfold per_curve.
  destruct (samplesById view N explicits !! id e) as [[xs ys]|] eqn:E;
    cbn [default].
  - apply samplesById_grid in E. subst xs.
    assert (Hx : forall a y, (a, y) ∈ zip (grid view N) ys ->
                             in_range x0 x1 a).
    { intros a y Hin%elem_of_zip_l. apply grid_range, list_elem_of_In, Hin. }
    apply all_fold.
    + intros [[[a y0] [m y1]] [b y2]] st' Hin%list_elem_of_In Hst'.
      apply all_extremum; [| |exact Hst'].
      * apply elem_of_zip_l in Hin. unfold adjacent in Hin.
        apply elem_of_zip_l in Hin. exact (Hx _ _ Hin).
      * apply elem_of_zip_r in Hin. do 2 apply in_tail in Hin.
        exact (Hx _ _ Hin).
    + apply all_y_intercept. apply all_fold; [|exact Hst].
      intros [[a y0] [b y1]] st' Hin%list_elem_of_In Hst'.
      unfold adjacent in Hin.
      apply all_x_intercept; [| |exact Hst'].
      * apply elem_of_zip_l in Hin. exact (Hx _ _ Hin).
      * apply elem_of_zip_r, in_tail in Hin. exact (Hx _ _ Hin).
  - cbn. apply all_y_intercept. exact Hst.
Qed.

Lemma all_run (explicits : list Curve) :
  all_in_view x0 x1 (run view N explicits).
Proof.
  unfold run. apply all_fold.
  - intros [A B] st _ Hst. cbn [fst snd]. apply all_fold; [|exact Hst].
    intros [a b] st' Hin%list_elem_of_In Hst'. unfold adjacent in Hin.
    apply all_intersect; [| |exact Hst'].
    + apply elem_of_zip_l in Hin. apply grid_range, list_elem_of_In, Hin.
    + apply elem_of_zip_r, in_tail in Hin.
      apply grid_range, list_elem_of_In, Hin.
  - apply all_fold; [|intros p []].
    intros e st _ Hst. apply all_per_curve, Hst.
Qed.
End Range.

Lemma sample_count_pos (width pxStep : num) (N : nat) :
  sample_count width pxStep = Some N -> (0 < N)%nat.
Proof.
  unfold sample_count.
  set (r := MathFn.round _).
  destruct (Num.max (ofZ 400) r) as [q| | |] eqn:E; try discriminate.
  intros [= <-].
  assert (Hq : 400 <= q).
  { revert E. unfold Num.max, ofZ.
    destruct r as [x| | |].
    - destruct (Num.ltb (Fin (inject_Z 400)) (Fin x)) eqn:Hlt.
      + apply ltb_fin_iff in Hlt. intros [= <-].
        change (inject_Z 400) with 400 in Hlt. lra.
      + intros [= <-]. discriminate.
    - cbn. intros H. discriminate H.
    - cbn. intros [= <-]. discriminate.
    - intros H. discriminate H. }
  assert (400 <= Qfloor q)%Z.
  { change 400%Z with (Qfloor 400). apply Qfloor_resp_le, Hq. }
  lia.
Qed.
End AnalysisRange.

(** X18: on a view with finite [xMin <= xMax], every point the
    analysis reports (intercepts, extrema and intersections) has a
    finite abscissa between [xMin] and [xMax] and a finite ordinate. *)
Theorem analysis_points_in_view
  (compiled : list Compiled.t) (view : View) (x0 x1 : Q)
  (width pxStep : num) (r : Analysis.State) :
  xMin view = Fin x0 -> xMax view = Fin x1 -> x0 <= x1 ->
  Analysis.analysis compiled view width pxStep = Ok r ->
  forall p, In p (Analysis.allPoints r) ->
    (exists q, Analysis.x p = Fin q /\ x0 <= q <= x1)
    /\ Num.isFinite (Analysis.y p) = true.
Proof.
  intros Hmin Hmax Hord. unfold Analysis.analysis.
  destruct (omap Analysis.curve_of compiled) as [|e es].
  - intros [= <-] p [].
  - destruct (Analysis.sample_count width pxStep) as [N|] eqn:EN;
      [|discriminate].
    intros [= <-]. apply AnalysisRange.sample_count_pos in EN.
    apply (AnalysisRange.all_run x0 x1 view N Hmin Hmax Hord EN).
Qed.

(** ** Implicit multiplication *)

(** Induction on a string two characters at a time. *)
Lemma pair_induction {T : Type} (P : list T -> Prop) :
  P [] -> (forall c, P [c]) ->
  (forall c1 c2 rest, P rest -> P (c2 :: rest) -> P (c1 :: c2 :: rest)) ->
  forall s, P s.
Proof.
  intros H0 H1 H2 s.
  assert (H : P s /\ forall c, P (c :: s)).
  { induction s as [|c s [IHa IHb]]; [split; auto|].
    split; [apply IHb|]. intros c'. apply H2; [exact IHa | apply IHb]. }
  apply H.
Qed.

Lemma insert_star_head (A B : N -> bool) (s : str) :
  hd_error (insert_star A B s) = hd_error s.
Proof.
  destruct s as [|c1 [|c2 rest]]; try reflexivity.
  cbn [insert_star]. destruct (A c1 && B c2); reflexivity.
Qed.

Lemma insert_star_step (A B : N -> bool) (c1 c2 : N) (rest : str) :
  insert_star A B (c1 :: c2 :: rest) =
    if A c1 && B c2 then c1 :: star :: c2 :: insert_star A B rest
    else c1 :: insert_star A B (c2 :: rest).
Proof. reflexivity. Qed.

Section InsertStar.
Variables A B : N -> bool.

Lemma insert_star_erase (s : str) :
  without_stars (insert_star A B s) = without_stars s.
Proof.
  unfold without_stars.
  induction s as [|c|c1 c2 rest IHr IH] using pair_induction;
    try reflexivity.
  rewrite insert_star_step. destruct (A c1 && B c2).
  - cbn [List.filter]. rewrite IHr, N.eqb_refl. reflexivity.
  - set (p := fun c => negb (c =? star)%N) in *.
    change (List.filter p (c1 :: insert_star A B (c2 :: rest))
            = List.filter p (c1 :: c2 :: rest)).
    cbn [List.filter] in IH |- *.
    change (List.filter p (insert_star A B (c2 :: rest)))
      with (List.filter p (insert_star A B (c2 :: rest))) in IH.
    destruct (p c1); [f_equal|]; exact IH.
Qed.

Lemma adjacent_pair_cons (c : N) (s : str) :
  adjacent_pair A B (c :: s) =
    match hd_error s with
    | Some c2 => (A c && B c2) || adjacent_pair A B s
    | None => false
    end.
Proof. destruct s; reflexivity. Qed.

(** Without a pair to separate, the string is left alone. *)
Lemma insert_star_fixed (s : str) :
  adjacent_pair A B s = false -> insert_star A B s = s.
Proof.
  induction s as [|c1 s IH]; [reflexivity|].
  destruct s as [|c2 rest]; [reflexivity|].
  cbn [adjacent_pair insert_star]. intros [H1 H2]%orb_false_elim.
  rewrite H1. f_equal. apply IH, H2.
Qed.

(** Inserting stars between other pairs creates no pair, as long as
    a star is in neither class. *)
Lemma insert_star_keeps (A' B' : N -> bool) (s : str) :
  A star = false -> B star = false ->
  adjacent_pair A B s = false ->
  adjacent_pair A B (insert_star A' B' s) = false.
Proof.
  intros HA HB.
  induction s as [|c|c1 c2 rest IHr IH] using pair_induction;
    try reflexivity.
  rewrite adjacent_pair_cons. cbn [hd_error]. intros [H1 H2]%orb_false_elim.
  rewrite insert_star_step. destruct (A' c1 && B' c2).
  - rewrite adjacent_pair_cons. cbn [hd_error]. rewrite HB, andb_false_r.
    cbn [orb]. rewrite adjacent_pair_cons. cbn [hd_error].
    rewrite HA. cbn [andb orb].
    rewrite adjacent_pair_cons, insert_star_head.
    rewrite adjacent_pair_cons in H2.
    destruct (hd_error rest) as [c3|]; [|reflexivity].
    apply orb_false_elim in H2 as [H3 H4]. rewrite H3. cbn [orb].
    apply IHr, H4.
  - rewrite adjacent_pair_cons, insert_star_head. cbn [hd_error].
    rewrite H1. cbn [orb]. apply IH, H2.
Qed.

(** After the replacement no pair is left, when the classes are
    disjoint and hold no star. *)
Lemma insert_star_clears (s : str) :
  A star = false -> B star = false ->
  (forall c, B c = true -> A c = false) ->
  adjacent_pair A B (insert_star A B s) = false.
Proof.
  intros HA HB Hdis.
  induction s as [|c|c1 c2 rest IHr IH] using pair_induction;
    try reflexivity.
  rewrite insert_star_step. destruct (A c1 && B c2) eqn:E.
  - apply andb_prop in E as [E1 E2].
    rewrite adjacent_pair_cons. cbn [hd_error]. rewrite HB, andb_false_r.
    cbn [orb]. rewrite adjacent_pair_cons. cbn [hd_error].
    rewrite HA. cbn [andb orb].
    rewrite adjacent_pair_cons, insert_star_head.
    destruct (hd_error rest) as [c3|]; [|reflexivity].
    rewrite (Hdis c2 E2). cbn [andb orb]. apply IHr.
  - rewrite adjacent_pair_cons, insert_star_head. cbn [hd_error].
    rewrite E. cbn [orb]. apply IH.
Qed.
End InsertStar.

Ltac char_facts :=
  unfold is_alpha, is_upper, is_lower, is_digit, between, is_open, is_close,
    star, ch in *;
  change (N_of_ascii "(") with 40%N in *;
  change (N_of_ascii ")") with 41%N in *;
  change (N_of_ascii "*") with 42%N in *;
  repeat match goal with
         | H : _ || _ = true |- _ => apply orb_prop in H as [H|H]
         | H : _ && _ = true |- _ => apply andb_prop in H as [? ?]
         | H : N.leb _ _ = true |- _ => apply N.leb_le in H
         | H : N.eqb _ _ = true |- _ => apply N.eqb_eq in H
         end.

Lemma digit_not_followers (c : N) :
  is_alpha c || is_open c = true -> is_digit c = false.
Proof.
  intros H. destruct (is_digit c) eqn:E; [|reflexivity]. exfalso.
  char_facts; lia.
Qed.

Lemma open_not_leaders (c : N) :
  is_open c = true -> is_alpha c || is_close c = false.
Proof.
  intros H. destruct (is_alpha c || is_close c) eqn:E; [|reflexivity].
  exfalso. char_facts; lia.
Qed.

Lemma alnum_not_close (c : N) :
  is_alpha c || is_digit c = true -> is_close c = false.
Proof.
  intros H. destruct (is_close c) eqn:E; [|reflexivity]. exfalso.
  char_facts; lia.
Qed.

(** X19: [addStarsForImplicitMul] only inserts stars: without its
    stars the result is the text without its stars.  In the result no
    digit is directly followed by a letter or an opening parenthesis,
    no letter or closing parenthesis by an opening parenthesis, and no
    closing parenthesis by a letter or a digit; a second application
    changes nothing. *)
Theorem addStarsForImplicitMul_spec (s : str) :
  let r := addStarsForImplicitMul s in
  without_stars r = without_stars s
  /\ adjacent_pair is_digit (fun c => is_alpha c || is_open c) r = false
  /\ adjacent_pair (fun c => is_alpha c || is_close c) is_open r = false
  /\ adjacent_pair is_close (fun c => is_alpha c || is_digit c) r = false
  /\ addStarsForImplicitMul r = r.
Proof.
  intros r. subst r. unfold addStarsForImplicitMul.
  set (s1 := insert_star is_digit (fun c => is_alpha c || is_open c) s).
  set (s2 := insert_star (fun c => is_alpha c || is_close c) is_open s1).
  set (s3 := insert_star is_close (fun c => is_alpha c || is_digit c) s2).
  assert (H1 : adjacent_pair is_digit (fun c => is_alpha c || is_open c) s1
               = false).
  { apply insert_star_clears; [reflexivity | reflexivity |].
    apply digit_not_followers. }
  assert (H2 : adjacent_pair (fun c => is_alpha c || is_close c) is_open s2
               = false).
  { apply insert_star_clears; [reflexivity | reflexivity |].
    apply open_not_leaders. }
  assert (H3 : adjacent_pair is_close (fun c => is_alpha c || is_digit c) s3
               = false).
  { apply insert_star_clears; [reflexivity | reflexivity |].
    apply alnum_not_close. }
  assert (H1' : adjacent_pair is_digit (fun c => is_alpha c || is_open c) s3
                = false).
  { apply insert_star_keeps; [reflexivity | reflexivity |].
    apply insert_star_keeps; [reflexivity | reflexivity | exact H1]. }
  assert (H2' : adjacent_pair (fun c => is_alpha c || is_close c) is_open s3
                = false).
  { apply insert_star_keeps; [reflexivity | reflexivity | exact H2]. }
  split; [|split; [exact H1' | split; [exact H2' | split; [exact H3|]]]].
  - subst s3 s2 s1. rewrite !insert_star_erase. reflexivity.
  - rewrite (insert_star_fixed _ _ s3 H1'), (insert_star_fixed _ _ s3 H2').
    apply insert_star_fixed, H3.
Qed.

(** ** Editing the list of lines *)

Section Edits.
Context {C : Compiler}.

(** Apart from its functions, a compiled line does not depend on the
    register its functions will read. *)
Lemma classify_static (a1 a2 ans : num) (e : Expr.t) :
  static (fst (classify_line a1 ans e)) = static (fst (classify_line a2 ans e)).
Proof.
  pose proof (classify_dispatch a1 ans e) as H1.
  pose proof (classify_dispatch a2 ans e) as H2.
  cbv zeta in H1, H2.
  destruct (chosen (line_src e)).
  - destruct H1 as (g & Hg & ->), H2 as (g' & Hg' & ->).
    assert (g' = g) by congruence. subst g'. cbn [fst]. unfold explicit_y.
    destruct (compileExpr g); reflexivity.
  - destruct H1 as (g & Hg & ->), H2 as (g' & Hg' & ->).
    assert (g' = g) by congruence. subst g'. cbn [fst]. unfold polar_line.
    destruct (compileExpr g); [|reflexivity].
    destruct (Regex.match_theta_range _) as [[g1 g2]|]; reflexivity.
  - destruct H1 as (c1 & Hc1 & ->), H2 as (c2 & Hc2 & ->). cbn [fst].
    revert Hc1 Hc2. unfold parametric_line.
    destruct (_ && _); [|discriminate].
    destruct (_ ← compile_opt _; _) as [[ax ay]|m];
      intros [= <-] [= <-]; reflexivity.
  - destruct H1 as (A & o1 & B & o2 & Cc & HA & ->),
      H2 as (A' & o1' & B' & o2' & Cc' & HA' & ->).
    rewrite HA in HA'. injection HA' as <- <- <- <- <-.
    cbn [fst]. unfold double_line.
    destruct (_ ← compileExpr A; _) as [[[a b] c]|m]; reflexivity.
  - destruct H1 as (o & i & Ho & ->), H2 as (o' & i' & Ho' & ->).
    rewrite Ho in Ho'. injection Ho' as <- <-.
    cbn [fst]. unfold inequality_line.
    destruct (_ ← compileExpr _; _) as [[l r]|m]; reflexivity.
  - rewrite H1, H2. cbn [fst]. unfold implicit_line.
    destruct (split _ _) as [|l [|r [|x rest]]]; try reflexivity.
    destruct (_ ← compileExpr _; _) as [[a b]|m]; reflexivity.
  - rewrite H1, H2. reflexivity.
  - rewrite H1, H2. cbn [fst]. unfold fallback_line.
    destruct (compileExpr _); reflexivity.
Qed.

Lemma classify_snd (a1 a2 ans : num) (e : Expr.t) :
  snd (classify_line a1 ans e) = snd (classify_line a2 ans e).
Proof. rewrite !classify_register. reflexivity. Qed.

Lemma compile_from_static (a1 a2 : num) (es : list Expr.t) :
  forall ans,
    map static (fst (compile_from a1 ans es))
    = map static (fst (compile_from a2 ans es)).
Proof.
  induction es as [|e es IH]; intros ans; cbn [compile_from]; [reflexivity|].
  pose proof (classify_static a1 a2 ans e) as Hs.
  pose proof (classify_snd a1 a2 ans e) as Hr.
  destruct (classify_line a1 ans e) as [c1 r1].
  destruct (classify_line a2 ans e) as [c2 r2].
  cbn [fst snd] in Hs, Hr. subst r2. specialize (IH r1).
  destruct (compile_from a1 r1 es), (compile_from a2 r1 es).
  cbn [fst map] in *. rewrite Hs, IH. reflexivity.
Qed.

Lemma compiled_prefix (es es' : list Expr.t) :
  map static (firstn (length es) (compiled (es ++ es')))
  = map static (compiled es).
Proof.
  unfold compiled. rewrite compile_from_app. cbn [fst].
  rewrite firstn_app, compile_from_length, Nat.sub_diag, firstn_O, app_nil_r.
  rewrite firstn_all2 by (rewrite compile_from_length; lia).
  apply compile_from_static.
Qed.

(** X20: lines added at the end of the list leave the lines before
    them as they were compiled, functions apart: the same line,
    parameters, kind, presence of the functions, ranges, operators,
    value and message, in the same order. *)
Theorem compiled_prefix_stable (es es' : list Expr.t) :
  length (compiled (es ++ es')) = (length es + length es')%nat
  /\ map static (firstn (length es) (compiled (es ++ es')))
     = map static (compiled es).
Proof.
  split; [|apply compiled_prefix].
  unfold compiled. rewrite compile_from_length. apply length_app.
Qed.

(** X21: [addExpression] adds nothing for a text that is blank once
    trimmed; otherwise it appends one visible line with the trimmed
    text, the given id, no parameter and a colour of the palette, and
    the lines already there compile as before, functions apart. *)
Theorem addExpression_effect (now : Z) (src : str) (es : list Expr.t) :
  let es' := addExpression now src es in
  (trim src = [] -> es' = es)
  /\ (trim src <> [] ->
      exists e, es' = es ++ [e] /\ Expr.src e = trim src /\ Expr.id e = now
                /\ Expr.visible e = true /\ Expr.params e = ∅
                /\ In (Expr.color e) COLORS)
  /\ map static (firstn (length es) (compiled es')) = map static (compiled es).
Proof.
  intros es'. subst es'. unfold addExpression.
  destruct (trim src) as [|c text] eqn:E; cbn [is_empty].
  - split; [reflexivity|]. split; [intros H; contradiction|].
    rewrite firstn_all2; [reflexivity|].
    unfold compiled. rewrite compile_from_length. lia.
  - split; [discriminate|]. split; [|apply compiled_prefix].
    intros _. eexists. split; [reflexivity|].
    cbn [Expr.src Expr.id Expr.visible Expr.params Expr.color].
    do 4 (split; [reflexivity|]). apply nth_In.
    apply Nat.mod_upper_bound. discriminate.
Qed.

(** The kind of a compiled line is read off the text of its line. *)
Lemma compiled_kind (es : list Expr.t) (c : Compiled.t) :
  In c (compiled es) ->
  Compiled.kind c = branch_kind (chosen (line_src (Compiled.expr c))).
Proof.
  intros Hc. apply compile_from_member in Hc as (ans' & E).
  rewrite E at 1. apply classify_kind.
Qed.

Lemma compiled_kinds (es : list Expr.t) :
  map Compiled.kind (compiled es)
  = map (fun e => branch_kind (chosen (line_src e))) es.
Proof.
  rewrite <- (compile_from_exprs (final_ans es) es zero) at 2.
  fold (compiled es). rewrite map_map. apply map_ext_in.
  intros c Hc. apply (compiled_kind es c Hc).
Qed.

Lemma updateParam_srcs (id : Z) (name : str) (value : num) (es : list Expr.t) :
  map Expr.src (updateParam id name value es) = map Expr.src es
  /\ map Expr.id (updateParam id name value es) = map Expr.id es.
Proof.
  unfold updateParam. rewrite !map_map. split; apply map_ext; intros e;
    destruct (Expr.id e =? id)%Z; reflexivity.
Qed.

(** X22: [updateParam] changes no text and no id, so the kind of
    every compiled line stays what it was; a compiled line with the
    given id binds the name to the new value, and the other compiled
    lines are lines of the list before the update. *)
Theorem updateParam_effect
  (id : Z) (name : str) (value : num) (es : list Expr.t) :
  let es' := updateParam id name value es in
  map Expr.src es' = map Expr.src es
  /\ map Expr.id es' = map Expr.id es
  /\ map Compiled.kind (compiled es') = map Compiled.kind (compiled es)
  /\ forall c, In c (compiled es') ->
       (Expr.id (Compiled.expr c) = id ->
        Compiled.params c !! name = Some value)
       /\ (Expr.id (Compiled.expr c) <> id -> In (Compiled.expr c) es).
Proof.
  intros es'. destruct (updateParam_srcs id name value es) as [Hs Hi].
  fold es' in Hs, Hi.
  split; [exact Hs|]. split; [exact Hi|]. split.
  - rewrite !compiled_kinds.
    assert (K : forall l : list Expr.t,
               map (fun e => branch_kind (chosen (line_src e))) l
               = map (fun s => branch_kind (chosen (normalize s)))
                     (map Expr.src l)).
    { intros l. rewrite map_map. reflexivity. }
    rewrite (K es'), (K es), Hs. reflexivity.
  - intros c Hc.
    assert (He : In (Compiled.expr c) es').
    { rewrite <- (compile_from_exprs (final_ans es') es' zero).
      apply in_map, Hc. }
    apply compile_from_member in Hc as (ans' & E).
    pose proof (classify_fields (final_ans es') ans' (Compiled.expr c))
      as (_ & Hp & _).
    cbv zeta in Hp. rewrite <- E in Hp.
    unfold es', updateParam in He. apply in_map_iff in He as (e & He & Hin).
    destruct (Expr.id e =? id)%Z eqn:Eid.
    + split.
      * intros _. rewrite Hp, <- He. unfold line_params, set_param.
        cbn [Expr.params]. rewrite lookup_union, lookup_insert_eq.
        destruct (list_to_map _ !! name); reflexivity.
      * intros Hne. exfalso. apply Hne. rewrite <- He. cbn.
        apply Z.eqb_eq, Eid.
    + split.
      * intros Hid. rewrite <- He in Hid. apply Z.eqb_neq in Eid. contradiction.
      * intros _. rewrite <- He. exact Hin.
Qed.

Lemma filter_map_comm {X Y : Type} (f : X -> Y) (p : Y -> bool) (l : list X) :
  List.filter p (map f l) = map f (List.filter (fun x => p (f x)) l).
Proof.
  induction l as [|x l IH]; [reflexivity|]. cbn [map List.filter].
  destruct (p (f x)); cbn [map]; rewrite IH; reflexivity.
Qed.

(** X23: [removeExpr] keeps exactly the lines with another id, a
    second removal changes nothing, and the lines left compile to the
    kinds they had before the removal. *)
Theorem removeExpr_effect (id : Z) (es : list Expr.t) :
  let es' := removeExpr id es in
  (forall e, In e es' <-> In e es /\ Expr.id e <> id)
  /\ removeExpr id es' = es'
  /\ map Compiled.kind (compiled es')
     = map Compiled.kind
         (List.filter (fun c => negb (Expr.id (Compiled.expr c) =? id)%Z)
                      (compiled es)).
Proof.
  intros es'. split; [|split].
  - intros e. unfold es', removeExpr. rewrite filter_In, negb_true_iff, Z.eqb_neq.
    reflexivity.
  - unfold es', removeExpr.
    induction es as [|e es IH]; [reflexivity|]. cbn [List.filter].
    destruct (negb (Expr.id e =? id)%Z) eqn:E; [|exact IH].
    cbn [List.filter]. rewrite E, IH. reflexivity.
  - rewrite compiled_kinds.
    rewrite (map_ext_in Compiled.kind
               (fun c => branch_kind (chosen (line_src (Compiled.expr c))))).
    + rewrite <- (map_map Compiled.expr
                    (fun e => branch_kind (chosen (line_src e)))).
      rewrite <- (filter_map_comm Compiled.expr
                    (fun e => negb (Expr.id e =? id)%Z)).
      unfold compiled at 1. rewrite compile_from_exprs. reflexivity.
    + intros c [Hc _]%filter_In. apply (compiled_kind es c Hc).
Qed.
End Edits.

(** ** Registered functions *)

Lemma min_fin (a b : Q) :
  exists q, Num.min (Fin a) (Fin b) = Fin q /\ q <= a /\ q <= b /\
            (q = a \/ q = b).
Proof.
  unfold Num.min. destruct (Num.ltb (Fin b) (Fin a)) eqn:E.
  - apply ltb_fin_iff in E. exists b. repeat split; try lra. auto.
  - apply ltb_fin_false in E. exists a. repeat split; try lra. auto.
Qed.

Lemma max_fin (a b : Q) :
  exists q, Num.max (Fin a) (Fin b) = Fin q /\ a <= q /\ b <= q /\
            (q = a \/ q = b).
Proof.
  unfold Num.max. destruct (Num.ltb (Fin a) (Fin b)) eqn:E.
  - apply ltb_fin_iff in E. exists b. repeat split; try lra. auto.
  - apply ltb_fin_false in E. exists a. repeat split; try lra. auto.
Qed.

(** X24: [clamp] of finite numbers returns a number between the two
    bounds, whichever of them is the larger; it returns [x] when [x] is
    between them, and swapping the bounds gives the same value. *)
Theorem clamp_between (x a b : Q) :
  exists q,
    ExprEval.clamp (Fin x) (Fin a) (Fin b) = Fin q
    /\ (a <= b -> a <= q <= b)
    /\ (b <= a -> b <= q <= a)
    /\ ((a <= x <= b \/ b <= x <= a) -> q == x)
    /\ ExprEval.clamp (Fin x) (Fin b) (Fin a) ≃ Fin q.
Proof.
  unfold ExprEval.clamp.
  destruct (min_fin a b) as (lo & -> & Hlo1 & Hlo2 & Hlo).
  destruct (max_fin a b) as (hi & -> & Hhi1 & Hhi2 & Hhi).
  destruct (min_fin b a) as (lo' & -> & Hlo1' & Hlo2' & Hlo').
  destruct (max_fin b a) as (hi' & -> & Hhi1' & Hhi2' & Hhi').
  destruct (max_fin x lo) as (m & -> & Hm1 & Hm2 & Hm).
  destruct (max_fin x lo') as (m' & -> & Hm1' & Hm2' & Hm').
  destruct (min_fin m hi) as (q & -> & Hq1 & Hq2 & Hq).
  destruct (min_fin m' hi') as (q' & -> & Hq1' & Hq2' & Hq').
  exists q. split; [reflexivity|].
  assert (Elo : lo == lo') by (destruct Hlo, Hlo'; subst; lra).
  assert (Ehi : hi == hi') by (destruct Hhi, Hhi'; subst; lra).
  assert (Hlohi : lo <= hi) by lra.
  assert (Em : m == m') by (destruct Hm, Hm'; subst; lra).
  assert (Eq : q == q') by (destruct Hq, Hq'; subst; lra).
  assert (Hlq : lo <= q) by (destruct Hq; subst; lra).
  split; [|split; [|split]].
  - intros Hab. destruct Hlo, Hhi; subst; lra.
  - intros Hba. destruct Hlo, Hhi; subst; lra.
  - intros Hx. assert (lo <= x <= hi) by (destruct Hlo, Hhi; subst; lra).
    destruct Hm, Hq; subst; lra.
  - cbn [Num.same]. lra.
Qed.

(** ** Canvas size *)

Lemma round_fin (q : Q) :
  exists z : Z, MathFn.round (Fin q) = Fin (inject_Z z).
Proof. eexists. reflexivity. Qed.

Lemma max_whole (n z : Z) :
  exists m : Z, Num.max (ofZ n) (Fin (inject_Z z)) = Fin (inject_Z m)
                /\ (n <= m)%Z /\ (z <= m)%Z.
Proof.
  unfold Num.max, ofZ. destruct (Num.ltb _ _) eqn:E.
  - apply ltb_fin_iff in E. rewrite <- Zlt_Qlt in E. exists z.
    split; [reflexivity | lia].
  - apply ltb_fin_false in E. rewrite <- Zle_Qle in E. exists n.
    split; [reflexivity | lia].
Qed.

(** X25: for a container of finite width the canvas is a whole number
    of pixels wide and high, at least 280 by 260, not narrower than
    the container by half a pixel or more, and not lower than 0.62
    times its width by half a pixel or more. *)
Theorem canvas_size_bounds (w : Q) :
  exists W H : Z,
    canvas_size (Fin w) = (Fin (inject_Z W), Fin (inject_Z H))
    /\ (280 <= W)%Z /\ (260 <= H)%Z
    /\ w - (1 # 2) < inject_Z W
    /\ inject_Z W * (62 # 100) - (1 # 2) < inject_Z H.
Proof.
  unfold canvas_size.
  destruct (max_whole 280 (Qfloor (w + (1 # 2)))) as (W & EW & HW1 & HW2).
  change (MathFn.round (Fin w)) with (Fin (inject_Z (Qfloor (w + (1 # 2))))).
  rewrite EW. rewrite mul_fin.
  change (MathFn.round (Fin (Qred (inject_Z W * (62 # 100)))))
    with (Fin (inject_Z (Qfloor (Qred (inject_Z W * (62 # 100)) + (1 # 2))))).
  destruct (max_whole 260 (Qfloor (Qred (inject_Z W * (62 # 100)) + (1 # 2))))
    as (H & EH & HH1 & HH2).
  rewrite EH. exists W, H. split; [reflexivity|].
  split; [exact HW1|]. split; [exact HH1|].
  assert (Hup : forall (q : Q) (z : Z),
             (Qfloor (q + (1 # 2)) <= z)%Z -> q - (1 # 2) < inject_Z z).
  { intros q z Hz. pose proof (Qlt_floor (q + (1 # 2))) as Hlt.
    rewrite inject_Z_plus in Hlt. rewrite Zle_Qle in Hz.
    change (inject_Z 1) with 1 in Hlt. lra. }
  split; [apply Hup, HW2|].
  assert (E : Qred (inject_Z W * (62 # 100)) + (1 # 2)
              == inject_Z W * (62 # 100) + (1 # 2))
    by (rewrite Qred_correct; reflexivity).
  apply Hup. rewrite <- (Qfloor_comp _ _ E). exact HH2.
Qed.

(** ** Instances *)

Lemma hd_In {A : Type} (d : A) (l : list A) : l <> [] -> In (hd d l) l.
Proof. destruct l; [congruence | left; reflexivity]. Qed.

Lemma compiled_nonempty {C : Compiler} (e : Expr.t) (es : list Expr.t) :
  compiled (e :: es) <> [].
Proof.
  intros E. apply (f_equal (@length _)) in E. unfold compiled in E.
  rewrite compile_from_length in E. discriminate E.
Qed.

Lemma compiled_hd_expr {C : Compiler} (d : Compiled.t) (e : Expr.t)
      (es : list Expr.t) :
  Compiled.expr (hd d (compiled (e :: es))) = e.
Proof.
  pose proof (compile_from_exprs (final_ans (e :: es)) (e :: es) zero) as H.
  fold (compiled (e :: es)) in H.
  destruct (compiled (e :: es)) as [|c cs]; [discriminate H|].
  cbn [map hd] in *. congruence.
Qed.

(** A compiled line to stand for a missing one. *)
Lemma compiled_all_or_nothing_witness :
  let C := ExprEval.compiler ExprEval.no_math in
  let es := [line (js "y = ("); line (js "2+3*4")] in
  let c := hd (out (line []) (Scalar NaN) []) (compiled es) in
  In c (compiled es) /\
  ((Compiled.error c = [] /\ full_payload (Compiled.payload c) = true)
   \/ (Compiled.error c <> [] /\ blank_payload (Compiled.payload c))).
Proof.
  intros C es c.
  assert (Hin : In c (compiled es)) by (apply hd_In, compiled_nonempty).
  split; [exact Hin|].
  exact (compiled_all_or_nothing es c Hin).
Defined.

Lemma explicit_reads_final_register_witness :
  let C := ExprEval.compiler ExprEval.no_math in
  let es := [line (js "y = ans + x"); line (js "2+3*4")] in
  let c := hd (out (line []) (Scalar NaN) []) (compiled es) in
  In c (compiled es) /\
  Regex.match_y (line_src (Compiled.expr c)) = Some (js "ans + x") /\
  exists f, Compiled.fn c = Some f /\ f (Fin 1) = Fin 15.
Proof.
  intros C es c.
  assert (Hin : In c (compiled es)) by (apply hd_In, compiled_nonempty).
  assert (He : Compiled.expr c = line (js "y = ans + x"))
    by apply compiled_hd_expr.
  assert (Hg : Regex.match_y (line_src (Compiled.expr c))
               = Some (js "ans + x")).
  { rewrite He. vm_compute. reflexivity. }
  split; [exact Hin|]. split; [exact Hg|].
  destruct (compileExpr (js "ans + x")) as [a|m] eqn:Ea;
    [|vm_compute in Ea; discriminate Ea].
  destruct (explicit_reads_final_register es c (js "ans + x") a Hin Hg Ea)
    as (f & Hf & Hv).
  exists f. split; [exact Hf|]. rewrite Hv.
  pose proof (classify_fields (final_ans es) zero (line (js "y = ans + x")))
    as (_ & Hp & _).
  assert (Ec : c = fst (classify_line (final_ans es) zero
                          (line (js "y = ans + x")))).
  { unfold c, compiled, es. cbn [compile_from].
    destruct (classify_line _ zero (line (js "y = ans + x"))) as [c0 r0].
    destruct (classify_line _ r0 (line (js "2+3*4"))) as [c1 r1].
    reflexivity. }
  cbv zeta in Hp. rewrite <- Ec in Hp. rewrite Hp.
  vm_compute in Ea. injection Ea as <-. vm_compute. reflexivity.
Defined.

Lemma zoomAround_anchor_witness :
  let v := view_of (-10) 10 (-6) 6 in
  let v' := zoomAround (Fin 1) (Fin 2) (Fin (1 # 2)) v in
  let t := view_transform v (Fin 800) (Fin 600) in
  let t' := view_transform v' (Fin 800) (Fin 600) in
  Num.ltb (xMin v') (xMax v') = true /\ Num.ltb (yMin v') (yMax v') = true
  /\ Num.sub (xMax v') (xMin v') ≃ Fin ((10 - -10) * (1 # 2))
  /\ Num.sub (yMax v') (yMin v') ≃ Fin ((6 - -6) * (1 # 2))
  /\ xToPx t' (Fin 1) ≃ xToPx t (Fin 1)
  /\ yToPx t' (Fin 2) ≃ yToPx t (Fin 2).
Proof.
  apply (zoomAround_anchor (-10) 10 (-6) 6 1 2 (1 # 2) 800 600); reflexivity.
Defined.


Lemma drag_follows_pointer_witness :
  let v := view_of (-10) 10 (-6) 6 in
  let v' := drag (Fin 40) (Fin (-30)) (Fin 800) (Fin 600) v v in
  let t := view_transform v (Fin 800) (Fin 600) in
  let t' := view_transform v' (Fin 800) (Fin 600) in
  xToPx t' (pxToX t (Fin 200)) ≃ Fin (200 + 40)
  /\ yToPx t' (pxToY t (Fin 150)) ≃ Fin (150 + -30)
  /\ extent (xMin v') (xMax v') ≃ extent (xMin v) (xMax v)
  /\ extent (yMin v') (yMax v') ≃ extent (yMin v) (yMax v).
Proof.
  apply (drag_follows_pointer (-10) 10 (-6) 6 200 150 40 (-30) 800 600);
    reflexivity.
Defined.

(** Zoom in, then zoom out, from the home view: the extents are 0.99
    times what they were. *)
Lemma zoomCenter_compose_witness :
  let v := view_of (-10) 10 (-6) 6 in
  let v1 := zoomCenter (Fin (9 # 10)) v v in
  let v2 := zoomCenter (Fin (11 # 10)) v1 v1 in
  centre (xMin v2) (xMax v2) ≃ centre (xMin v) (xMax v)
  /\ centre (yMin v2) (yMax v2) ≃ centre (yMin v) (yMax v)
  /\ extent (xMin v2) (xMax v2) ≃ Fin ((10 - -10) * ((9 # 10) * (11 # 10)))
  /\ extent (yMin v2) (yMax v2) ≃ Fin ((6 - -6) * ((9 # 10) * (11 # 10))).
Proof.
  apply (zoomCenter_compose (-10) 10 (-6) 6 (9 # 10) (11 # 10)); reflexivity.
Defined.

Lemma drawn_iff_visible_and_valid_witness :
  let C := ExprEval.compiler ExprEval.no_math in
  let es := [line (js "y = x"); line (js "2+3*4")] in
  let c := hd (out (line []) (Scalar NaN) []) (compiled es) in
  In c (compiled es) /\
  (draw_calls (Fin 800) (Fin 2) c = [] <->
   Expr.visible (Compiled.expr c) = false \/ Compiled.error c <> []
   \/ Compiled.kind c = scalar).
Proof.
  intros C es c.
  assert (Hin : In c (compiled es)) by (apply hd_In, compiled_nonempty).
  split; [exact Hin|].
  exact (drawn_iff_visible_and_valid es (Fin 800) (Fin 2) c Hin).
Defined.




Lemma goldenExtremum_in_bracket_witness :
  let f := fun x => Num.mul (Num.sub x (Fin 1)) (Num.sub x (Fin 1)) in
  exists x y,
    goldenExtremum f (Fin 0) (Fin 3) mode_min = Some (x, y) /\
    (exists q, x = Fin q /\ 0 <= q <= 3) /\ y = f x /\
    Num.isFinite y = true.
Proof.
  intros f.
  destruct (goldenExtremum f (Fin 0) (Fin 3) mode_min) as [[x y]|] eqn:E.
  - exists x, y. split; [reflexivity|].
    apply (goldenExtremum_in_bracket f 0 3 mode_min x y); [discriminate|].
    exact E.
  - exfalso. revert E. unfold goldenExtremum. cbv beta iota zeta.
    destruct (golden_towards 0 3 0 3) as [(d & Ed & Hd) (c & Ec & Hc)];
      [split; discriminate | split; discriminate |].
    rewrite Ed, Ec.
    destruct (golden_loop_hull f 0 3 48 0 3 c d (f (Fin c)) (f (Fin d)))
      as (a' & b' & -> & Ha' & Hb');
      [split; discriminate | split; discriminate | exact Hc | exact Hd |].
    destruct (midpoint_hull 0 3 a' b' Ha' Hb') as (m & -> & _).
    discriminate.
Defined.

Lemma analysis_points_in_view_witness :
  let curve := fun (i : Z) (f : num -> num) =>
    {| Compiled.expr :=
         {| Expr.id := i; Expr.src := js "x"; Expr.color := [];
            Expr.visible := true; Expr.lineWidth := Fin 2; Expr.params := ∅;
            Expr.domain := None; Expr.includeIntersect := true;
            Expr.error := [] |};
       Compiled.payload := Explicit (Some f);
       Compiled.params := ∅; Compiled.paramNames := [];
       Compiled.error := [] |} in
  let view := {| xMin := Fin (-10); xMax := Fin 10;
                 yMin := Fin (-10); yMax := Fin 10 |} in
  let cs := [curve 1%Z (fun x => x); curve 2%Z (fun x => Num.neg x)] in
  exists r,
    Analysis.analysis cs view (Fin 800) (Fin 2) = Ok r
    /\ forall p, In p (Analysis.allPoints r) ->
         (exists q, Analysis.x p = Fin q /\ -10 <= q <= 10)
         /\ Num.isFinite (Analysis.y p) = true.
Proof.
  intros curve view cs.
  destruct (Analysis.analysis cs view (Fin 800) (Fin 2)) as [r|m] eqn:E.
  - exists r. split; [reflexivity|].
    apply (analysis_points_in_view cs view (-10) 10 (Fin 800) (Fin 2) r);
      [reflexivity | reflexivity | discriminate | exact E].
  - exfalso.
    assert (Hs : Analysis.sample_count (Fin 800) (Fin 2) = Some 600%nat)
      by (vm_compute; reflexivity).
    unfold Analysis.analysis in E. rewrite Hs in E.
    destruct (omap Analysis.curve_of cs); discriminate E.
Defined.

(** ** White space around a line *)

Lemma drop_while_app (p : N -> bool) (s r : str) :
  drop_while p (s ++ r) =
    if forallb p s then drop_while p r else drop_while p s ++ r.
Proof.
  induction s as [|c s IH]; [reflexivity|]. cbn [app drop_while forallb].
  destruct (p c); [exact IH | reflexivity].
Qed.

Lemma drop_while_all (p : N -> bool) (s : str) :
  forallb p s = true -> drop_while p s = [].
Proof.
  induction s as [|c s IH]; [reflexivity|]. cbn [drop_while forallb].
  destruct (p c); [exact IH | discriminate].
Qed.

Lemma forallb_rev (p : N -> bool) (s : str) :
  forallb p (rev s) = forallb p s.
Proof.
  induction s as [|c s IH]; [reflexivity|]. cbn [rev forallb].
  rewrite forallb_app, IH. cbn [forallb]. rewrite andb_true_r.
  apply andb_comm.
Qed.

Lemma trim_padded (l s r : str) :
  forallb is_ws l = true -> forallb is_ws r = true ->
  trim (l ++ s ++ r) = trim s.
Proof.
  intros Hl Hr. unfold trim, trimStart, trimEnd.
  rewrite (drop_while_app is_ws l), Hl.
  rewrite (drop_while_app is_ws s).
  destruct (forallb is_ws s) eqn:Hs.
  - rewrite (drop_while_all is_ws r Hr), (drop_while_all is_ws s Hs).
    reflexivity.
  - rewrite rev_app_distr, (drop_while_app is_ws (rev r)), forallb_rev, Hr.
    reflexivity.
Qed.

Lemma ws_not_word (c : N) :
  is_ws c = true -> is_word c = false /\ is_alpha c || (c =? ch "_")%N = false.
Proof.
  intros H.
  assert (Hc : (c < 48 \/ 57 < c)%N /\ (c < 65 \/ 90 < c)%N
               /\ (c < 97 \/ 122 < c)%N /\ c <> 95%N).
  { unfold is_ws, between in H.
    repeat match goal with
           | H : _ || _ = true |- _ => apply orb_prop in H as [H|H]
           | H : _ && _ = true |- _ => apply andb_prop in H as [? ?]
           | H : N.leb _ _ = true |- _ => apply N.leb_le in H
           | H : N.eqb _ _ = true |- _ => apply N.eqb_eq in H
           end; lia. }
  destruct Hc as (Hd & Hu & Hlo & H_).
  assert (Ed : is_digit c = false).
  { unfold is_digit, between. apply andb_false_iff.
    rewrite !N.leb_gt. lia. }
  assert (Eu : is_upper c = false).
  { unfold is_upper, between. apply andb_false_iff.
    rewrite !N.leb_gt. lia. }
  assert (El : is_lower c = false).
  { unfold is_lower, between. apply andb_false_iff.
    rewrite !N.leb_gt. lia. }
  assert (E_ : (c =? 95)%N = false) by (apply N.eqb_neq; exact H_).
  unfold is_word, is_alpha. change (ch "_") with 95%N.
  rewrite Ed, Eu, El, E_. split; reflexivity.
Qed.

Lemma identifiers_ws (cur : option str) (r : str) :
  forallb is_ws r = true -> identifiers cur r = identifiers cur [].
Proof.
  revert cur. induction r as [|c r IH]; intros cur H; [reflexivity|].
  cbn [forallb] in H. apply andb_prop in H as [Hc Hr].
  destruct (ws_not_word c Hc) as [Hw Hs]. cbn [identifiers].
  destruct cur as [w|].
  - rewrite Hw, (IH None Hr). reflexivity.
  - rewrite Hs. apply (IH None Hr).
Qed.

Lemma identifiers_app_ws (s r : str) :
  forallb is_ws r = true ->
  forall cur, identifiers cur (s ++ r) = identifiers cur s.
Proof.
  intros Hr. induction s as [|c s IH]; intros cur.
  - apply identifiers_ws, Hr.
  - cbn [app identifiers]. destruct cur as [w|].
    + destruct (is_word c); rewrite IH; reflexivity.
    + destruct (is_alpha c || (c =? ch "_")%N); apply IH.
Qed.

Lemma identifiers_ws_app (l s : str) :
  forallb is_ws l = true ->
  identifiers None (l ++ s) = identifiers None s.
Proof.
  induction l as [|c l IH]; intros H; [reflexivity|].
  cbn [forallb] in H. apply andb_prop in H as [Hc Hl].
  destruct (ws_not_word c Hc) as [_ Hs]. cbn [app identifiers].
  rewrite Hs. apply IH, Hl.
Qed.

Lemma detectParams_padded (l s r : str) :
  forallb is_ws l = true -> forallb is_ws r = true ->
  detectParams (l ++ s ++ r) = detectParams s.
Proof.
  intros Hl Hr. unfold detectParams.
  rewrite (identifiers_ws_app l _ Hl), (identifiers_app_ws s r Hr).
  reflexivity.
Qed.

Section Retag.
Context {C : Compiler}.
Variables (e e' : Expr.t).
Hypothesis Hsrc : line_src e' = line_src e.
Hypothesis Hnames : line_names e' = line_names e.
Hypothesis Hparams : line_params e' = line_params e.

Lemma out_retag (p : Payload) (err : str) : out e' p err = retag e' (out e p err).
Proof. unfold out, retag. cbn. rewrite Hnames, Hparams. reflexivity. Qed.

Lemma rest_retag (ansF ans : num) :
  classify_rest ansF ans e'
  = (retag e' (fst (classify_rest ansF ans e)), snd (classify_rest ansF ans e)).
Proof.
  unfold classify_rest. rewrite Hsrc.
  destruct (Regex.match_double (line_src e)) as [[[[[A o1] B] o2] Cc]|].
  { cbn [fst snd]. unfold double_line. rewrite Hparams.
    destruct (_ ← compileExpr A; _) as [[[a b] c]|m];
      rewrite out_retag; reflexivity. }
  destruct (find_cmp (line_src e)) as [[o i]|].
  { cbn [fst snd]. unfold inequality_line. rewrite Hparams, Hsrc.
    destruct (_ ← compileExpr _; _) as [[l r]|m];
      rewrite out_retag; reflexivity. }
  destruct (Guard.implicit (line_src e)).
  { cbn [fst snd]. unfold implicit_line. rewrite Hparams, Hsrc.
    destruct (split _ _) as [|l [|r [|x rest]]];
      try (rewrite out_retag; reflexivity).
    destruct (_ ← compileExpr _; _) as [[a b]|m];
      rewrite out_retag; reflexivity. }
  destruct (Guard.scalar (line_src e)).
  { unfold scalar_line, scalar_eval. rewrite Hparams, Hsrc.
    destruct (_ ← compileExpr _; _) as [v|m]; cbn [fst snd];
      rewrite out_retag; reflexivity. }
  cbn [fst snd]. unfold fallback_line. rewrite Hparams, Hsrc.
  destruct (compileExpr _); rewrite out_retag; reflexivity.
Qed.

Lemma classify_retag (ansF ans : num) :
  classify_line ansF ans e'
  = (retag e' (fst (classify_line ansF ans e)), snd (classify_line ansF ans e)).
Proof.
  unfold classify_line. rewrite Hsrc.
  destruct (Regex.match_y (line_src e)) as [g|].
  { cbn [fst snd]. unfold explicit_y. rewrite Hparams.
    destruct (compileExpr g); rewrite out_retag; reflexivity. }
  destruct (if Guard.hasTh (line_src e) then _ else _) as [g|].
  { cbn [fst snd]. unfold polar_line. rewrite Hparams, Hsrc.
    destruct (compileExpr g); [|rewrite out_retag; reflexivity].
    destruct (Regex.match_theta_range _) as [[g1 g2]|];
      rewrite out_retag; reflexivity. }
  assert (Hp : parametric_line ansF ans e'
               = option_map (retag e') (parametric_line ansF ans e)).
  { unfold parametric_line. rewrite Hparams, Hsrc.
    destruct (_ && _); [|reflexivity].
    destruct (_ ← compile_opt _; _) as [[ax ay]|m];
      rewrite out_retag; reflexivity. }
  destruct (Guard.parametric (line_src e)); [|apply rest_retag].
  rewrite Hp. destruct (parametric_line ansF ans e) as [c|];
    [reflexivity | apply rest_retag].
Qed.
End Retag.

(** X26: white space before and after the text of a line changes
    nothing in how the line is compiled: the kind, the functions, the
    parameters and their names, the ranges, the value and the message
    are the same, and so is the register after the line; only the
    line stored in the output differs. *)
Theorem surrounding_space_ignored
  {C : Compiler} (l r : str) (e : Expr.t) (ansF ans : num) :
  forallb is_ws l = true -> forallb is_ws r = true ->
  let e' := with_src (l ++ Expr.src e ++ r) e in
  classify_line ansF ans e'
  = (retag e' (fst (classify_line ansF ans e)), snd (classify_line ansF ans e)).
Proof.
  intros Hl Hr e'.
  assert (Hn : line_names e' = line_names e).
  { unfold line_names, e'. cbn [Expr.src with_src].
    apply detectParams_padded; assumption. }
  apply classify_retag.
  - unfold line_src, normalize, e'. cbn [Expr.src with_src].
    rewrite trim_padded by assumption. reflexivity.
  - exact Hn.
  - unfold line_params. rewrite Hn. reflexivity.
Qed.

Lemma surrounding_space_ignored_witness :
  let C := ExprEval.compiler ExprEval.no_math in
  let e := line (js "2+3*4") in
  let e' := with_src (js "  " ++ Expr.src e ++ js " ") e in
  classify_line zero zero e'
  = (retag e' (fst (classify_line zero zero e)), snd (classify_line zero zero e)).
Proof.
  intros C e.
  apply (surrounding_space_ignored (js "  ") (js " ") e zero zero);
    reflexivity.
Defined.
